(** * Charly VM: tagged values, managed heap and mark-and-sweep collector

    A shallow embedding of [include/value.h], [src/gc.cpp] and
    [src/vm/operators.cpp].  Machine words are integers of [Z] with their
    wrap-around written out; the managed heap is a finite map from cell
    addresses to cells. *)

From Stdlib Require Import ZArith Lia SpecFloat.
From stdpp Require Import gmap list.

Local Open Scope Z_scope.

(** ** Machine integers *)

(** [VALUE] is [uint64_t]; pointers are cast to it. *)
Abbreviation VALUE := Z (only parsing).

Definition wrap64 (z : Z) : Z := z mod 2 ^ 64.
Definition wrap8 (z : Z) : Z := z mod 2 ^ 8.

(** [static_cast<int64_t>] of a 64-bit pattern. *)
Definition to_int64 (v : VALUE) : Z :=
  if v <? 2 ^ 63 then v else v - 2 ^ 64.

(** ** value.h: flags of [Basic] *)

Definition kFlagType : Z := 31.         (* 0b00011111 *)
Definition kFlagMark : Z := 32.         (* 0b00100000 *)
Definition kFlagShortString : Z := 64.  (* 0b01000000 *)

Definition kTypeDead : Z := 0.
Definition kTypeInteger : Z := 1.
Definition kTypeFloat : Z := 2.
Definition kTypeString : Z := 3.
Definition kTypeNumeric : Z := 4.
Definition kTypeBoolean : Z := 5.
Definition kTypeNull : Z := 6.
Definition kTypeObject : Z := 7.
Definition kTypeArray : Z := 8.
Definition kTypeFunction : Z := 9.
Definition kTypeCFunction : Z := 10.
Definition kTypeClass : Z := 11.
Definition kTypeSymbol : Z := 12.
Definition kTypeFrame : Z := 13.
Definition kTypeCatchTable : Z := 14.

(** Modelled from the spec: [kTypeInstructionBlock] is used by gc.cpp but the
    enumeration in value.h stops at [kTypeCatchTable]; the spec lists
    [instruction_block] right after [catchtable]. *)
Definition kTypeInstructionBlock : Z := 15.

(** [struct Basic { uint8_t flags; }] *)
Record Basic := mkBasic { flags : Z }.

Definition Basic_type (b : Basic) : Z := Z.land (flags b) kFlagType.
Definition Basic_mark (b : Basic) : bool := negb (Z.land (flags b) kFlagMark =? 0).
Definition Basic_short_string (b : Basic) : bool :=
  negb (Z.land (flags b) kFlagShortString =? 0).

Definition Basic_set_type (b : Basic) (val : Z) : Basic :=
  mkBasic (wrap8 (Z.lor (Z.land (flags b) (Z.lnot kFlagType)) (Z.land kFlagType val))).

(** [flags ^= (-val ^ flags) & kFlagMark] *)
Definition Basic_set_mark (b : Basic) (val : bool) : Basic :=
  mkBasic (wrap8 (Z.lxor (flags b) (Z.land (Z.lxor (- Z.b2z val) (flags b)) kFlagMark))).

Definition Basic_set_short_string (b : Basic) (val : bool) : Basic :=
  mkBasic (wrap8 (Z.lxor (flags b)
                     (Z.land (Z.lxor (- Z.b2z val) (flags b)) kFlagShortString))).

(** ** value.h: low-bit tagging *)

Definition kPointerMask : Z := 7.
Definition kPointerFlag : Z := 0.
Definition kIntegerMask : Z := 1.
Definition kIntegerFlag : Z := 1.
Definition kFloatMask : Z := 3.
Definition kFloatFlag : Z := 2.
Definition kSymbolMask : Z := 15.
Definition kSymbolFlag : Z := 12.
Definition kFalse : Z := 0.
Definition kTrue : Z := 20.
Definition kNull : Z := 8.

Definition is_boolean (value : VALUE) : bool := (value =? kFalse) || (value =? kTrue).
Definition is_integer (value : VALUE) : bool := Z.land value kIntegerMask =? kIntegerFlag.
Definition is_ifloat (value : VALUE) : bool := Z.land value kFloatMask =? kFloatFlag.
Definition is_symbol (value : VALUE) : bool := Z.land value kSymbolMask =? kSymbolFlag.
Definition is_false (value : VALUE) : bool := value =? kFalse.
Definition is_true (value : VALUE) : bool := value =? kTrue.
Definition is_null (value : VALUE) : bool := value =? kNull.
Definition is_pointer (value : VALUE) : bool :=
  negb (is_null value) && negb (is_false value)
  && (Z.land value kPointerMask =? kPointerFlag).
Definition is_special (value : VALUE) : bool := negb (is_pointer value).

(** [(static_cast<VALUE>(value) << 1) | kIntegerFlag] *)
Definition VALUE_ENCODE_INTEGER (value : Z) : VALUE :=
  Z.lor (wrap64 (Z.shiftl (wrap64 value) 1)) kIntegerFlag.

(** [static_cast<int64_t>(value) >> 1], the shift being arithmetic. *)
Definition VALUE_DECODE_INTEGER (value : VALUE) : Z :=
  Z.shiftr (to_int64 value) 1.

(** How many of the six kind predicates accept a word. *)
Definition kind_count (v : VALUE) : nat :=
  (Nat.b2n (is_integer v) + Nat.b2n (is_ifloat v) + Nat.b2n (is_symbol v)
   + Nat.b2n (is_boolean v) + Nat.b2n (is_null v) + Nat.b2n (is_pointer v))%nat.

(** ** Outcomes

    Running a piece of the runtime either returns, or runs into undefined
    behaviour ([Fault]: an access through an address that is no cell, through
    the null pointer, or through the wrong member of the cell union), or
    stops the process ([Abort]: a failed [assert]).  [OutOfFuel] belongs to
    the model only: recursive procedures take a recursion budget. *)

Inductive Result (A : Type) : Type :=
| Ok (a : A)
| Fault
| Abort
| OutOfFuel.
Arguments Ok {A} a.
Arguments Fault {A}.
Arguments Abort {A}.
Arguments OutOfFuel {A}.

#[global] Instance Result_ret : MRet Result := fun A a => Ok a.
#[global] Instance Result_bind : MBind Result := fun A B f r =>
  match r with
  | Ok a => f a
  | Fault => Fault
  | Abort => Abort
  | OutOfFuel => OutOfFuel
  end.

(** A loop whose body may fail. *)
Fixpoint foldM {A B : Type} (f : B -> A -> Result B) (l : list A) (b : B) : Result B :=
  match l with
  | [] => Ok b
  | x :: l' => b' ← f b x; foldM f l' b'
  end.

(** ** value.h: heap structures *)

Module Object.
Record t := mk { klass : VALUE; container : list (VALUE * VALUE) }.
End Object.

Module Array.
Record t := mk { data : list VALUE }.
End Array.

Module String.
(** The bytes of the active buffer; [Basic_short_string] tells which. *)
Record t := mk { data : list Z }.
End String.

Module Float.
(** [double float_value], held as its IEEE-754 binary64 pattern. *)
Record t := mk { float_value : Z }.
End Float.

Module Frame.
(** gc.cpp reads [lvar.value] of every entry of [environment]: the list
    holds those [value] fields. *)
Record t := mk {
  parent : VALUE;
  parent_environment_frame : VALUE;
  last_active_catchtable : VALUE;
  function : VALUE;
  environment : list VALUE;
  self : VALUE;
  return_address : Z;
  halt_after_return : bool }.
End Frame.

Module CatchTable.
Record t := mk { address : Z; stacksize : Z; frame : VALUE; parent : VALUE }.
End CatchTable.

Module Function.
(** The fields of value.h, and [block], which gc.cpp marks. *)
Record t := mk {
  name : VALUE;
  argc : Z;
  lvarcount : Z;
  context : VALUE;
  block : VALUE;
  body_address : Z;
  anonymous : bool;
  bound_self_set : bool;
  bound_self : VALUE;
  container : list (VALUE * VALUE) }.
End Function.

Module CFunction.
Record t := mk {
  name : VALUE;
  pointer : Z;
  argc : Z;
  bound_self_set : bool;
  bound_self : VALUE;
  container : list (VALUE * VALUE) }.
End CFunction.

Module Class.
Record t := mk {
  name : VALUE;
  constructor : VALUE;
  member_properties : list VALUE;
  prototype : VALUE;
  parent_class : VALUE;
  container : list (VALUE * VALUE) }.
End Class.

Module InstructionBlock.
(** gc.cpp walks [child_blocks]; the byte buffer holds no reference. *)
Record t := mk { child_blocks : list VALUE; data : list Z }.
End InstructionBlock.

(** [MemoryCell] is a union of [Basic], the struct of every heap type and the
    free-list link [free.next]. *)
Inductive CellUnion : Type :=
| AsFree (next : VALUE)
| AsObject (object : Object.t)
| AsArray (array : Array.t)
| AsString (string : String.t)
| AsFloat (flonum : Float.t)
| AsFunction (function : Function.t)
| AsCFunction (cfunction : CFunction.t)
| AsClass (klass : Class.t)
| AsFrame (frame : Frame.t)
| AsCatchTable (catchtable : CatchTable.t)
| AsInstructionBlock (instructionblock : InstructionBlock.t).

Record MemoryCell := mkCell { basic : Basic; as_ : CellUnion }.

(** A cell as [calloc] and [memset(cell, 0, sizeof(MemoryCell))] leave it. *)
Definition zero_cell : MemoryCell := mkCell (mkBasic 0) (AsFree 0).

Abbreviation Memory := (gmap Z MemoryCell).

Definition cell_set_mark (c : MemoryCell) (val : bool) : MemoryCell :=
  mkCell (Basic_set_mark (basic c) val) (as_ c).

(** ** gc.cpp: [MemoryManager::mark] *)

(** The values the [switch] of [mark] passes to the recursive calls, in the
    order of the calls.  A type tag that does not agree with the member of
    the union that is live is undefined behaviour. *)
Definition mark_children (c : MemoryCell) : Result (list VALUE) :=
  let ty := Basic_type (basic c) in
  if ty =? kTypeObject then
    match as_ c with
    | AsObject obj => Ok (Object.klass obj :: map snd (Object.container obj))
    | _ => Fault
    end
  else if ty =? kTypeArray then
    match as_ c with
    | AsArray arr => Ok (Array.data arr)
    | _ => Fault
    end
  else if ty =? kTypeFunction then
    match as_ c with
    | AsFunction func =>
        Ok (Function.context func :: Function.block func
            :: (if Function.bound_self_set func then [Function.bound_self func] else []))
    | _ => Fault
    end
  else if ty =? kTypeCFunction then
    match as_ c with
    | AsCFunction cfunc =>
        Ok (if CFunction.bound_self_set cfunc then [CFunction.bound_self cfunc] else [])
    | _ => Fault
    end
  else if ty =? kTypeFrame then
    match as_ c with
    | AsFrame frame =>
        Ok (Frame.parent frame :: Frame.parent_environment_frame frame
            :: Frame.function frame :: Frame.self frame :: Frame.environment frame)
    | _ => Fault
    end
  else if ty =? kTypeCatchTable then
    match as_ c with
    | AsCatchTable table => Ok [CatchTable.frame table; CatchTable.parent table]
    | _ => Fault
    end
  else if ty =? kTypeInstructionBlock then
    match as_ c with
    | AsInstructionBlock blk => Ok (InstructionBlock.child_blocks blk)
    | _ => Fault
    end
  else Ok [].

(** Marking a sequence of values one after the other, as the loops of [mark]
    and [collect] do.  The second component is the log of the cells whose
    mark was set, in the order of the [set_mark(true)] calls. *)
Fixpoint mark_each (rec : VALUE -> Memory -> Result (Memory * list VALUE))
    (vs : list VALUE) (m : Memory) : Result (Memory * list VALUE) :=
  match vs with
  | [] => Ok (m, [])
  | v :: vs' =>
      '(m1, log1) ← rec v m;
      '(m2, log2) ← mark_each rec vs' m1;
      Ok (m2, log1 ++ log2)
  end.

(** [mark]: [fuel] bounds the depth of the recursion. *)
Fixpoint mark (fuel : nat) (value : VALUE) (m : Memory) : Result (Memory * list VALUE) :=
  match fuel with
  | O => OutOfFuel
  | S fuel' =>
      if negb (is_pointer value) then Ok (m, [])
      else
        match m !! value with
        | None => Fault
        | Some c =>
            if Basic_mark (basic c) then Ok (m, [])
            else
              let c' := cell_set_mark c true in
              children ← mark_children c';
              '(m', log) ← mark_each (mark fuel') children (<[value := c']> m);
              Ok (m', value :: log)
        end
  end.

(** ** vm.h: the primitive classes, the queues and the stacks of the machine *)

Record VMTask := mkVMTask { uid : Z; fn : VALUE; argument : VALUE }.

Record VM := mkVM {
  primitive_value : VALUE;
  primitive_object : VALUE;
  primitive_class : VALUE;
  primitive_array : VALUE;
  primitive_string : VALUE;
  primitive_number : VALUE;
  primitive_function : VALUE;
  primitive_generator : VALUE;
  primitive_boolean : VALUE;
  primitive_null : VALUE;
  task_queue : list VMTask;
  timers : list (Z * VMTask);
  intervals : list (Z * (VMTask * Z));
  stack : list VALUE;
  frames : VALUE;
  catchstack : VALUE }.

(** ** gc.cpp: [MemoryManager] *)

(** The constants of gc.h, which is not among the sources, and the size of a
    cell. *)
Record GCConfig := mkGCConfig {
  kGCInitialHeapCount : nat;
  kGCHeapCellCount : nat;
  kGCHeapCountGrowthFactor : nat;
  sizeof_MemoryCell : Z }.

(** Modelled from the spec: the constants of gc.h as the spec gives them
    (8 regions of 1024 cells, growth factor 2); a cell of 64 bytes holds the
    largest structure of value.h. *)
Definition spec_config : GCConfig := mkGCConfig 8 1024 2 64.

(** What the collector and the allocator write to [std::cout]. *)
Inductive Output : Type :=
| GCPause                  (* "#-- GC: Pause --#" *)
| GCFreed (count : Z)      (* "#-- GC: Freed a total of <count> cells --#" *)
| GCFinished               (* "#-- GC: Finished --#" *)
| HeapExpandFailed.        (* "Failed to expand heap, the next allocation will cause a segfault." *)

(** [free_cell], [heaps] and [temporaries] are the members of the class;
    [memory] is the process memory that holds the cells, [brk] the address of
    the block the next [calloc] returns, [out] the text written so far.
    [calloc] is taken to succeed.  The container of [temporaries] is declared
    in gc.h; the spec calls it a multiset, and a list with one registration
    per element stands for it. *)
Record MemoryManager := mkMM {
  free_cell : VALUE;
  heaps : list VALUE;
  temporaries : list VALUE;
  memory : Memory;
  brk : Z;
  out : list Output }.

Definition mm_set_memory (mm : MemoryManager) (m : Memory) : MemoryManager :=
  mkMM (free_cell mm) (heaps mm) (temporaries mm) m (brk mm) (out mm).
Definition mm_set_free_cell (mm : MemoryManager) (p : VALUE) : MemoryManager :=
  mkMM p (heaps mm) (temporaries mm) (memory mm) (brk mm) (out mm).
Definition mm_set_temporaries (mm : MemoryManager) (t : list VALUE) : MemoryManager :=
  mkMM (free_cell mm) (heaps mm) t (memory mm) (brk mm) (out mm).
Definition mm_print (mm : MemoryManager) (o : Output) : MemoryManager :=
  mkMM (free_cell mm) (heaps mm) (temporaries mm) (memory mm) (brk mm) (out mm ++ [o]).

(** The addresses [heap + i] for [i < kGCHeapCellCount]. *)
Definition heap_cells (cfg : GCConfig) (heap : VALUE) : list VALUE :=
  map (fun i : nat => heap + Z.of_nat i * sizeof_MemoryCell cfg)
      (seq 0 (kGCHeapCellCount cfg)).

Definition all_cells (cfg : GCConfig) (hs : list VALUE) : list VALUE :=
  concat (map (heap_cells cfg) hs).

(** [add_heap]: a zeroed block from [calloc], every cell of it linked in
    front of the free list. *)
Definition add_heap (cfg : GCConfig) (mm : MemoryManager) : MemoryManager :=
  let heap := brk mm in
  let '(m, last_cell) :=
    fold_left (fun (acc : Memory * VALUE) (cell : VALUE) =>
                 (<[cell := mkCell (mkBasic 0) (AsFree (snd acc))]> (fst acc), cell))
              (heap_cells cfg heap) (memory mm, free_cell mm) in
  mkMM last_cell (heaps mm ++ [heap]) (temporaries mm) m
       (heap + Z.of_nat (kGCHeapCellCount cfg) * sizeof_MemoryCell cfg) (out mm).

(** [grow_heap]: [heap_count * kGCHeapCountGrowthFactor - heap_count] more
    heaps, the count being a [size_t]. *)
Definition grow_heap (cfg : GCConfig) (mm : MemoryManager) : MemoryManager :=
  let heap_count := Z.of_nat (length (heaps mm)) in
  let heaps_to_add :=
    wrap64 (wrap64 (heap_count * Z.of_nat (kGCHeapCountGrowthFactor cfg)) - heap_count) in
  Nat.iter (Z.to_nat heaps_to_add) (add_heap cfg) mm.

(** The constructor: no cell, then [kGCInitialHeapCount] heaps; [base] is
    where [calloc] starts. *)
Definition MemoryManager_new (cfg : GCConfig) (base : Z) : MemoryManager :=
  Nat.iter (kGCInitialHeapCount cfg) (add_heap cfg) (mkMM 0 [] [] ∅ base []).

Definition register_temporary (mm : MemoryManager) (value : VALUE) : MemoryManager :=
  mm_set_temporaries mm (value :: temporaries mm).

(** [erase] of the iterator [find] returned: one registration goes. *)
Fixpoint erase_one (value : VALUE) (l : list VALUE) : list VALUE :=
  match l with
  | [] => []
  | x :: l' => if x =? value then l' else x :: erase_one value l'
  end.

Definition unregister_temporary (mm : MemoryManager) (value : VALUE) : Result MemoryManager :=
  if existsb (Z.eqb value) (temporaries mm)
  then Ok (mm_set_temporaries mm (erase_one value (temporaries mm)))
  else Abort.

(** The [clean()] call [free] makes for the type of the cell: it releases
    buffers owned by the cell, which the [memset] then forgets. *)
Definition clean (c : MemoryCell) : Result unit :=
  let ty := Basic_type (basic c) in
  if ty =? kTypeObject then match as_ c with AsObject _ => Ok tt | _ => Fault end
  else if ty =? kTypeArray then match as_ c with AsArray _ => Ok tt | _ => Fault end
  else if ty =? kTypeString then match as_ c with AsString _ => Ok tt | _ => Fault end
  else if ty =? kTypeFrame then match as_ c with AsFrame _ => Ok tt | _ => Fault end
  else if ty =? kTypeInstructionBlock then
    match as_ c with AsInstructionBlock _ => Ok tt | _ => Fault end
  else Ok tt.

(** [MemoryManager::free] *)
Definition free (mm : MemoryManager) (cell : VALUE) : Result MemoryManager :=
  mm1 ← (if Z.of_nat (count_occ Z.eq_dec (temporaries mm) cell) =? 1
         then unregister_temporary mm cell else Ok mm);
  match memory mm1 !! cell with
  | None => Fault
  | Some c =>
      _ ← clean c;
      Ok (mm_set_free_cell
            (mm_set_memory mm1 (<[cell := mkCell (mkBasic 0) (AsFree (free_cell mm1))]> (memory mm1)))
            cell)
  end.

(** The body of the sweep loop for one cell; [freed] is [freed_cells_count],
    an [int] in the source.  The count of the model is the value of that
    [int] as long as fewer than 2^31 cells are freed; past that the increment
    of the source overflows, which is undefined. *)
Definition sweep_cell (acc : MemoryManager * Z) (cell : VALUE) : Result (MemoryManager * Z) :=
  let '(mm, freed) := acc in
  match memory mm !! cell with
  | None => Fault
  | Some c =>
      if Basic_mark (basic c)
      then Ok (mm_set_memory mm (<[cell := cell_set_mark c false]> (memory mm)), freed)
      else if negb (Basic_type (basic c) =? kTypeDead)
           then mm' ← free mm cell; Ok (mm', freed + 1)
           else Ok (mm, freed)
  end.

(** The mark phase of [collect]: the stack, the temporaries, [vm->frames],
    [vm->catchstack]. *)
Definition mark_phase (fuel : nat) (vm : VM) (mm : MemoryManager) : Result (Memory * list VALUE) :=
  '(m1, log1) ← mark_each (mark fuel) (stack vm) (memory mm);
  '(m2, log2) ← mark_each (mark fuel) (temporaries mm) m1;
  '(m3, log3) ← mark fuel (frames vm) m2;
  '(m4, log4) ← mark fuel (catchstack vm) m3;
  Ok (m4, log1 ++ log2 ++ log3 ++ log4).

Definition sweep_phase (cfg : GCConfig) (mm : MemoryManager) : Result (MemoryManager * Z) :=
  foldM sweep_cell (all_cells cfg (heaps mm)) (mm, 0).

(** The recursion budget [collect] gives to [mark]: one more than the number
    of cells, which is never exhausted. *)
Definition mark_budget (m : Memory) : nat := S (size m).

(** [MemoryManager::collect] *)
Definition collect (cfg : GCConfig) (vm : VM) (mm : MemoryManager) : Result MemoryManager :=
  let mm := mm_print mm GCPause in
  '(m, _) ← mark_phase (mark_budget (memory mm)) vm mm;
  '(mm, freed_cells_count) ← sweep_phase cfg (mm_set_memory mm m);
  Ok (mm_print (mm_print mm (GCFreed freed_cells_count)) GCFinished).

(** [MemoryManager::allocate] *)
Definition allocate (cfg : GCConfig) (vm : VM) (mm : MemoryManager)
    : Result (VALUE * MemoryManager) :=
  let cell := free_cell mm in
  if cell =? 0 then Ok (cell, mm)
  else
    match memory mm !! cell with
    | None => Fault
    | Some c =>
        match as_ c with
        | AsFree next =>
            let mm := mm_set_free_cell mm next in
            if free_cell mm =? 0 then
              mm ← collect cfg vm mm;
              if free_cell mm =? 0 then
                let mm := grow_heap cfg mm in
                if free_cell mm =? 0
                then Ok (cell, mm_print mm HeapExpandFailed)
                else Ok (cell, mm)
              else Ok (cell, mm)
            else Ok (cell, mm)
        | _ => Fault
        end
    end.

(** ** IEEE-754 doubles

    A [double] is held as its 64-bit pattern, which [double_to_SF] reads as a
    binary64 number of the Standard Library's [spec_float] (53 bits of
    precision, round to nearest even).  IEEE-754 fixes every result but the
    sign and the payload of a NaN, which the hardware chooses. *)

Definition double_prec : Z := 53.
Definition double_emax : Z := 1024.

(** The [NAN] macro of <cmath>, converted to [double]. *)
Definition NAN : Z := 0x7FF8000000000000.

Definition double_to_SF (bits : Z) : spec_float :=
  let s := Z.testbit bits 63 in
  let e := (bits / 2 ^ 52) mod 2 ^ 11 in
  let m := bits mod 2 ^ 52 in
  if e =? 0 then
    if m =? 0 then S754_zero s else S754_finite s (Z.to_pos m) (-1074)
  else if e =? 2047 then
    if m =? 0 then S754_infinity s else S754_nan
  else S754_finite s (Z.to_pos (m + 2 ^ 52)) (e - 1075).

Definition SF_to_double (f : spec_float) : Z :=
  let sign (s : bool) := if s then 2 ^ 63 else 0 in
  match f with
  | S754_zero s => sign s
  | S754_infinity s => sign s + 2047 * 2 ^ 52
  | S754_nan => NAN
  | S754_finite s m e =>
      if Z.pos m <? 2 ^ 52 then sign s + Z.pos m
      else sign s + (e + 1075) * 2 ^ 52 + (Z.pos m - 2 ^ 52)
  end.

Definition double_is_nan (d : Z) : bool :=
  match double_to_SF d with S754_nan => true | _ => false end.

(** The choice of the hardware: the pattern of the NaN that the addition of
    two doubles produces when its result is a NaN. *)
Record FPU := mkFPU { add_nan : Z -> Z -> Z }.

Definition FPU_wf (fpu : FPU) : Prop :=
  forall a b, 0 <= add_nan fpu a b < 2 ^ 64 /\ double_is_nan (add_nan fpu a b) = true.

(** A unit that produces the canonical NaN, as RISC-V does. *)
Definition canonical_fpu : FPU := mkFPU (fun _ _ => NAN).

(** The SSE2 unit of x86-64: a NaN operand is returned with its quiet bit
    set, the first one if both are NaN; an invalid operation gives the
    negative quiet NaN with an empty payload. *)
Definition sse2_fpu : FPU :=
  mkFPU (fun a b =>
           if double_is_nan a then Z.lor (wrap64 a) (2 ^ 51)
           else if double_is_nan b then Z.lor (wrap64 b) (2 ^ 51)
           else 0xFFF8000000000000).

(** [nleft + nright] on doubles. *)
Definition double_add (fpu : FPU) (a b : Z) : Z :=
  match SFadd double_prec double_emax (double_to_SF a) (double_to_SF b) with
  | S754_nan => add_nan fpu a b
  | sum => SF_to_double sum
  end.

(** The conversion of an [int64_t] to [double]. *)
Definition double_of_int64 (z : Z) : Z :=
  SF_to_double (binary_normalize double_prec double_emax z 0 false).

(** [d != 0] on doubles: a NaN differs from zero, both zeros equal it. *)
Definition double_nonzero (d : Z) : bool :=
  negb (SFeqb (double_to_SF d) (S754_zero false)).

(** ** The helpers of [VM] that operators.cpp calls

    vm.cpp is not among the sources. *)

(** [is_numeric] of value.h; it reads the header of the cell a pointer
    designates. *)
Definition is_numeric (m : Memory) (value : VALUE) : Result bool :=
  if is_integer value then Ok true
  else if is_ifloat value then Ok true
  else if negb (is_special value) then
    match m !! value with
    | None => Fault
    | Some c => Ok (Basic_type (basic c) =? kTypeFloat)
    end
  else Ok false.

(** Modelled from the spec: [VM::type] (vm.cpp) gives [kTypeNumeric] to the
    operands the spec calls numeric (immediate integer, immediate float,
    boxed float) and otherwise the type of the value. *)
Definition VM_type (m : Memory) (value : VALUE) : Result Z :=
  if is_integer value then Ok kTypeNumeric
  else if is_ifloat value then Ok kTypeNumeric
  else if is_pointer value then
    match m !! value with
    | None => Fault
    | Some c =>
        let ty := Basic_type (basic c) in
        Ok (if ty =? kTypeFloat then kTypeNumeric else ty)
    end
  else if is_boolean value then Ok kTypeBoolean
  else if is_null value then Ok kTypeNull
  else if is_symbol value then Ok kTypeSymbol
  else Ok kTypeDead.

(** Modelled from the spec: the immediate float (vm.cpp).  The spec keeps the
    low two bits for the tag and lets the top 62 bits encode the value, and
    boxes a double whose mantissa does not fit: a double is immediate when
    the low two bits of its pattern are clear. *)
Definition ifloat_representable (d : Z) : bool := Z.land d kFloatMask =? 0.
Definition VALUE_ENCODE_FLOAT (d : Z) : VALUE := Z.lor d kFloatFlag.
Definition VALUE_DECODE_FLOAT (value : VALUE) : Z := Z.land value (Z.lnot kFloatMask).

(** Modelled from the spec: [VM::numeric_value] (vm.cpp) widens a numeric
    operand to double. *)
Definition numeric_value (m : Memory) (value : VALUE) : Result Z :=
  if is_integer value then Ok (double_of_int64 (VALUE_DECODE_INTEGER value))
  else if is_ifloat value then Ok (VALUE_DECODE_FLOAT value)
  else
    match m !! value with
    | None => Fault
    | Some c =>
        match as_ c with
        | AsFloat f => Ok (Float.float_value f)
        | _ => Fault
        end
    end.

(** Modelled from the spec: [VM::create_float] (vm.cpp) produces an immediate
    float if the double is representable, else allocates a boxed float. *)
Definition create_float (cfg : GCConfig) (vm : VM) (mm : MemoryManager) (d : Z)
    : Result (VALUE * MemoryManager) :=
  if ifloat_representable d then Ok (VALUE_ENCODE_FLOAT d, mm)
  else
    '(cell, mm) ← allocate cfg vm mm;
    match memory mm !! cell with
    | None => Fault
    | Some c =>
        Ok (cell,
            mm_set_memory mm
              (<[cell := mkCell (Basic_set_type (basic c) kTypeFloat) (AsFloat (Float.mk d))]>
                 (memory mm)))
    end.

(** ** operators.cpp *)

Module Operators.

(** [Operators::add]; the right operand is inspected only when the left
    one is numeric.  [fpu] is the unit that computes [nleft + nright]. *)
Definition add (fpu : FPU) (cfg : GCConfig) (vm : VM) (mm : MemoryManager)
    (left right : VALUE) : Result (VALUE * MemoryManager) :=
  tl ← VM_type (memory mm) left;
  both ← (if tl =? kTypeNumeric
          then tr ← VM_type (memory mm) right; Ok (tr =? kTypeNumeric)
          else Ok false);
  if both : bool then
    nleft ← numeric_value (memory mm) left;
    nright ← numeric_value (memory mm) right;
    create_float cfg vm mm (double_add fpu nleft nright)
  else create_float cfg vm mm NAN.

(** [Operators::truthyness] *)
Definition truthyness (m : Memory) (value : VALUE) : Result bool :=
  numeric ← is_numeric m value;
  if numeric : bool then
    d ← numeric_value m value;
    Ok (double_nonzero d)
  else if is_null value then Ok false
  else if is_false value then Ok false
  else Ok true.

End Operators.

(** ** Predicates of the specification *)

Definition is_marked (m : Memory) (a : VALUE) : bool :=
  match m !! a with
  | Some c => Basic_mark (basic c)
  | None => false
  end.

(** [m'] is [m] with the mark bit of some more cells set. *)
Definition mark_extends (m m' : Memory) : Prop :=
  forall a : VALUE,
    m' !! a = m !! a
    \/ exists c, m !! a = Some c /\ Basic_mark (basic c) = false
                 /\ m' !! a = Some (cell_set_mark c true).

(** The references [mark] follows out of the cell at [a]. *)
Definition edge (m : Memory) (a v : VALUE) : Prop :=
  exists c vs, m !! a = Some c /\ mark_children c = Ok vs /\ v ∈ vs /\ is_pointer v = true.

(** Reachable from [roots] along the references [mark] follows. *)
Inductive reachable (m : Memory) (roots : list VALUE) : VALUE -> Prop :=
| reachable_root v : v ∈ roots -> is_pointer v = true -> reachable m roots v
| reachable_step a v : reachable m roots a -> edge m a v -> reachable m roots v.

(** The roots [collect] hands to [mark]. *)
Definition gc_roots (vm : VM) (mm : MemoryManager) : list VALUE :=
  stack vm ++ temporaries mm ++ [frames vm; catchstack vm].

(** Every marked cell outside [grey] has its references marked. *)
Definition marks_closed (grey : gset Z) (m : Memory) : Prop :=
  forall a v, is_marked m a = true -> a ∉ grey -> edge m a v -> is_marked m v = true.

(** Every cell is read through the member of the union its type names, and
    every reference [mark] follows designates a cell. *)
Definition heap_closed (m : Memory) : Prop :=
  forall a c, m !! a = Some c ->
    exists vs, mark_children c = Ok vs
               /\ forall v, v ∈ vs -> is_pointer v = true -> is_Some (m !! v).

Definition roots_valid (m : Memory) (roots : list VALUE) : Prop :=
  forall v, v ∈ roots -> is_pointer v = true -> is_Some (m !! v).

(** The cells that do not carry the mark. *)
Definition unmarked (m : Memory) : Memory :=
  filter (fun p : Z * MemoryCell => Basic_mark (basic p.2) = false) m.

(** The free list: the chain of [free.next] links that starts at a cell. *)
Inductive free_list (m : Memory) : VALUE -> list VALUE -> Prop :=
| free_list_nil : free_list m 0 []
| free_list_cons p c next l :
    p <> 0 -> m !! p = Some c -> as_ c = AsFree next ->
    free_list m next l -> free_list m p (p :: l).

Definition on_free_list (mm : MemoryManager) (a : VALUE) : Prop :=
  exists l, free_list (memory mm) (free_cell mm) l /\ a ∈ l.

Definition cell_type (m : Memory) (a : VALUE) : option Z :=
  c ← m !! a; Some (Basic_type (basic c)).

(** What [collect] relies on when it starts: the heap is closed and every
    cell can be cleaned, flags are bytes, no mark is left from an earlier
    cycle, the roots designate cells, the memory is the cells of the heaps,
    and the free list is a chain of dead cells no root reaches. *)
Record gc_wf (cfg : GCConfig) (vm : VM) (mm : MemoryManager) : Prop := mk_gc_wf {
  wf_closed : heap_closed (memory mm);
  wf_clean : forall a c, memory mm !! a = Some c -> clean c = Ok tt;
  wf_flags : forall a c, memory mm !! a = Some c -> 0 <= flags (basic c) < 256;
  wf_unmarked : forall a, is_marked (memory mm) a = false;
  wf_roots : roots_valid (memory mm) (gc_roots vm mm);
  wf_cells : forall a, is_Some (memory mm !! a) <-> a ∈ all_cells cfg (heaps mm);
  wf_nodup : NoDup (all_cells cfg (heaps mm));
  wf_pointer : forall a, is_Some (memory mm !! a) -> is_pointer a = true;
  wf_free : exists l,
      free_list (memory mm) (free_cell mm) l
      /\ (forall a, a ∈ l -> cell_type (memory mm) a = Some kTypeDead)
      /\ (forall a, a ∈ l -> ~ reachable (memory mm) (gc_roots vm mm) a) }.

(** The log holds cells that were unmarked before and are marked after, each
    once. *)
Definition log_fresh (m m' : Memory) (log : list VALUE) : Prop :=
  NoDup log /\ forall a, a ∈ log -> is_marked m a = false /\ is_marked m' a = true.

(** Every mark that [m] has and [m0] has not is on a cell the roots reach. *)
Definition marked_reach (m0 : Memory) (roots : list VALUE) (m : Memory) : Prop :=
  forall a, is_marked m a = true -> is_marked m0 a = true \/ reachable m0 roots a.

(** What the sweep makes of a cell. *)
Definition swept_cell (c c' : MemoryCell) : Prop :=
  if Basic_mark (basic c) then c' = cell_set_mark c false
  else if negb (Basic_type (basic c) =? kTypeDead)
       then exists next, c' = mkCell (mkBasic 0) (AsFree next)
       else c' = c.

(** What a collection makes of a cell, [reach] saying whether a root reaches
    it. *)
Definition collected (reach : Prop) (c c' : MemoryCell) : Prop :=
  (reach /\ c' = c)
  \/ (~ reach
      /\ if Basic_type (basic c) =? kTypeDead then c' = c
         else exists next, c' = mkCell (mkBasic 0) (AsFree next)).

(** A value the operators can inspect: a pointer designates a cell, a cell
    tagged as a float holds a double, which is a pattern of 64 bits, and no
    header carries the pseudo type [kTypeNumeric]. *)
Definition value_valid (m : Memory) (v : VALUE) : Prop :=
  is_pointer v = true ->
  exists c, m !! v = Some c
            /\ Basic_type (basic c) <> kTypeNumeric
            /\ (Basic_type (basic c) = kTypeFloat ->
                exists f, as_ c = AsFloat f /\ 0 <= Float.float_value f < 2 ^ 64).

(** ** The operands and the results of the operators, in the words of the spec *)

(** A numeric operand and the double it stands for.  An immediate integer is
    a word of low bit 1 that carries a signed integer of 63 bits above it,
    and stands for the double that integer rounds to; an immediate float is
    a word of low bits 10 and stands for the double whose pattern is the word
    with the tag cleared; a boxed float is a pointer to a cell of type float
    and stands for the double in the cell. *)
Inductive numeric_operand (m : Memory) (v : VALUE) (d : Z) : Prop :=
| operand_integer i :
    - 2 ^ 62 <= i < 2 ^ 62 -> v = (2 * i + 1) mod 2 ^ 64 ->
    0 <= d < 2 ^ 64 -> double_to_SF d = binary_normalize 53 1024 i 0 false ->
    numeric_operand m v d
| operand_ifloat :
    0 <= v < 2 ^ 64 -> v mod 4 = 2 -> d = v - 2 -> numeric_operand m v d
| operand_boxed c :
    v mod 8 = 0 -> v <> kFalse -> v <> kNull ->
    m !! v = Some c -> Basic_type (basic c) = kTypeFloat ->
    as_ c = AsFloat (Float.mk d) -> numeric_operand m v d.

(** A float value and the double it holds: an immediate float or a boxed
    float, not an immediate integer. *)
Inductive float_result (m : Memory) (v : VALUE) (d : Z) : Prop :=
| result_ifloat :
    0 <= v < 2 ^ 64 -> v mod 4 = 2 -> d = v - 2 -> float_result m v d
| result_boxed c :
    v mod 8 = 0 -> v <> kFalse -> v <> kNull ->
    m !! v = Some c -> Basic_type (basic c) = kTypeFloat ->
    as_ c = AsFloat (Float.mk d) -> float_result m v d.

(** A numeric value equal to zero: the integer 0, the immediate floats 0.0
    and -0.0, a boxed float that holds 0.0 or -0.0. *)
Definition numeric_zero (m : Memory) (v : VALUE) : Prop :=
  v = 1
  \/ v = 2 \/ v = 2 ^ 63 + 2
  \/ (v mod 8 = 0 /\ v <> kFalse /\ v <> kNull
      /\ exists c, m !! v = Some c /\ Basic_type (basic c) = kTypeFloat
                   /\ (as_ c = AsFloat (Float.mk 0) \/ as_ c = AsFloat (Float.mk (2 ^ 63)))).

(** ** Deciding the predicates on a given memory *)

Definition heap_closedb (m : Memory) : bool :=
  forallb (fun p : Z * MemoryCell =>
             match mark_children p.2 with
             | Ok vs => forallb (fun v => negb (is_pointer v) || bool_decide (is_Some (m !! v))) vs
             | _ => false
             end)
          (map_to_list m).

Definition roots_validb (m : Memory) (roots : list VALUE) : bool :=
  forallb (fun v => negb (is_pointer v) || bool_decide (is_Some (m !! v))) roots.

(** The chain of [free.next] links that starts at [p], followed for at most
    [fuel] cells. *)
Fixpoint free_chain (m : Memory) (fuel : nat) (p : VALUE) : option (list VALUE) :=
  if p =? 0 then Some []
  else
    match fuel with
    | O => None
    | S fuel' =>
        match m !! p with
        | Some c =>
            match as_ c with
            | AsFree next => l ← free_chain m fuel' next; Some (p :: l)
            | _ => None
            end
        | None => None
        end
    end.

Fixpoint nodupb (l : list VALUE) : bool :=
  match l with
  | [] => true
  | x :: l' => negb (existsb (Z.eqb x) l') && nodupb l'
  end.

Definition gc_wfb (cfg : GCConfig) (vm : VM) (mm : MemoryManager) : bool :=
  let m := memory mm in
  let cells := all_cells cfg (heaps mm) in
  heap_closedb m
  && forallb (fun p : Z * MemoryCell => match clean p.2 with Ok _ => true | _ => false end)
       (map_to_list m)
  && forallb (fun p : Z * MemoryCell =>
                (0 <=? flags (basic p.2)) && (flags (basic p.2) <? 256)) (map_to_list m)
  && forallb (fun p : Z * MemoryCell => negb (Basic_mark (basic p.2))) (map_to_list m)
  && roots_validb m (gc_roots vm mm)
  && forallb (fun a => bool_decide (is_Some (m !! a))) cells
  && forallb (fun p : Z * MemoryCell => existsb (Z.eqb p.1) cells) (map_to_list m)
  && nodupb cells
  && forallb (fun p : Z * MemoryCell => is_pointer p.1) (map_to_list m)
  && match free_chain m (size m) (free_cell mm), mark_phase (mark_budget m) vm mm with
     | Some l, Ok (m4, _) =>
         forallb (fun a => match cell_type m a with
                           | Some ty => ty =? kTypeDead
                           | None => false
                           end) l
         && forallb (fun a => is_pointer a && negb (is_marked m4 a)) l
     | _, _ => false
     end.

(** ** Sample heaps *)

Definition sample_frame (parent env table function self : VALUE) (locals : list VALUE)
    : MemoryCell :=
  mkCell (mkBasic kTypeFrame)
         (AsFrame (Frame.mk parent env table function locals self 0 false)).

Definition sample_function (context block : VALUE) (bound : option VALUE)
    (container : list (VALUE * VALUE)) : MemoryCell :=
  mkCell (mkBasic kTypeFunction)
         (AsFunction (Function.mk 0 0 0 context block 0 false
                        (match bound with Some _ => true | None => false end) (default kNull bound) container)).

Definition sample_catchtable (frame parent : VALUE) : MemoryCell :=
  mkCell (mkBasic kTypeCatchTable) (AsCatchTable (CatchTable.mk 0 0 frame parent)).

Definition sample_object (klass : VALUE) (container : list (VALUE * VALUE)) : MemoryCell :=
  mkCell (mkBasic kTypeObject) (AsObject (Object.mk klass container)).

(** A cycle: the frame at 4096 runs the function at 4160, whose context is
    that frame; local 0 of the frame holds the function again. *)
Definition cyclic_heap : Memory :=
  <[4096 := sample_frame 0 0 0 4160 kNull [4160; VALUE_ENCODE_INTEGER 7]]>
    (<[4160 := sample_function 4096 0 None []]> ∅).

(** A frame at 4096 whose [last_active_catchtable] is the table at 4224, and
    a function at 4160 whose container holds the object at 4288. *)
Definition untraced_heap : Memory :=
  <[4096 := sample_frame 0 0 4224 4160 kNull []]>
    (<[4160 := sample_function 4096 0 None [(12, 4288)]]>
       (<[4224 := sample_catchtable 4096 0]>
          (<[4288 := sample_object kNull []]> ∅))).

Definition sample_class : MemoryCell :=
  mkCell (mkBasic kTypeClass) (AsClass (Class.mk 0 kNull [] kNull kNull [])).

(** One heap of eight cells of 64 bytes. *)
Definition small_config : GCConfig := mkGCConfig 1 8 2 64.

(** A manager built by the constructor at address 4096, after seven
    allocations: the frame at 4544 and its function at 4480, the function at
    4416, the object at 4352, the class at 4288, the object at 4224, which is
    registered as a temporary, and the catch table at 4160.  The cell at 4096
    is the last one on the free list. *)
Definition scheduler_mm : MemoryManager :=
  let mm := MemoryManager_new small_config 4096 in
  mkMM 4096 (heaps mm) [4224]
       (<[4544 := sample_frame 0 0 0 4480 kNull [VALUE_ENCODE_INTEGER 1]]>
          (<[4480 := sample_function 0 0 None []]>
             (<[4416 := sample_function 0 0 None []]>
                (<[4352 := sample_object kNull []]>
                   (<[4288 := sample_class]>
                      (<[4224 := sample_object kNull []]>
                         (<[4160 := sample_catchtable 4544 0]> (memory mm))))))))
       (brk mm) [].

(** A machine that runs the frame at 4544 under the catch table at 4160, with
    an integer and the function at 4480 on its operand stack; the function at
    4416 and the object at 4352 are held by a queued task and by a pending
    timer only, the class at 4288 by [primitive_object] only. *)
Definition scheduler_vm : VM :=
  mkVM kNull 4288 kNull kNull kNull kNull kNull kNull kNull kNull
       [mkVMTask 0 4416 kNull] [(1000, mkVMTask 1 4416 4352)] []
       [VALUE_ENCODE_INTEGER 42; 4480] 4544 4160.

(** A machine with nothing on its stacks and queues. *)
Definition empty_vm : VM :=
  mkVM kNull kNull kNull kNull kNull kNull kNull kNull kNull kNull [] [] [] [] 0 0.

(** One heap of one cell, and a growth factor under which [grow_heap] adds
    nothing. *)
Definition fixed_config : GCConfig := mkGCConfig 1 1 1 64.

(** ** value.h: rotations *)

(** [BIT_ROTL]: [(v << n) | (v >> (sizeof(v) * 8 - n))] on 64 bits.  A shift
    by 64 or more is undefined in the source: the rotations are meant for
    [0 < n < 64]. *)
Definition BIT_ROTL (v n : Z) : Z :=
  Z.lor (wrap64 (Z.shiftl v n)) (Z.shiftr v (wrap64 (64 - n))).

(** [BIT_ROTR]: [(v >> n) | (v << (sizeof(v) * 8 - n))] on 64 bits. *)
Definition BIT_ROTR (v n : Z) : Z :=
  Z.lor (Z.shiftr v n) (wrap64 (Z.shiftl v (wrap64 (64 - n)))).

(** ** disassembler.h: branches *)

Module Branch.
(** [start_offset] and [end_offset] are [uint32_t]; the methods only compare
    them. *)
Record t := mk {
  start_offset : Z;
  end_offset : Z;
  has_allocated_branchline : bool;
  branchline : Z }.

Definition new (s e : Z) : t := mk s e false 0.

Definition is_backwards_jump (b : t) : bool := end_offset b <=? start_offset b.

Definition in_range (b : t) (addr : Z) : bool :=
  if is_backwards_jump b
  then (end_offset b <=? addr) && (addr <=? start_offset b)
  else (start_offset b <=? addr) && (addr <=? end_offset b).

Definition overlaps_with_branch (b other : t) : bool :=
  in_range b (start_offset other) || in_range b (end_offset other).

Definition is_start (b : t) (addr : Z) : bool := addr =? start_offset b.

Definition is_end (b : t) (addr : Z) : bool := addr =? end_offset b.

Definition lower_address (b : t) : Z :=
  if is_backwards_jump b then end_offset b else start_offset b.

Definition upper_address (b : t) : Z :=
  if is_backwards_jump b then start_offset b else end_offset b.
End Branch.

(** ** vm.h: the instruction profile *)

Record VMInstructionProfileEntry := mkProfileEntry {
  encountered : Z;
  average_length : Z }.

(** The [entries] array, one entry per opcode, value-initialised. *)
Definition VMInstructionProfile_new (kOpcodeCount : nat) : list VMInstructionProfileEntry :=
  replicate kOpcodeCount (mkProfileEntry 0 0).

(** [add_entry]: the arithmetic is on [uint64_t]; an opcode outside the array
    and a division by zero are faults. *)
Definition add_entry (entries : list VMInstructionProfileEntry) (opcode : nat) (len : Z)
  : Result (list VMInstructionProfileEntry) :=
  match entries !! opcode with
  | None => Fault
  | Some entry =>
      let divisor := wrap64 (encountered entry + 1) in
      if divisor =? 0 then Fault
      else
        let average :=
          wrap64 (wrap64 (average_length entry * encountered entry) + len) / divisor in
        Ok (<[opcode := mkProfileEntry (wrap64 (encountered entry + 1)) average]> entries)
  end.

(** A run of [add_entry] calls, one per executed instruction. *)
Definition add_entries (entries : list VMInstructionProfileEntry) (trace : list (nat * Z))
  : Result (list VMInstructionProfileEntry) :=
  foldM (fun es p => add_entry es (fst p) (snd p)) trace entries.

(** The lengths recorded for one opcode, in order. *)
Definition lengths_of (opcode : nat) (trace : list (nat * Z)) : list Z :=
  List.map snd (List.filter (fun p => Nat.eqb (fst p) opcode) trace).

Definition sum_list (l : list Z) : Z := fold_right Z.add 0 l.

(** What a profile records of the trace it was fed. *)
Definition profile_inv (lo hi : Z) (entries : list VMInstructionProfileEntry)
    (trace : list (nat * Z)) : Prop :=
  forall op e, entries !! op = Some e ->
    encountered e = Z.of_nat (length (lengths_of op trace))
    /\ 0 <= average_length e
    /\ average_length e * encountered e <= sum_list (lengths_of op trace)
    /\ (0 < encountered e -> lo <= average_length e <= hi).

(** ** gc.cpp: what [free] and the destructor leave *)

(** The temporaries after [free]: a cell registered exactly once is
    unregistered. *)
Definition free_temporaries (mm : MemoryManager) (cell : VALUE) : list VALUE :=
  if Z.of_nat (count_occ Z.eq_dec (temporaries mm) cell) =? 1
  then erase_one cell (temporaries mm) else temporaries mm.

(** The destructor: [free] on every cell of every heap. *)
Definition MemoryManager_delete (cfg : GCConfig) (mm : MemoryManager) : Result MemoryManager :=
  foldM free (all_cells cfg (heaps mm)) mm.

(** ** gc.cpp: the layout of the heaps *)

(** What [calloc] and the size of a cell give: cells are a positive multiple
    of 8 bytes long, blocks are aligned to 8 bytes and lie above address 8,
    and every cell in use lies below the next block. *)
Definition heap_layout (cfg : GCConfig) (mm : MemoryManager) : Prop :=
  0 < sizeof_MemoryCell cfg /\ sizeof_MemoryCell cfg mod 8 = 0
  /\ 8 < brk mm /\ brk mm mod 8 = 0
  /\ forall a, is_Some (memory mm !! a) -> a < brk mm.

(** The state between two calls of the manager. *)
Definition heap_inv (cfg : GCConfig) (vm : VM) (mm : MemoryManager) : Prop :=
  gc_wf cfg vm mm /\ heap_layout cfg mm.

Definition heap_layoutb (cfg : GCConfig) (mm : MemoryManager) : bool :=
  (0 <? sizeof_MemoryCell cfg) && (sizeof_MemoryCell cfg mod 8 =? 0)
  && (8 <? brk mm) && (brk mm mod 8 =? 0)
  && forallb (fun p : Z * MemoryCell => p.1 <? brk mm) (map_to_list (memory mm)).

(** ** The references between cells *)

(** The references out of a cell that [mark] passes on, each under the name
    value.h gives it: the class and the container values of an object, the
    elements of an array, the context frame, the block and the bound self of
    a function, the bound self of a C function, the caller, the lexical
    parent, the function, the self value and the local slots of a frame, the
    frame and the parent of a catch table, the children of an instruction
    block. *)
Inductive refers (c : MemoryCell) (v : VALUE) : Prop :=
| refers_object_klass obj :
    Basic_type (basic c) = kTypeObject -> as_ c = AsObject obj ->
    v = Object.klass obj -> refers c v
| refers_object_container obj :
    Basic_type (basic c) = kTypeObject -> as_ c = AsObject obj ->
    v ∈ map snd (Object.container obj) -> refers c v
| refers_array_data arr :
    Basic_type (basic c) = kTypeArray -> as_ c = AsArray arr ->
    v ∈ Array.data arr -> refers c v
| refers_function_context func :
    Basic_type (basic c) = kTypeFunction -> as_ c = AsFunction func ->
    v = Function.context func -> refers c v
| refers_function_block func :
    Basic_type (basic c) = kTypeFunction -> as_ c = AsFunction func ->
    v = Function.block func -> refers c v
| refers_function_bound_self func :
    Basic_type (basic c) = kTypeFunction -> as_ c = AsFunction func ->
    Function.bound_self_set func = true -> v = Function.bound_self func -> refers c v
| refers_cfunction_bound_self cfunc :
    Basic_type (basic c) = kTypeCFunction -> as_ c = AsCFunction cfunc ->
    CFunction.bound_self_set cfunc = true -> v = CFunction.bound_self cfunc -> refers c v
| refers_frame_parent frame :
    Basic_type (basic c) = kTypeFrame -> as_ c = AsFrame frame ->
    v = Frame.parent frame -> refers c v
| refers_frame_parent_environment_frame frame :
    Basic_type (basic c) = kTypeFrame -> as_ c = AsFrame frame ->
    v = Frame.parent_environment_frame frame -> refers c v
| refers_frame_function frame :
    Basic_type (basic c) = kTypeFrame -> as_ c = AsFrame frame ->
    v = Frame.function frame -> refers c v
| refers_frame_self frame :
    Basic_type (basic c) = kTypeFrame -> as_ c = AsFrame frame ->
    v = Frame.self frame -> refers c v
| refers_frame_environment frame :
    Basic_type (basic c) = kTypeFrame -> as_ c = AsFrame frame ->
    v ∈ Frame.environment frame -> refers c v
| refers_catchtable_frame table :
    Basic_type (basic c) = kTypeCatchTable -> as_ c = AsCatchTable table ->
    v = CatchTable.frame table -> refers c v
| refers_catchtable_parent table :
    Basic_type (basic c) = kTypeCatchTable -> as_ c = AsCatchTable table ->
    v = CatchTable.parent table -> refers c v
| refers_block_child blk :
    Basic_type (basic c) = kTypeInstructionBlock -> as_ c = AsInstructionBlock blk ->
    v ∈ InstructionBlock.child_blocks blk -> refers c v.

(** Reachable from [roots] by a chain of such references. *)
Inductive traced (m : Memory) (roots : list VALUE) : VALUE -> Prop :=
| traced_root v : v ∈ roots -> is_pointer v = true -> traced m roots v
| traced_step a c v :
    traced m roots a -> m !! a = Some c -> refers c v -> is_pointer v = true ->
    traced m roots v.

(** ** A heap with references [mark] does not follow *)

(** A manager built by the constructor at address 4096, after six
    allocations: the frame at 4544 runs the function at 4480, whose
    container holds the object at 4352 under the key 12; local 0 of the
    frame is the object at 4416, whose class is the class at 4288, whose
    prototype is the object at 4224.  The cells at 4160 and 4096 are free. *)
Definition dangling_mm : MemoryManager :=
  let mm := MemoryManager_new small_config 4096 in
  mkMM 4160 (heaps mm) []
       (<[4544 := sample_frame 0 0 0 4480 kNull [4416]]>
          (<[4480 := sample_function 0 0 None [(12, 4352)]]>
             (<[4416 := sample_object 4288 []]>
                (<[4352 := sample_object kNull []]>
                   (<[4288 := mkCell (mkBasic kTypeClass)
                                (AsClass (Class.mk 0 kNull [] 4224 kNull []))]>
                      (<[4224 := sample_object kNull []]> (memory mm)))))))
       (brk mm) [].

(** A machine that runs the frame at 4544, with the function at 4480 on its
    operand stack. *)
Definition dangling_vm : VM :=
  mkVM kNull kNull kNull kNull kNull kNull kNull kNull kNull kNull [] [] []
       [4480] 4544 0.

(** The state [dangling_mm] with the mark bit of the frame at 4544 left set. *)
Definition stale_mark_mm : MemoryManager :=
  mm_set_memory dangling_mm
    (<[4544 := cell_set_mark (sample_frame 0 0 0 4480 kNull [4416]) true]>
       (memory dangling_mm)).

(** ** Theorems on the value representation *)

Lemma land_mask_1 v : Z.land v 1 = v mod 2.
Proof. change 1 with (Z.ones 1). now rewrite Z.land_ones. Qed.
Lemma land_mask_3 v : Z.land v 3 = v mod 4.
Proof. change 3 with (Z.ones 2). now rewrite Z.land_ones. Qed.
Lemma land_mask_7 v : Z.land v 7 = v mod 8.
Proof. change 7 with (Z.ones 3). now rewrite Z.land_ones. Qed.
Lemma land_mask_15 v : Z.land v 15 = v mod 16.
Proof. change 15 with (Z.ones 4). now rewrite Z.land_ones. Qed.

Lemma lor_even_1 a : Z.lor (2 * a) 1 = 2 * a + 1.
Proof.
  symmetry. apply Z.add_nocarry_lor.
  rewrite land_mask_1. rewrite Z.mul_comm. apply Z.mod_mul. lia.
Qed.

Lemma encode_integer_odd i : VALUE_ENCODE_INTEGER i = 2 * (wrap64 i mod 2 ^ 63) + 1.
Proof.
  unfold VALUE_ENCODE_INTEGER, kIntegerFlag, wrap64.
  rewrite Z.shiftl_mul_pow2 by lia.
  replace (i mod 2 ^ 64 * 2 ^ 1) with (2 * (i mod 2 ^ 64)) by lia.
  change (2 ^ 64) with (2 * 2 ^ 63) at 2.
  rewrite Z.mul_mod_distr_l by lia.
  apply lor_even_1.
Qed.

(** C2: decoding the encoding of an integer of [-2^62, 2^62) gives it back. *)
Theorem decode_encode_integer (i : Z) :
  - 2 ^ 62 <= i < 2 ^ 62 ->
  VALUE_DECODE_INTEGER (VALUE_ENCODE_INTEGER i) = i.
Proof.
  intros Hi. rewrite encode_integer_odd.
  unfold VALUE_DECODE_INTEGER, to_int64, wrap64.
  rewrite Z.shiftr_div_pow2 by lia. change (2 ^ 1) with 2.
  assert (Hm : i mod 2 ^ 64 mod 2 ^ 63 = if i <? 0 then i + 2 ^ 63 else i).
  { destruct (Z.ltb_spec i 0).
    - replace (i mod 2 ^ 64) with (i + 2 ^ 64).
      + symmetry. apply (Z.mod_unique _ _ 1); lia.
      + apply (Z.mod_unique _ _ (-1)); lia.
    - rewrite (Z.mod_small i) by lia. apply Z.mod_small. lia. }
  rewrite Hm.
  destruct (Z.ltb_spec i 0);
    match goal with |- context [?a <? ?b] => destruct (Z.ltb_spec a b) end; try lia.
  - replace (2 * (i + 2 ^ 63) + 1 - 2 ^ 64) with (1 + i * 2) by lia.
    rewrite Z.div_add by lia. reflexivity.
  - replace (2 * i + 1) with (1 + i * 2) by lia.
    rewrite Z.div_add by lia. reflexivity.
Qed.

Lemma decode_encode_integer_witness :
  - 2 ^ 62 <= -7 < 2 ^ 62 /\ VALUE_DECODE_INTEGER (VALUE_ENCODE_INTEGER (-7)) = -7.
Proof. split; [lia | apply (decode_encode_integer (-7)); lia]. Defined.

Ltac kinds_to_mod :=
  unfold kind_count, is_integer, is_ifloat, is_symbol, is_boolean, is_null,
    is_pointer, is_false, is_null,
    kIntegerMask, kIntegerFlag, kFloatMask, kFloatFlag, kSymbolMask, kSymbolFlag,
    kPointerMask, kPointerFlag, kFalse, kTrue, kNull;
  rewrite ?land_mask_1, ?land_mask_3, ?land_mask_7, ?land_mask_15.

Lemma kind_count_le_1 (v : VALUE) : (kind_count v <= 1)%nat.
Proof.
  kinds_to_mod.
  destruct (Z.eqb_spec (v mod 2) 1), (Z.eqb_spec (v mod 4) 2),
    (Z.eqb_spec (v mod 16) 12), (Z.eqb_spec v 0), (Z.eqb_spec v 20),
    (Z.eqb_spec v 8), (Z.eqb_spec (v mod 8) 0); simpl; try lia;
    exfalso; Z.div_mod_to_equations; lia.
Qed.

(** C9: the low-bit tags are exclusive: a word satisfies at most one of the
    six kind predicates, an aligned address other than the encodings of
    [false] and [null] is a pointer, and an encoded integer is an integer and
    nothing else. *)
Theorem tagging_exclusive :
  (forall v : VALUE, (kind_count v <= 1)%nat)
  /\ (forall a : VALUE, a mod 8 = 0 -> a <> kFalse -> a <> kNull -> is_pointer a = true)
  /\ (forall i : Z,
        is_integer (VALUE_ENCODE_INTEGER i) = true
        /\ is_ifloat (VALUE_ENCODE_INTEGER i) = false
        /\ is_symbol (VALUE_ENCODE_INTEGER i) = false
        /\ is_boolean (VALUE_ENCODE_INTEGER i) = false
        /\ is_null (VALUE_ENCODE_INTEGER i) = false
        /\ is_pointer (VALUE_ENCODE_INTEGER i) = false).
Proof.
  split; [exact kind_count_le_1 |]. split.
  - intros a Ha H0 H8. kinds_to_mod. unfold kFalse, kNull in *.
    rewrite Ha. destruct (Z.eqb_spec a 8), (Z.eqb_spec a 0); simpl; congruence.
  - intros i.
    assert (Hint : is_integer (VALUE_ENCODE_INTEGER i) = true).
    { rewrite encode_integer_odd. kinds_to_mod.
      apply Z.eqb_eq. rewrite Z.add_comm, Z.mul_comm. rewrite Z.mod_add by lia.
      reflexivity. }
    pose proof (kind_count_le_1 (VALUE_ENCODE_INTEGER i)) as Hc.
    unfold kind_count in Hc. rewrite Hint in Hc. simpl in Hc.
    split; [exact Hint |].
    destruct (is_ifloat _), (is_symbol _), (is_boolean _), (is_null _), (is_pointer _);
      simpl in Hc; repeat split; try reflexivity; lia.
Qed.

(** ** The flag byte *)

Lemma testbit_pow2_5 n : 0 <= n -> Z.testbit 32 n = (n =? 5).
Proof.
  intros Hn. change 32 with (2 ^ 5). rewrite Z.pow2_bits_eqb by lia.
  apply Z.eqb_sym.
Qed.

Lemma Basic_mark_testbit b : Basic_mark b = Z.testbit (flags b) 5.
Proof.
  unfold Basic_mark, kFlagMark.
  destruct (Z.testbit (flags b) 5) eqn:Hb.
  - apply negb_true_iff, Z.eqb_neq. intros H0.
    assert (Ht : Z.testbit (Z.land (flags b) 32) 5 = true).
    { rewrite Z.land_spec, Hb. reflexivity. }
    rewrite H0 in Ht. discriminate.
  - apply negb_false_iff, Z.eqb_eq. apply Z.bits_inj'. intros n Hn.
    rewrite Z.land_spec, Z.bits_0, testbit_pow2_5 by lia.
    destruct (Z.eqb_spec n 5); subst; rewrite ?Hb, ?andb_false_r; reflexivity.
Qed.

Lemma set_mark_testbit b val n :
  0 <= n ->
  Z.testbit (flags (Basic_set_mark b val)) n =
  if n =? 5 then val else (n <? 8) && Z.testbit (flags b) n.
Proof.
  intros Hn. unfold Basic_set_mark, wrap8, kFlagMark. simpl.
  destruct (Z.ltb_spec n 8).
  - rewrite Z.mod_pow2_bits_low by lia.
    rewrite Z.lxor_spec, Z.land_spec, Z.lxor_spec, testbit_pow2_5 by lia.
    destruct (Z.eqb_spec n 5).
    + subst. rewrite andb_true_r. destruct val.
      * change (- Z.b2z true) with (-1). rewrite Z.bits_m1 by lia.
        destruct (Z.testbit (flags b) 5); reflexivity.
      * change (- Z.b2z false) with 0. rewrite Z.bits_0.
        destruct (Z.testbit (flags b) 5); reflexivity.
    + rewrite andb_false_r, xorb_false_r. reflexivity.
  - rewrite Z.mod_pow2_bits_high by lia.
    destruct (Z.eqb_spec n 5); [lia | reflexivity].
Qed.

Lemma Basic_mark_set_mark b val : Basic_mark (Basic_set_mark b val) = val.
Proof. rewrite Basic_mark_testbit, set_mark_testbit by lia. reflexivity. Qed.

Lemma Basic_type_set_mark b val : Basic_type (Basic_set_mark b val) = Basic_type b.
Proof.
  unfold Basic_type, kFlagType. apply Z.bits_inj'. intros n Hn.
  rewrite !Z.land_spec, set_mark_testbit by lia.
  change 31 with (Z.ones 5).
  destruct (Z.ltb_spec n 5).
  - destruct (Z.eqb_spec n 5); [lia |].
    destruct (Z.ltb_spec n 8); [reflexivity | lia].
  - rewrite Z.ones_spec_high by lia. rewrite !andb_false_r. reflexivity.
Qed.

Lemma Basic_type_set_type b ty :
  0 <= ty < 32 -> Basic_type (Basic_set_type b ty) = ty.
Proof.
  intros Hty. unfold Basic_type, Basic_set_type, wrap8, kFlagType. simpl.
  apply Z.bits_inj'. intros n Hn.
  rewrite Z.land_spec. change 31 with (Z.ones 5).
  destruct (Z.ltb_spec n 5).
  - rewrite Z.ones_spec_low, andb_true_r by lia.
    rewrite Z.mod_pow2_bits_low by lia.
    rewrite Z.lor_spec, !Z.land_spec, Z.lnot_spec by lia.
    rewrite Z.ones_spec_low by lia. simpl. rewrite andb_false_r. reflexivity.
  - rewrite Z.ones_spec_high, andb_false_r by lia.
    symmetry. apply Z.bits_above_log2; [lia |].
    destruct (Z.eq_dec ty 0) as [->|]; [simpl; lia |].
    apply Z.lt_le_trans with 5; [| lia].
    apply Z.log2_lt_pow2; lia.
Qed.

Lemma cell_set_mark_mark c val : Basic_mark (basic (cell_set_mark c val)) = val.
Proof. apply Basic_mark_set_mark. Qed.

Lemma mark_children_set_mark c val :
  mark_children (cell_set_mark c val) = mark_children c.
Proof.
  unfold mark_children. simpl. rewrite Basic_type_set_mark. reflexivity.
Qed.

Lemma cell_set_mark_false_id c :
  Basic_mark (basic c) = false -> 0 <= flags (basic c) < 256 ->
  cell_set_mark (cell_set_mark c true) false = c.
Proof.
  intros Hm Hr. destruct c as [[f] u]. unfold cell_set_mark. simpl in *. f_equal.
  assert (Hfl : forall b b' : Basic, flags b = flags b' -> b = b').
  { intros [x] [y]; simpl; congruence. }
  apply Hfl. apply Z.bits_inj'. intros n Hn.
  change (flags (mkBasic f)) with f.
  rewrite !set_mark_testbit by lia.
  rewrite Basic_mark_testbit in Hm.
  destruct (Z.eqb_spec n 5); [subst; symmetry; exact Hm |].
  destruct (Z.ltb_spec n 8); simpl; [reflexivity |].
  symmetry. destruct (Z.eq_dec f 0) as [->|]; [apply Z.bits_0 |].
  apply Z.bits_above_log2; [lia |].
  apply Z.lt_le_trans with 8; [| lia]. apply Z.log2_lt_pow2; lia.
Qed.

(** ** The error monad *)

Lemma bind_Ok {A B : Type} (r : Result A) (f : A -> Result B) (b : B) :
  r ≫= f = Ok b -> exists a, r = Ok a /\ f a = Ok b.
Proof. destruct r; simpl; intros H; try discriminate. eauto. Qed.

Ltac bind_inv H :=
  let a := fresh "r" in
  let Ha := fresh "Hr" in
  apply bind_Ok in H; destruct H as (a & Ha & H).

(** ** [mark]: what a call returns *)

Lemma mark_Ok_inv fuel v m m' log :
  mark fuel v m = Ok (m', log) ->
  (m' = m /\ log = [] /\ (is_pointer v = false \/ is_marked m v = true))
  \/ (exists fuel' c vs log',
        fuel = S fuel' /\ is_pointer v = true /\ m !! v = Some c
        /\ Basic_mark (basic c) = false /\ mark_children c = Ok vs
        /\ mark_each (mark fuel') vs (<[v := cell_set_mark c true]> m) = Ok (m', log')
        /\ log = v :: log').
Proof.
  destruct fuel as [|fuel']; simpl; [discriminate |].
  destruct (is_pointer v) eqn:Hp; simpl.
  - destruct (m !! v) as [c|] eqn:Hc; [| discriminate].
    destruct (Basic_mark (basic c)) eqn:Hm.
    + intros [= <- <-]. left. repeat split; auto. right. unfold is_marked. now rewrite Hc.
    + rewrite mark_children_set_mark. intros H. bind_inv H.
      bind_inv H. destruct r0 as [m2 log2]. injection H as <- <-.
      right. exists fuel', c, r, log2. repeat split; auto.
  - intros [= <- <-]. left. auto.
Qed.

Lemma mark_each_cons_inv rec v vs m m' log :
  mark_each rec (v :: vs) m = Ok (m', log) ->
  exists m1 log1 log2,
    rec v m = Ok (m1, log1) /\ mark_each rec vs m1 = Ok (m', log2) /\ log = log1 ++ log2.
Proof.
  simpl. intros H. bind_inv H. destruct r as [m1 log1].
  bind_inv H. destruct r as [m2 log2]. injection H as <- <-.
  exists m1, log1, log2. auto.
Qed.

Lemma mark_extends_refl m : mark_extends m m.
Proof. intros a. now left. Qed.

Lemma mark_extends_trans m1 m2 m3 :
  mark_extends m1 m2 -> mark_extends m2 m3 -> mark_extends m1 m3.
Proof.
  intros H12 H23 a. destruct (H12 a) as [E12|(c & Hc & Hm & E12)];
    destruct (H23 a) as [E23|(c' & Hc' & Hm' & E23)].
  - left. congruence.
  - right. exists c'. rewrite <- E12. auto.
  - right. exists c. rewrite E23. auto.
  - rewrite E12 in Hc'. injection Hc' as <-.
    rewrite cell_set_mark_mark in Hm'. discriminate.
Qed.

Lemma mark_extends_insert m v c :
  m !! v = Some c -> Basic_mark (basic c) = false ->
  mark_extends m (<[v := cell_set_mark c true]> m).
Proof.
  intros Hc Hm a. destruct (decide (v = a)) as [->|Hne].
  - right. exists c. rewrite lookup_insert_eq. auto.
  - left. now rewrite lookup_insert_ne.
Qed.

Lemma mark_each_rel (R : Memory -> Memory -> Prop) rec :
  (forall m, R m m) -> (forall a b c, R a b -> R b c -> R a c) ->
  forall vs,
  (forall v m m' log, v ∈ vs -> rec v m = Ok (m', log) -> R m m') ->
  forall m m' log, mark_each rec vs m = Ok (m', log) -> R m m'.
Proof.
  intros Hrefl Htrans vs. induction vs as [|v vs IH]; intros Hrec m m' log H.
  - injection H as <- <-. apply Hrefl.
  - apply mark_each_cons_inv in H as (m1 & l1 & l2 & H1 & H2 & _).
    eapply Htrans.
    + eapply Hrec; [apply list_elem_of_here | exact H1].
    + eapply IH; [| exact H2]. intros. eapply Hrec; [apply list_elem_of_further|]; eauto.
Qed.

Lemma mark_mark_extends fuel : forall v m m' log,
  mark fuel v m = Ok (m', log) -> mark_extends m m'.
Proof.
  induction fuel as [|fuel IH]; intros v m m' log H; [discriminate |].
  apply mark_Ok_inv in H as [(-> & _)|(f' & c & vs & log' & [= <-] & Hp & Hc & Hm & Hch & He & _)].
  - apply mark_extends_refl.
  - eapply mark_extends_trans; [eapply mark_extends_insert; eauto |].
    eapply (mark_each_rel mark_extends); [apply mark_extends_refl | apply mark_extends_trans | | exact He].
    intros. eapply IH; eauto.
Qed.

Lemma mark_each_mark_extends fuel vs m m' log :
  mark_each (mark fuel) vs m = Ok (m', log) -> mark_extends m m'.
Proof.
  apply (mark_each_rel mark_extends); [apply mark_extends_refl | apply mark_extends_trans |].
  intros. eapply mark_mark_extends; eauto.
Qed.

Lemma mark_extends_marked m m' a :
  mark_extends m m' -> is_marked m a = true -> is_marked m' a = true.
Proof.
  intros H Hm. unfold is_marked in *. destruct (H a) as [->|(c & Hc & Hf & ->)]; [exact Hm |].
  apply cell_set_mark_mark.
Qed.

Lemma mark_extends_children m m' a c :
  mark_extends m m' -> m' !! a = Some c ->
  exists c0, m !! a = Some c0 /\ mark_children c0 = mark_children c.
Proof.
  intros H Hc. destruct (H a) as [E|(c0 & Hc0 & _ & E)].
  - exists c. split; congruence.
  - exists c0. split; [exact Hc0 |]. rewrite Hc in E. injection E as ->.
    now rewrite mark_children_set_mark.
Qed.

Lemma mark_extends_children' m m' a c :
  mark_extends m m' -> m !! a = Some c ->
  exists c', m' !! a = Some c' /\ mark_children c' = mark_children c.
Proof.
  intros H Hc. destruct (H a) as [E|(c0 & Hc0 & _ & E)].
  - exists c. split; congruence.
  - exists (cell_set_mark c0 true). split; [exact E |].
    rewrite mark_children_set_mark. congruence.
Qed.

Lemma mark_extends_edge m m' a v : mark_extends m m' -> edge m a v <-> edge m' a v.
Proof.
  intros H. split; intros (c & vs & Hc & Hch & Hin & Hp).
  - destruct (mark_extends_children' _ _ _ _ H Hc) as (c' & Hc' & E).
    exists c', vs. rewrite E. auto.
  - destruct (mark_extends_children _ _ _ _ H Hc) as (c0 & Hc0 & E).
    exists c0, vs. rewrite E. auto.
Qed.

Lemma mark_extends_dom m m' a : mark_extends m m' -> is_Some (m !! a) <-> is_Some (m' !! a).
Proof.
  intros H. destruct (H a) as [->|(c & -> & _ & ->)]; [tauto |].
  split; intros _; eauto.
Qed.

(** A call on a pointer leaves the cell marked. *)
Lemma mark_marks fuel v m m' log :
  mark fuel v m = Ok (m', log) -> is_pointer v = true -> is_marked m' v = true.
Proof.
  intros H Hp.
  pose proof (mark_mark_extends _ _ _ _ _ H) as Hext.
  apply mark_Ok_inv in H as [(-> & _ & [Hn|Hm])|(f' & c & vs & log' & -> & _ & Hc & Hm & Hch & He & _)].
  - congruence.
  - exact Hm.
  - apply mark_each_mark_extends in He.
    eapply mark_extends_marked; [exact He |].
    unfold is_marked. rewrite lookup_insert_eq. apply cell_set_mark_mark.
Qed.

Lemma mark_each_marks fuel vs m m' log :
  mark_each (mark fuel) vs m = Ok (m', log) ->
  forall v, v ∈ vs -> is_pointer v = true -> is_marked m' v = true.
Proof.
  revert m m' log. induction vs as [|x vs IH]; intros m m' log H v Hin Hp.
  - inversion Hin.
  - apply mark_each_cons_inv in H as (m1 & l1 & l2 & H1 & H2 & _).
    apply elem_of_cons in Hin as [->|Hin].
    + eapply mark_extends_marked; [eapply mark_each_mark_extends; eauto |].
      eapply mark_marks; eauto.
    + eapply IH; eauto.
Qed.

(** ** [mark]: marked cells have their references marked *)

Lemma marks_closed_insert grey m v c :
  m !! v = Some c -> Basic_mark (basic c) = false -> marks_closed grey m ->
  marks_closed (grey ∪ {[v]}) (<[v := cell_set_mark c true]> m).
Proof.
  intros Hc Hm Hcl a w Ha Hgrey He.
  pose proof (mark_extends_insert _ _ _ Hc Hm) as Hext.
  apply not_elem_of_union in Hgrey as [Hg Hv]. apply not_elem_of_singleton in Hv.
  eapply mark_extends_marked; [exact Hext |].
  apply (Hcl a w).
  - unfold is_marked in *. now rewrite lookup_insert_ne in Ha.
  - exact Hg.
  - now apply (mark_extends_edge _ _ a w Hext).
Qed.

Lemma mark_marks_closed fuel : forall v m m' log grey,
  marks_closed grey m -> mark fuel v m = Ok (m', log) -> marks_closed grey m'.
Proof.
  induction fuel as [|fuel IH]; intros v m m' log grey Hcl H; [discriminate |].
  apply mark_Ok_inv in H as [(-> & _)|(f' & c & vs & log' & [= <-] & Hp & Hc & Hm & Hch & He & _)];
    [exact Hcl |].
  set (m1 := <[v := cell_set_mark c true]> m) in *.
  assert (Hcl1 : marks_closed (grey ∪ {[v]}) m').
  { revert He.
    generalize (marks_closed_insert grey m v c Hc Hm Hcl). fold m1.
    intros Hcl1 He. revert Hcl1.
    apply (mark_each_rel (fun a b => marks_closed (grey ∪ {[v]}) a -> marks_closed (grey ∪ {[v]}) b)
             (mark fuel)) with (vs := vs) (log := log'); auto.
    intros w ma mb l _ Hw Hma. eapply IH; eauto. }
  intros a w Ha Hgrey Hedge.
  destruct (decide (a = v)) as [->|Hne].
  - pose proof (mark_each_mark_extends _ _ _ _ _ He) as Hext.
    apply (mark_extends_edge _ _ v w Hext) in Hedge.
    destruct Hedge as (c' & vs' & Hc' & Hch' & Hin & Hpw).
    unfold m1 in Hc'. rewrite lookup_insert_eq in Hc'. injection Hc' as <-.
    rewrite mark_children_set_mark, Hch in Hch'. injection Hch' as <-.
    eapply mark_each_marks; eauto.
  - apply (Hcl1 a w); auto.
    apply not_elem_of_union. split; [exact Hgrey | now apply not_elem_of_singleton].
Qed.

Lemma mark_each_marks_closed fuel vs m m' log grey :
  marks_closed grey m -> mark_each (mark fuel) vs m = Ok (m', log) -> marks_closed grey m'.
Proof.
  intros Hcl He. revert Hcl.
  apply (mark_each_rel (fun a b => marks_closed grey a -> marks_closed grey b)
           (mark fuel)) with (vs := vs) (log := log); auto.
  intros w ma mb l _ Hw Hma. eapply mark_marks_closed; eauto.
Qed.

Lemma reachable_marked m roots :
  marks_closed ∅ m ->
  (forall r, r ∈ roots -> is_pointer r = true -> is_marked m r = true) ->
  forall a, reachable m roots a -> is_marked m a = true.
Proof.
  intros Hcl Hroots a Hr. induction Hr as [v Hin Hp|a v _ IH He].
  - now apply Hroots.
  - apply (Hcl a v); auto. apply not_elem_of_empty.
Qed.

Lemma reachable_mark_extends m m' roots a :
  mark_extends m m' -> reachable m roots a <-> reachable m' roots a.
Proof.
  intros Hext. split; intros Hr; induction Hr as [v Hin Hp|b v _ IH He].
  - now apply reachable_root.
  - eapply reachable_step; [exact IH |]. now apply (mark_extends_edge _ _ b v Hext).
  - now apply reachable_root.
  - eapply reachable_step; [exact IH |]. now apply (mark_extends_edge _ _ b v Hext).
Qed.

(** ** [mark]: the log of the visited cells *)

Lemma mark_extends_unmarked m m' a :
  mark_extends m m' -> is_marked m' a = false -> is_marked m a = false.
Proof.
  intros Hext Hm. destruct (is_marked m a) eqn:E; [| reflexivity].
  rewrite (mark_extends_marked _ _ _ Hext E) in Hm. discriminate.
Qed.

Lemma log_fresh_app m m1 m' l1 l2 :
  mark_extends m m1 -> mark_extends m1 m' ->
  log_fresh m m1 l1 -> log_fresh m1 m' l2 -> log_fresh m m' (l1 ++ l2).
Proof.
  intros E1 E2 [N1 F1] [N2 F2]. split.
  - apply NoDup_app. repeat split; auto.
    intros a Ha1 Ha2. destruct (F1 a Ha1) as [_ Hm1]. destruct (F2 a Ha2) as [Hu _].
    congruence.
  - intros a Ha. apply elem_of_app in Ha as [Ha|Ha].
    + destruct (F1 a Ha). split; auto. eapply mark_extends_marked; eauto.
    + destruct (F2 a Ha). split; auto. eapply mark_extends_unmarked; eauto.
Qed.

Lemma mark_each_log_fresh fuel vs :
  (forall v m m' log, mark fuel v m = Ok (m', log) -> log_fresh m m' log) ->
  forall m m' log, mark_each (mark fuel) vs m = Ok (m', log) -> log_fresh m m' log.
Proof.
  intros Hrec. induction vs as [|v vs IH]; intros m m' log H.
  - injection H as <- <-. split; [constructor | intros a Ha; inversion Ha].
  - apply mark_each_cons_inv in H as (m1 & l1 & l2 & H1 & H2 & ->).
    eapply log_fresh_app; eauto using mark_mark_extends, mark_each_mark_extends.
Qed.

Lemma mark_log_fresh fuel : forall v m m' log,
  mark fuel v m = Ok (m', log) -> log_fresh m m' log.
Proof.
  induction fuel as [|fuel IH]; intros v m m' log H; [discriminate |].
  apply mark_Ok_inv in H as [(-> & -> & _)|(f' & c & vs & log' & [= <-] & Hp & Hc & Hm & Hch & He & ->)].
  - split; [constructor | intros a Ha; inversion Ha].
  - pose proof (mark_each_mark_extends _ _ _ _ _ He) as Hext.
    pose proof (mark_extends_insert _ _ _ Hc Hm) as Hext1.
    destruct (mark_each_log_fresh fuel vs IH _ _ _ He) as [Hnd Hfr].
    assert (Hv1 : is_marked (<[v := cell_set_mark c true]> m) v = true).
    { unfold is_marked. rewrite lookup_insert_eq. apply cell_set_mark_mark. }
    split.
    + apply NoDup_cons. split; [| exact Hnd].
      intros Hin. destruct (Hfr v Hin) as [Hu _]. congruence.
    + intros a Ha. apply elem_of_cons in Ha as [->|Ha].
      * split; [unfold is_marked; now rewrite Hc |].
        eapply mark_extends_marked; eauto.
      * destruct (Hfr a Ha). split; auto. eapply mark_extends_unmarked; eauto.
Qed.

(** ** [mark]: termination *)

Lemma unmarked_extends_subseteq m m' : mark_extends m m' -> unmarked m' ⊆ unmarked m.
Proof.
  intros Hext. apply map_subseteq_spec. intros a c Hc.
  apply map_lookup_filter_Some in Hc as [Hc Hm]. simpl in Hm.
  apply map_lookup_filter_Some. split; [| exact Hm].
  destruct (Hext a) as [<-|(c0 & _ & _ & E)]; [exact Hc |].
  rewrite Hc in E. injection E as ->. rewrite cell_set_mark_mark in Hm. discriminate.
Qed.

Lemma unmarked_extends_size m m' :
  mark_extends m m' -> (size (unmarked m') <= size (unmarked m))%nat.
Proof. intros H. apply map_subseteq_size. now apply unmarked_extends_subseteq. Qed.

Lemma unmarked_insert_size m v c :
  m !! v = Some c -> Basic_mark (basic c) = false ->
  (size (unmarked (<[v := cell_set_mark c true]> m)) < size (unmarked m))%nat.
Proof.
  intros Hc Hm. apply map_subset_size. split.
  - apply unmarked_extends_subseteq. now apply mark_extends_insert.
  - intros Hsub. rewrite map_subseteq_spec in Hsub.
    assert (Hin : unmarked m !! v = Some c) by now apply map_lookup_filter_Some.
    apply Hsub in Hin. apply map_lookup_filter_Some in Hin as [Hin _].
    rewrite lookup_insert_eq in Hin. injection Hin as Hin.
    rewrite <- Hin, cell_set_mark_mark in Hm. discriminate.
Qed.

Lemma unmarked_size_le m : (size (unmarked m) <= size m)%nat.
Proof. apply map_subseteq_size, map_filter_subseteq. Qed.

Lemma mark_children_result c :
  (exists vs, mark_children c = Ok vs) \/ mark_children c = Fault.
Proof.
  unfold mark_children.
  repeat match goal with
         | |- context [if ?b then _ else _] => destruct b
         end;
    destruct (as_ c); eauto.
Qed.

(** A budget above the number of unmarked cells is never exhausted. *)
Lemma mark_fuel_enough fuel : forall v m,
  (size (unmarked m) < fuel)%nat -> mark fuel v m <> OutOfFuel.
Proof.
  induction fuel as [|fuel IH]; intros v m Hsz; [lia |].
  simpl. destruct (is_pointer v); simpl; [| discriminate].
  destruct (m !! v) as [c|] eqn:Hc; [| discriminate].
  destruct (Basic_mark (basic c)) eqn:Hm; [discriminate |].
  rewrite mark_children_set_mark.
  destruct (mark_children_result c) as [[vs Hch]|Hch]; rewrite Hch; simpl;
    [| discriminate].
  pose proof (unmarked_insert_size m v c Hc Hm) as Hlt.
  assert (Hsz1 : (size (unmarked (<[v := cell_set_mark c true]> m)) < fuel)%nat) by lia.
  clear Hlt Hsz. revert Hsz1. generalize (<[v := cell_set_mark c true]> m) as m1.
  assert (Heach : forall vs m1, (size (unmarked m1) < fuel)%nat ->
                                mark_each (mark fuel) vs m1 <> OutOfFuel).
  { clear vs Hch. intros vs. induction vs as [|w vs IHvs]; intros m1 Hsz1; simpl; [discriminate |].
    destruct (mark fuel w m1) as [[m2 l2]| | |] eqn:Hw; simpl; try discriminate.
    - pose proof (unmarked_extends_size _ _ (mark_mark_extends _ _ _ _ _ Hw)) as Hle.
      destruct (mark_each (mark fuel) vs m2) as [[m3 l3]| | |] eqn:Hvs; simpl; try discriminate.
      exfalso. apply (IHvs m2); [lia | exact Hvs].
    - exfalso. apply (IH w m1); auto. }
  intros m1 Hsz1. specialize (Heach vs m1 Hsz1).
  destruct (mark_each (mark fuel) vs m1) as [[m3 l3]| | |]; simpl; congruence.
Qed.

Lemma heap_closed_extends m m' : mark_extends m m' -> heap_closed m -> heap_closed m'.
Proof.
  intros Hext Hcl a c Hc.
  destruct (mark_extends_children _ _ _ _ Hext Hc) as (c0 & Hc0 & E).
  destruct (Hcl a c0 Hc0) as (vs & Hvs & Hval). exists vs. split; [congruence |].
  intros v Hin Hp. apply (mark_extends_dom _ _ v Hext). auto.
Qed.

(** On a closed heap the only way not to return is to run out of budget. *)
Lemma mark_closed_result fuel : forall v m,
  heap_closed m -> (is_pointer v = true -> is_Some (m !! v)) ->
  (exists r, mark fuel v m = Ok r) \/ mark fuel v m = OutOfFuel.
Proof.
  induction fuel as [|fuel IH]; intros v m Hcl Hv; [now right |].
  simpl. destruct (is_pointer v) eqn:Hp; simpl; [| left; eauto].
  destruct (Hv eq_refl) as [c Hc]. rewrite Hc.
  destruct (Basic_mark (basic c)) eqn:Hm; [left; eauto |].
  rewrite mark_children_set_mark.
  destruct (Hcl v c Hc) as (vs & Hch & Hval). rewrite Hch. simpl.
  pose proof (mark_extends_insert m v c Hc Hm) as Hext.
  assert (Heach : forall vs m1, heap_closed m1 ->
            (forall w, w ∈ vs -> is_pointer w = true -> is_Some (m1 !! w)) ->
            (exists r, mark_each (mark fuel) vs m1 = Ok r)
            \/ mark_each (mark fuel) vs m1 = OutOfFuel).
  { clear - IH. intros vs'. induction vs' as [|w vs IHvs]; intros m1 Hcl1 Hval1; simpl.
    - left. eauto.
    - destruct (IH w m1 Hcl1) as [[[m2 l2] Hw]|Hw].
      + intros Hp. apply Hval1; [apply list_elem_of_here | exact Hp].
      + rewrite Hw. simpl.
        pose proof (mark_mark_extends _ _ _ _ _ Hw) as Hext.
        destruct (IHvs m2) as [[[m3 l3] Hvs]|Hvs].
        * now apply (heap_closed_extends m1).
        * intros x Hx Hpx. apply (mark_extends_dom _ _ x Hext).
          apply Hval1; [now apply list_elem_of_further | exact Hpx].
        * rewrite Hvs. simpl. left. eauto.
        * rewrite Hvs. simpl. now right.
      + rewrite Hw. simpl. now right. }
  destruct (Heach vs (<[v := cell_set_mark c true]> m)) as [[[m3 l3] Hvs]|Hvs].
  - now apply (heap_closed_extends m).
  - intros w Hw Hpw. apply (mark_extends_dom _ _ w Hext). auto.
  - rewrite Hvs. simpl. left. eauto.
  - rewrite Hvs. simpl. now right.
Qed.

Lemma mark_closed_Ok fuel v m :
  heap_closed m -> (is_pointer v = true -> is_Some (m !! v)) ->
  (size (unmarked m) < fuel)%nat ->
  exists m' log, mark fuel v m = Ok (m', log).
Proof.
  intros Hcl Hv Hsz. destruct (mark_closed_result fuel v m Hcl Hv) as [[[m' log] H]|H].
  - eauto.
  - exfalso. eapply mark_fuel_enough; eauto.
Qed.

(** More budget does not change what a call returns. *)
Lemma mark_each_mono (rec rec' : VALUE -> Memory -> Result (Memory * list VALUE)) :
  (forall v m r, rec v m = Ok r -> rec' v m = Ok r) ->
  forall vs m r, mark_each rec vs m = Ok r -> mark_each rec' vs m = Ok r.
Proof.
  intros Hrec vs. induction vs as [|v vs IH]; intros m r H; [exact H |].
  destruct r as [m' log].
  apply mark_each_cons_inv in H as (m1 & l1 & l2 & H1 & H2 & ->).
  simpl. rewrite (Hrec _ _ _ H1). simpl. rewrite (IH _ _ H2). reflexivity.
Qed.

Lemma mark_fuel_mono fuel : forall fuel' v m r,
  (fuel <= fuel')%nat -> mark fuel v m = Ok r -> mark fuel' v m = Ok r.
Proof.
  induction fuel as [|fuel IH]; intros fuel' v m [m' log] Hle H; [discriminate |].
  destruct fuel' as [|fuel']; [lia |].
  apply mark_Ok_inv in H as [(-> & -> & Hcase)|(f' & c & vs & log' & [= <-] & Hp & Hc & Hm & Hch & He & ->)].
  - simpl. destruct Hcase as [Hp|Hm].
    + now rewrite Hp.
    + destruct (is_pointer v); simpl; [| reflexivity].
      unfold is_marked in Hm. destruct (m !! v) as [c|]; [| discriminate].
      now rewrite Hm.
  - simpl. rewrite Hp, Hc, Hm. simpl. rewrite mark_children_set_mark, Hch. simpl.
    rewrite (mark_each_mono (mark fuel) (mark fuel') (fun v m r => IH fuel' v m r ltac:(lia)) _ _ _ He).
    reflexivity.
Qed.

Lemma heap_closedb_spec m : heap_closedb m = true -> heap_closed m.
Proof.
  unfold heap_closedb. rewrite forallb_forall. intros H a c Hc.
  specialize (H (a, c)). simpl in H.
  assert (Hin : In (a, c) (map_to_list m)).
  { apply list_elem_of_In. now apply elem_of_map_to_list. }
  specialize (H Hin). destruct (mark_children c) as [vs| | |]; try discriminate.
  exists vs. split; [reflexivity |]. intros v Hv Hp.
  rewrite forallb_forall in H. specialize (H v (proj1 (list_elem_of_In _ _) Hv)).
  rewrite Hp in H. simpl in H. now apply bool_decide_eq_true in H.
Qed.

Lemma roots_validb_spec m roots : roots_validb m roots = true -> roots_valid m roots.
Proof.
  unfold roots_validb. rewrite forallb_forall. intros H v Hv Hp.
  specialize (H v (proj1 (list_elem_of_In _ _) Hv)).
  rewrite Hp in H. simpl in H. now apply bool_decide_eq_true in H.
Qed.

Lemma mark_budget_enough m : (size (unmarked m) < mark_budget m)%nat.
Proof. unfold mark_budget. pose proof (unmarked_size_le m). lia. Qed.

(** Whatever the memory holds, the budget of [collect] is not exhausted. *)
Lemma mark_budget_suffices m v : mark (mark_budget m) v m <> OutOfFuel.
Proof. apply mark_fuel_enough, mark_budget_enough. Qed.

(** C10: [mark] terminates on every closed heap, cyclic or not: with a
    recursion budget of one more than the number of cells it returns, and
    every larger budget gives the same result; it returns at once on a value
    that is no pointer and on a marked cell; no cell is visited twice. *)
Theorem mark_terminates (m : Memory) (v : VALUE) :
  heap_closed m -> (is_pointer v = true -> is_Some (m !! v)) ->
  exists m' log,
    (forall fuel, (mark_budget m <= fuel)%nat -> mark fuel v m = Ok (m', log))
    /\ (is_pointer v = false \/ is_marked m v = true -> m' = m /\ log = [])
    /\ NoDup log
    /\ (forall a, a ∈ log -> is_marked m a = false /\ is_marked m' a = true).
Proof.
  intros Hcl Hv.
  destruct (mark_closed_Ok (mark_budget m) v m Hcl Hv (mark_budget_enough m)) as (m' & log & H).
  exists m', log. split; [| split].
  - intros fuel Hle. eapply mark_fuel_mono; eauto.
  - intros Hskip.
    apply mark_Ok_inv in H as [(-> & -> & _)|(f' & c & vs & log' & _ & Hp & Hc & Hm & _)]; [auto |].
    destruct Hskip as [Hn|Hmk]; [congruence |].
    unfold is_marked in Hmk. rewrite Hc in Hmk. congruence.
  - apply (mark_log_fresh _ _ _ _ _ H).
Qed.

Lemma mark_terminates_witness :
  exists m' log,
    (forall fuel, (mark_budget cyclic_heap <= fuel)%nat ->
                  mark fuel 4096 cyclic_heap = Ok (m', log))
    /\ (is_pointer 4096 = false \/ is_marked cyclic_heap 4096 = true
        -> m' = cyclic_heap /\ log = [])
    /\ NoDup log
    /\ (forall a, a ∈ log -> is_marked cyclic_heap a = false /\ is_marked m' a = true).
Proof.
  apply (mark_terminates cyclic_heap 4096).
  - apply heap_closedb_spec. vm_compute. reflexivity.
  - intros _. vm_compute. eauto.
Defined.

Lemma mark_children_frame c frame :
  Basic_type (basic c) = kTypeFrame -> as_ c = AsFrame frame ->
  mark_children c =
  Ok (Frame.parent frame :: Frame.parent_environment_frame frame
      :: Frame.function frame :: Frame.self frame :: Frame.environment frame).
Proof. intros Hty Has. unfold mark_children. rewrite Hty, Has. reflexivity. Qed.

Lemma mark_children_function c func :
  Basic_type (basic c) = kTypeFunction -> as_ c = AsFunction func ->
  mark_children c =
  Ok (Function.context func :: Function.block func
      :: (if Function.bound_self_set func then [Function.bound_self func] else [])).
Proof. intros Hty Has. unfold mark_children. rewrite Hty, Has. reflexivity. Qed.

(** A visit of an unmarked frame marks the frame, its caller, its lexical
    parent, its function, its self value and every local slot; a visit of an
    unmarked function marks the function, its context frame, its instruction
    block and, if one is set, its bound self. *)
Lemma mark_frame_function (m : Memory) (a : VALUE) (c : MemoryCell) :
  heap_closed m -> is_pointer a = true -> m !! a = Some c ->
  Basic_mark (basic c) = false ->
  exists m' log,
    mark (mark_budget m) a m = Ok (m', log)
    /\ is_marked m' a = true
    /\ (forall frame,
          Basic_type (basic c) = kTypeFrame -> as_ c = AsFrame frame ->
          forall v,
            v ∈ Frame.parent frame :: Frame.parent_environment_frame frame
                :: Frame.function frame :: Frame.self frame :: Frame.environment frame ->
            is_pointer v = true -> is_marked m' v = true)
    /\ (forall func,
          Basic_type (basic c) = kTypeFunction -> as_ c = AsFunction func ->
          forall v,
            v ∈ Function.context func :: Function.block func
                :: (if Function.bound_self_set func then [Function.bound_self func] else []) ->
            is_pointer v = true -> is_marked m' v = true).
Proof.
  intros Hcl Hp Hc Hm.
  destruct (mark_closed_Ok (mark_budget m) a m Hcl (fun _ => mk_is_Some _ _ Hc)
              (mark_budget_enough m)) as (m' & log & H).
  exists m', log. split; [exact H |]. split; [eapply mark_marks; eauto |].
  apply mark_Ok_inv in H as [(_ & _ & [Hn|Hmk])|(f' & c' & vs & log' & _ & _ & Hc' & _ & Hch & He & _)].
  - congruence.
  - unfold is_marked in Hmk. rewrite Hc in Hmk. congruence.
  - rewrite Hc in Hc'. injection Hc' as <-. split.
    + intros frame Hty Has v Hv Hpv.
      rewrite (mark_children_frame c frame Hty Has) in Hch. injection Hch as <-.
      eapply mark_each_marks; eauto.
    + intros func Hty Has v Hv Hpv.
      rewrite (mark_children_function c func Hty Has) in Hch. injection Hch as <-.
      eapply mark_each_marks; eauto.
Qed.

Example mark_frame_function_on_cycle :
  exists m' log,
    mark (mark_budget cyclic_heap) 4096 cyclic_heap = Ok (m', log)
    /\ is_marked m' 4096 = true
    /\ (forall frame,
          Basic_type (mkBasic kTypeFrame) = kTypeFrame ->
          AsFrame (Frame.mk 0 0 0 4160 [4160; VALUE_ENCODE_INTEGER 7] kNull 0 false)
          = AsFrame frame ->
          forall v,
            v ∈ Frame.parent frame :: Frame.parent_environment_frame frame
                :: Frame.function frame :: Frame.self frame :: Frame.environment frame ->
            is_pointer v = true -> is_marked m' v = true)
    /\ (forall func,
          Basic_type (mkBasic kTypeFrame) = kTypeFunction ->
          AsFrame (Frame.mk 0 0 0 4160 [4160; VALUE_ENCODE_INTEGER 7] kNull 0 false)
          = AsFunction func ->
          forall v,
            v ∈ Function.context func :: Function.block func
                :: (if Function.bound_self_set func then [Function.bound_self func] else []) ->
            is_pointer v = true -> is_marked m' v = true).
Proof.
  apply (mark_frame_function cyclic_heap 4096
           (sample_frame 0 0 0 4160 kNull [4160; VALUE_ENCODE_INTEGER 7])).
  - apply heap_closedb_spec. vm_compute. reflexivity.
  - reflexivity.
  - reflexivity.
  - reflexivity.
Defined.

(** C8 fails on the code: on [untraced_heap] the visit of the frame at 4096
    marks the frame and its function at 4160 and returns; the catch table at
    4224, which is the [last_active_catchtable] of the frame, and the object
    at 4288, which the container of the function holds, stay unmarked.  The
    case of [kTypeObject] marks the values of its container; the cases of
    [kTypeFunction] and [kTypeFrame] pass these two fields by. *)
Lemma mark_skips_catchtable_and_container :
  untraced_heap !! 4096 = Some (sample_frame 0 0 4224 4160 kNull [])
  /\ untraced_heap !! 4160 = Some (sample_function 4096 0 None [(12, 4288)])
  /\ match mark (mark_budget untraced_heap) 4096 untraced_heap with
     | Ok (m', log) =>
         log = [4096; 4160] /\ is_marked m' 4224 = false /\ is_marked m' 4288 = false
     | _ => False
     end.
Proof. vm_compute. repeat split. Qed.

(** ** The sweep *)

Lemma free_list_insert_as m p l a c c' :
  free_list m p l -> m !! a = Some c -> as_ c' = as_ c ->
  free_list (<[a := c']> m) p l.
Proof.
  intros Hfl Hc Has. induction Hfl as [|p c0 next l Hp Hc0 Hnext _ IH]; [constructor |].
  destruct (decide (a = p)) as [->|Hne].
  - apply (free_list_cons _ p c' next); auto.
    + apply lookup_insert_eq.
    + rewrite Has. congruence.
  - apply (free_list_cons _ p c0 next); auto. now rewrite lookup_insert_ne.
Qed.

Lemma free_list_insert_notin m p l a c' :
  free_list m p l -> a ∉ l -> free_list (<[a := c']> m) p l.
Proof.
  intros Hfl Hnot. induction Hfl as [|p c0 next l Hp Hc0 Hnext _ IH]; [constructor |].
  apply not_elem_of_cons in Hnot as [Hne Hnot].
  apply (free_list_cons _ p c0 next); auto. now rewrite lookup_insert_ne.
Qed.

Lemma free_list_unique m p l1 : free_list m p l1 -> forall l2, free_list m p l2 -> l1 = l2.
Proof.
  intros H1. induction H1 as [|p c next l Hp Hc Hnext _ IH]; intros l2 H2.
  - inversion H2; [reflexivity | congruence].
  - inversion H2 as [|p' c' next' l' Hp' Hc' Hnext' Hl']; subst; [congruence |].
    rewrite Hc in Hc'. injection Hc' as <-. rewrite Hnext in Hnext'. injection Hnext' as <-.
    f_equal. now apply IH.
Qed.

Lemma free_list_extends m m' p l :
  mark_extends m m' -> free_list m p l -> free_list m' p l.
Proof.
  intros Hext Hfl. induction Hfl as [|p c next l Hp Hc Hnext _ IH]; [constructor |].
  destruct (Hext p) as [E|(c0 & Hc0 & _ & E)].
  - apply (free_list_cons _ p c next); auto. congruence.
  - apply (free_list_cons _ p (cell_set_mark c0 true) next); auto.
    simpl. congruence.
Qed.

Lemma clean_set_mark c val : clean (cell_set_mark c val) = clean c.
Proof. unfold clean. simpl. now rewrite Basic_type_set_mark. Qed.

Lemma is_pointer_nonzero a : is_pointer a = true -> a <> 0.
Proof. intros H ->. discriminate. Qed.

Lemma sweep_spec : forall (todo : list VALUE) (mm : MemoryManager) (n : Z) (l : list VALUE),
  NoDup todo ->
  (forall a, a ∈ todo -> a <> 0 /\ exists c, memory mm !! a = Some c /\ clean c = Ok tt) ->
  (forall a, a ∈ todo -> is_marked (memory mm) a = false -> a ∉ temporaries mm) ->
  free_list (memory mm) (free_cell mm) l ->
  (forall a, a ∈ l -> a ∈ todo -> cell_type (memory mm) a = Some kTypeDead) ->
  exists mm' n' l',
    foldM sweep_cell todo (mm, n) = Ok (mm', n')
    /\ temporaries mm' = temporaries mm /\ heaps mm' = heaps mm
    /\ brk mm' = brk mm /\ out mm' = out mm
    /\ (forall a, a ∉ todo -> memory mm' !! a = memory mm !! a)
    /\ (forall a c, a ∈ todo -> memory mm !! a = Some c ->
          exists c', memory mm' !! a = Some c' /\ swept_cell c c')
    /\ free_list (memory mm') (free_cell mm') l'
    /\ (forall a, a ∈ l' <->
          a ∈ l \/ (a ∈ todo /\ is_marked (memory mm) a = false
                    /\ cell_type (memory mm) a <> Some kTypeDead)).
Proof.
  induction todo as [|a todo IH]; intros mm n l Hnd Hcells Htmp Hfl Hdead.
  - exists mm, n, l. simpl. repeat split; auto.
    + intros a c Ha. inversion Ha.
    + intros [Ha|(Ha & _)]; [exact Ha | inversion Ha].
  - apply NoDup_cons in Hnd as [Hnotin Hnd].
    destruct (Hcells a (list_elem_of_here _ _)) as (Ha0 & c & Hc & Hclean).
    (* the state after the body of the loop for [a] *)
    assert (Hstep : exists mm1 n1 l1 c1,
               sweep_cell (mm, n) a = Ok (mm1, n1)
               /\ temporaries mm1 = temporaries mm /\ heaps mm1 = heaps mm
               /\ brk mm1 = brk mm /\ out mm1 = out mm
               /\ (forall x, x <> a -> memory mm1 !! x = memory mm !! x)
               /\ memory mm1 !! a = Some c1 /\ swept_cell c c1
               /\ free_list (memory mm1) (free_cell mm1) l1
               /\ (forall x, x ∈ l1 <-> x ∈ l \/ (x = a /\ is_marked (memory mm) a = false
                                                   /\ cell_type (memory mm) a <> Some kTypeDead))).
    { unfold sweep_cell. rewrite Hc. unfold swept_cell.
      destruct (Basic_mark (basic c)) eqn:Hm.
      - exists (mm_set_memory mm (<[a := cell_set_mark c false]> (memory mm))), n, l,
          (cell_set_mark c false).
        split; [reflexivity |]. simpl.
        repeat split; auto.
        + intros x Hx. now rewrite lookup_insert_ne.
        + apply lookup_insert_eq.
        + eapply free_list_insert_as; eauto.
        + intros [Hx|(_ & Hx & _)]; [exact Hx |].
          unfold is_marked in Hx. rewrite Hc in Hx. congruence.
      - destruct (Basic_type (basic c) =? kTypeDead) eqn:Hty; simpl.
        + exists mm, n, l, c. repeat split; auto.
          intros [Hx|(_ & _ & Hx)]; [exact Hx |].
          exfalso. apply Hx. unfold cell_type. rewrite Hc. simpl.
          apply Z.eqb_eq in Hty. now rewrite Hty.
        + assert (Hunm : is_marked (memory mm) a = false).
          { unfold is_marked. now rewrite Hc. }
          assert (Hnd' : cell_type (memory mm) a <> Some kTypeDead).
          { unfold cell_type. rewrite Hc. simpl. intros [= E].
            rewrite E in Hty. discriminate. }
          assert (Hcount : count_occ Z.eq_dec (temporaries mm) a = 0%nat).
          { apply count_occ_not_In. rewrite <- list_elem_of_In.
            apply Htmp; [apply list_elem_of_here | exact Hunm]. }
          unfold free. rewrite Hcount. simpl. rewrite Hc. simpl. rewrite Hclean. simpl.
          exists (mm_set_free_cell
                    (mm_set_memory mm
                       (<[a := mkCell (mkBasic 0) (AsFree (free_cell mm))]> (memory mm))) a),
            (n + 1), (a :: l), (mkCell (mkBasic 0) (AsFree (free_cell mm))).
          split; [reflexivity |]. simpl.
          repeat split; auto.
          * intros x Hx. now rewrite lookup_insert_ne.
          * apply lookup_insert_eq.
          * eauto.
          * apply (free_list_cons _ a (mkCell (mkBasic 0) (AsFree (free_cell mm)))
                     (free_cell mm)); auto.
            -- apply lookup_insert_eq.
            -- apply free_list_insert_notin; [exact Hfl |].
               intros Hin. apply Hnd'. apply Hdead; [exact Hin | apply list_elem_of_here].
          * intros Hx. apply elem_of_cons in Hx as [->|Hx]; auto.
          * intros [Hx|(-> & _)]; [now apply list_elem_of_further | apply list_elem_of_here]. }
    destruct Hstep as (mm1 & n1 & l1 & c1 & Hs & Ht1 & Hh1 & Hb1 & Ho1 & Hoth & Ha1 & Hsw & Hfl1 & Hl1).
    assert (Hrest : forall x, x ∈ todo -> memory mm1 !! x = memory mm !! x).
    { intros x Hx. apply Hoth. intros ->. auto. }
    destruct (IH mm1 n1 l1 Hnd) as (mm' & n' & l' & Hf & Ht & Hh & Hb & Ho & Hout & Hin & Hfl' & Hl').
    { intros x Hx. rewrite (Hrest x Hx). apply Hcells. now apply list_elem_of_further. }
    { intros x Hx. rewrite Ht1. unfold is_marked. rewrite (Hrest x Hx).
      apply Htmp. now apply list_elem_of_further. }
    { exact Hfl1. }
    { intros x Hx Hxt. unfold cell_type. rewrite (Hrest x Hxt).
      destruct (proj1 (Hl1 x) Hx) as [Hxl|[-> _]]; [| contradiction].
      apply Hdead; [exact Hxl | now apply list_elem_of_further]. }
    exists mm', n', l'.
    change (foldM sweep_cell (a :: todo) (mm, n))
      with (sweep_cell (mm, n) a ≫= foldM sweep_cell todo).
    rewrite Hs. simpl.
    split; [exact Hf |].
    do 4 (split; [congruence |]).
    split; [| split; [| split]].
    + intros x Hx. apply not_elem_of_cons in Hx as [Hxa Hxt].
      rewrite (Hout x Hxt). now apply Hoth.
    + intros x cx Hx Hcx. apply elem_of_cons in Hx as [->|Hx].
      * rewrite Hc in Hcx. injection Hcx as <-.
        exists c1. split; [| exact Hsw]. rewrite (Hout a Hnotin). exact Ha1.
      * apply (Hin x cx Hx). now rewrite (Hrest x Hx).
    + exact Hfl'.
    + intros x. rewrite (Hl' x), (Hl1 x). split.
      * intros [[Hxl|(-> & Hm & Hd)]|(Hxt & Hxm & Hxd)].
        -- now left.
        -- right. split; [apply list_elem_of_here | auto].
        -- right. split; [now apply list_elem_of_further |].
           unfold is_marked, cell_type in *. rewrite (Hrest x Hxt) in Hxm, Hxd. auto.
      * intros [Hxl|(Hxt & Hxm & Hxd)]; [now left; left |].
        apply elem_of_cons in Hxt as [->|Hxt]; [left; right; auto |].
        right. split; [exact Hxt |].
        unfold is_marked, cell_type in *. rewrite (Hrest x Hxt). auto.
Qed.

(** ** [mark]: only reachable cells are marked *)

Lemma mark_marked_reach m0 roots fuel : forall v m m' log,
  mark_extends m0 m -> (is_pointer v = true -> reachable m0 roots v) ->
  marked_reach m0 roots m -> mark fuel v m = Ok (m', log) ->
  marked_reach m0 roots m'.
Proof.
  induction fuel as [|fuel IH]; intros v m m' log Hext Hv Hmr H; [discriminate |].
  apply mark_Ok_inv in H as [(-> & _)|(f' & c & vs & log' & [= <-] & Hp & Hc & Hm & Hch & He & _)];
    [exact Hmr |].
  pose proof (mark_extends_insert _ _ _ Hc Hm) as Hext1.
  set (m1 := <[v := cell_set_mark c true]> m) in *.
  assert (Hmr1 : marked_reach m0 roots m1).
  { intros a Ha. destruct (decide (a = v)) as [->|Hne]; [right; auto |].
    apply Hmr. unfold is_marked, m1 in *. now rewrite lookup_insert_ne in Ha. }
  assert (Hkids : forall w, w ∈ vs -> is_pointer w = true -> reachable m0 roots w).
  { intros w Hw Hpw. eapply reachable_step; [apply Hv; exact Hp |].
    apply (mark_extends_edge _ _ v w Hext). exists c, vs. auto. }
  assert (Hext01 : mark_extends m0 m1) by (eapply mark_extends_trans; eauto).
  clear Hc Hm Hch Hext1 Hmr Hext. revert Hkids He Hext01 Hmr1.
  generalize m1 as ma. clear m1. revert m' log'.
  induction vs as [|w vs IHvs]; intros m' log' ma Hkids He Hext Hmr.
  - injection He as <- <-. exact Hmr.
  - apply mark_each_cons_inv in He as (mb & l1 & l2 & H1 & H2 & _).
    apply (IHvs m' l2 mb).
    + intros x Hx. apply Hkids. now apply list_elem_of_further.
    + exact H2.
    + eapply mark_extends_trans; [exact Hext |]. eapply mark_mark_extends; eauto.
    + eapply (IH w ma mb l1); eauto. apply Hkids, list_elem_of_here.
Qed.

Lemma mark_each_marked_reach m0 roots fuel : forall vs m m' log,
  mark_extends m0 m -> (forall v, v ∈ vs -> is_pointer v = true -> reachable m0 roots v) ->
  marked_reach m0 roots m -> mark_each (mark fuel) vs m = Ok (m', log) ->
  marked_reach m0 roots m'.
Proof.
  induction vs as [|w vs IHvs]; intros m m' log Hext Hkids Hmr He.
  - injection He as <- <-. exact Hmr.
  - apply mark_each_cons_inv in He as (mb & l1 & l2 & H1 & H2 & _).
    apply (IHvs mb m' l2).
    + eapply mark_extends_trans; [exact Hext |]. eapply mark_mark_extends; eauto.
    + intros x Hx. apply Hkids. now apply list_elem_of_further.
    + eapply (mark_marked_reach m0 roots fuel w m mb l1); eauto.
      apply Hkids, list_elem_of_here.
    + exact H2.
Qed.

Lemma mark_each_closed_Ok fuel : forall vs m,
  heap_closed m -> (forall v, v ∈ vs -> is_pointer v = true -> is_Some (m !! v)) ->
  (size (unmarked m) < fuel)%nat ->
  exists m' log, mark_each (mark fuel) vs m = Ok (m', log).
Proof.
  induction vs as [|w vs IHvs]; intros m Hcl Hval Hsz; [simpl; eauto |].
  destruct (mark_closed_Ok fuel w m Hcl) as (m1 & l1 & H1); auto.
  { apply Hval, list_elem_of_here. }
  pose proof (mark_mark_extends _ _ _ _ _ H1) as Hext.
  destruct (IHvs m1) as (m2 & l2 & H2).
  - now apply (heap_closed_extends m).
  - intros x Hx Hpx. apply (mark_extends_dom _ _ x Hext). apply Hval; auto.
    now apply list_elem_of_further.
  - pose proof (unmarked_extends_size _ _ Hext). lia.
  - exists m2, (l1 ++ l2). simpl. rewrite H1. simpl. rewrite H2. reflexivity.
Qed.

(** ** The mark phase of [collect] *)

Lemma mark_phase_spec (vm : VM) (mm : MemoryManager) :
  heap_closed (memory mm) -> roots_valid (memory mm) (gc_roots vm mm) ->
  (forall a, is_marked (memory mm) a = false) ->
  exists m log,
    mark_phase (mark_budget (memory mm)) vm mm = Ok (m, log)
    /\ mark_extends (memory mm) m
    /\ forall a, is_pointer a = true ->
         (is_marked m a = true <-> reachable (memory mm) (gc_roots vm mm) a).
Proof.
  intros Hcl Hroots Hunm. set (m0 := memory mm). set (fuel := mark_budget m0).
  set (roots := gc_roots vm mm).
  assert (Hr : forall v, v ∈ roots -> is_pointer v = true -> reachable m0 roots v).
  { intros v Hv Hp. now apply reachable_root. }
  assert (Hin1 : forall v, v ∈ stack vm -> v ∈ roots).
  { intros v Hv. unfold roots, gc_roots. apply elem_of_app. now left. }
  assert (Hin2 : forall v, v ∈ temporaries mm -> v ∈ roots).
  { intros v Hv. unfold roots, gc_roots. apply elem_of_app. right.
    apply elem_of_app. now left. }
  assert (Hin3 : frames vm ∈ roots).
  { unfold roots, gc_roots. rewrite !elem_of_app. right. right. apply list_elem_of_here. }
  assert (Hin4 : catchstack vm ∈ roots).
  { unfold roots, gc_roots. rewrite !elem_of_app. right. right.
    apply list_elem_of_further, list_elem_of_here. }
  assert (Hmr0 : marked_reach m0 roots m0) by (intros a Ha; now left).
  pose proof (mark_budget_enough m0) as Hsz0. fold fuel in Hsz0.
  (* the stack *)
  destruct (mark_each_closed_Ok fuel (stack vm) m0) as (m1 & l1 & H1); auto.
  pose proof (mark_each_mark_extends _ _ _ _ _ H1) as E1.
  assert (C0 : marks_closed ∅ m0).
  { intros a v Ha. unfold m0 in Ha. rewrite Hunm in Ha. discriminate. }
  assert (Hk1 : forall v, v ∈ stack vm -> is_pointer v = true -> reachable m0 roots v) by auto.
  assert (Hk2 : forall v, v ∈ temporaries mm -> is_pointer v = true -> reachable m0 roots v)
    by auto.
  assert (Hk3 : is_pointer (frames vm) = true -> reachable m0 roots (frames vm)) by auto.
  assert (Hk4 : is_pointer (catchstack vm) = true -> reachable m0 roots (catchstack vm))
    by auto.
  pose proof (mark_each_marks_closed _ _ _ _ _ ∅ C0 H1) as C1.
  pose proof (mark_each_marked_reach m0 roots fuel _ _ _ _ (mark_extends_refl m0)
                Hk1 Hmr0 H1) as R1.
  (* the temporaries *)
  destruct (mark_each_closed_Ok fuel (temporaries mm) m1) as (m2 & l2 & H2).
  { now apply (heap_closed_extends m0). }
  { intros v Hv Hp. apply (mark_extends_dom _ _ v E1). auto. }
  { pose proof (unmarked_extends_size _ _ E1). lia. }
  pose proof (mark_each_mark_extends _ _ _ _ _ H2) as E2.
  pose proof (mark_extends_trans _ _ _ E1 E2) as E02.
  pose proof (mark_each_marks_closed _ _ _ _ _ ∅ C1 H2) as C2.
  pose proof (mark_each_marked_reach m0 roots fuel _ _ _ _ E1 Hk2 R1 H2) as R2.
  (* the frames *)
  destruct (mark_closed_Ok fuel (frames vm) m2) as (m3 & l3 & H3).
  { now apply (heap_closed_extends m0). }
  { intros Hp. apply (mark_extends_dom _ _ _ E02). auto. }
  { pose proof (unmarked_extends_size _ _ E02). lia. }
  pose proof (mark_mark_extends _ _ _ _ _ H3) as E3.
  pose proof (mark_extends_trans _ _ _ E02 E3) as E03.
  pose proof (mark_marks_closed _ _ _ _ _ ∅ C2 H3) as C3.
  pose proof (mark_marked_reach m0 roots fuel _ _ _ _ E02 Hk3 R2 H3) as R3.
  (* the catch stack *)
  destruct (mark_closed_Ok fuel (catchstack vm) m3) as (m4 & l4 & H4).
  { now apply (heap_closed_extends m0). }
  { intros Hp. apply (mark_extends_dom _ _ _ E03). auto. }
  { pose proof (unmarked_extends_size _ _ E03). lia. }
  pose proof (mark_mark_extends _ _ _ _ _ H4) as E4.
  pose proof (mark_extends_trans _ _ _ E03 E4) as E04.
  pose proof (mark_marks_closed _ _ _ _ _ ∅ C3 H4) as C4.
  pose proof (mark_marked_reach m0 roots fuel _ _ _ _ E03 Hk4 R3 H4) as R4.
  exists m4, (l1 ++ l2 ++ l3 ++ l4). split; [| split; [exact E04 |]].
  - unfold mark_phase, mbind, Result_bind. fold m0 fuel.
    rewrite H1. cbv beta iota. rewrite H2. cbv beta iota.
    rewrite H3. cbv beta iota. rewrite H4. reflexivity.
  - intros a Hpa. split.
    + intros Ha. destruct (R4 a Ha) as [Hm0|Hre]; [| exact Hre].
      unfold m0 in Hm0. rewrite Hunm in Hm0. discriminate.
    + intros Hre. apply (reachable_mark_extends _ _ roots a E04) in Hre.
      apply (reachable_marked m4 roots C4); [| exact Hre].
      intros r Hin Hp. unfold roots, gc_roots in Hin.
      rewrite !elem_of_app in Hin. destruct Hin as [Hin|[Hin|Hin]].
      * eapply mark_extends_marked; [exact E4 |].
        eapply mark_extends_marked; [exact E3 |].
        eapply mark_extends_marked; [exact E2 |].
        eapply mark_each_marks; eauto.
      * eapply mark_extends_marked; [exact E4 |].
        eapply mark_extends_marked; [exact E3 |].
        eapply mark_each_marks; eauto.
      * apply elem_of_cons in Hin as [->|Hin].
        -- eapply mark_extends_marked; [exact E4 |]. eapply mark_marks; eauto.
        -- apply list_elem_of_singleton in Hin as ->. eapply mark_marks; eauto.
Qed.

(** The mark phase of a collection visits no cell twice. *)
Lemma mark_phase_log_fresh fuel vm mm m log :
  mark_phase fuel vm mm = Ok (m, log) -> log_fresh (memory mm) m log.
Proof.
  unfold mark_phase. intros H.
  bind_inv H. destruct r as [m1 l1]. bind_inv H. destruct r as [m2 l2].
  bind_inv H. destruct r as [m3 l3]. bind_inv H. destruct r as [m4 l4].
  injection H as <- <-.
  pose proof (mark_each_mark_extends _ _ _ _ _ Hr) as E1.
  pose proof (mark_each_mark_extends _ _ _ _ _ Hr0) as E2.
  pose proof (mark_mark_extends _ _ _ _ _ Hr1) as E3.
  pose proof (mark_mark_extends _ _ _ _ _ Hr2) as E4.
  pose proof (mark_each_log_fresh fuel _ (mark_log_fresh fuel) _ _ _ Hr) as F1.
  pose proof (mark_each_log_fresh fuel _ (mark_log_fresh fuel) _ _ _ Hr0) as F2.
  pose proof (mark_log_fresh _ _ _ _ _ Hr1) as F3.
  pose proof (mark_log_fresh _ _ _ _ _ Hr2) as F4.
  apply (log_fresh_app _ m1); auto.
  { eauto using mark_extends_trans. }
  apply (log_fresh_app _ m2); auto.
  { eauto using mark_extends_trans. }
  apply (log_fresh_app _ m3); auto.
Qed.

(** ** [collect] *)

Lemma cell_type_extends m m' a :
  mark_extends m m' -> cell_type m' a = cell_type m a.
Proof.
  intros Hext. unfold cell_type. destruct (Hext a) as [->|(c & -> & _ & ->)]; [reflexivity |].
  simpl. now rewrite Basic_type_set_mark.
Qed.

Lemma collect_spec cfg vm mm :
  gc_wf cfg vm mm ->
  exists mm' freed l l',
    collect cfg vm mm = Ok mm'
    /\ temporaries mm' = temporaries mm /\ heaps mm' = heaps mm /\ brk mm' = brk mm
    /\ out mm' = out mm ++ [GCPause; GCFreed freed; GCFinished]
    /\ (forall a, memory mm !! a = None -> memory mm' !! a = None)
    /\ (forall a c, memory mm !! a = Some c ->
          exists c', memory mm' !! a = Some c'
                     /\ collected (reachable (memory mm) (gc_roots vm mm) a) c c')
    /\ free_list (memory mm) (free_cell mm) l
    /\ free_list (memory mm') (free_cell mm') l'
    /\ (forall a, a ∈ l' <->
          a ∈ l \/ (~ reachable (memory mm) (gc_roots vm mm) a
                    /\ exists c, memory mm !! a = Some c
                                 /\ Basic_type (basic c) <> kTypeDead)).
Proof.
  intros [Hcl Hclean Hflags Hunm Hroots Hcells Hnd Hptr (l0 & Hfl0 & Hdead0 & Hunr0)].
  destruct (mark_phase_spec vm mm Hcl Hroots Hunm) as (m4 & log & Hmp & Hext & Hiff).
  set (roots := gc_roots vm mm) in *.
  set (mm1 := mm_set_memory (mm_print mm GCPause) m4).
  assert (Hm4 : forall a c, memory mm !! a = Some c ->
            (is_marked m4 a = true /\ m4 !! a = Some (cell_set_mark c true))
            \/ (is_marked m4 a = false /\ m4 !! a = Some c)).
  { intros a c Hc. pose proof (Hunm a) as Hu. unfold is_marked in Hu |- *. rewrite Hc in Hu.
    destruct (Hext a) as [E|(c0 & Hc0 & _ & E)]; rewrite E.
    - right. rewrite Hc. auto.
    - left. rewrite Hc in Hc0. injection Hc0 as <-. rewrite cell_set_mark_mark. auto. }
  destruct (sweep_spec (all_cells cfg (heaps mm)) mm1 0 l0 Hnd)
    as (mm' & n' & l' & Hsw & Ht & Hh & Hb & Ho & Hout & Hin & Hfl' & Hl').
  { intros a Ha. apply Hcells in Ha. split.
    - apply is_pointer_nonzero. now apply Hptr.
    - destruct Ha as [c Hc]. simpl.
      destruct (Hm4 a c Hc) as [[_ E]|[_ E]]; rewrite E; eexists; split; eauto.
      rewrite clean_set_mark. eauto. }
  { simpl. intros a Ha Hm Htmp.
    assert (Hpa : is_pointer a = true) by now apply Hptr, Hcells.
    assert (Hre : reachable (memory mm) roots a).
    { apply reachable_root; [| exact Hpa]. unfold roots, gc_roots.
      apply elem_of_app. right. apply elem_of_app. now left. }
    apply (Hiff a Hpa) in Hre. congruence. }
  { simpl. now apply (free_list_extends (memory mm)). }
  { simpl. intros a Ha _. rewrite (cell_type_extends _ _ a Hext). now apply Hdead0. }
  exists (mm_print (mm_print mm' (GCFreed n')) GCFinished), n', l0, l'.
  split; [| split; [| split; [| split; [| split; [| split; [| split; [| split; [| split]]]]]]]].
  - unfold collect.
    change (mark_phase (mark_budget (memory (mm_print mm GCPause))) vm (mm_print mm GCPause))
      with (mark_phase (mark_budget (memory mm)) vm mm).
    rewrite Hmp. unfold mbind, Result_bind. cbv beta iota.
    unfold sweep_phase. fold mm1.
    change (heaps mm1) with (heaps mm). rewrite Hsw. reflexivity.
  - simpl. exact Ht.
  - simpl. exact Hh.
  - simpl. exact Hb.
  - simpl. rewrite Ho. simpl. rewrite <- !app_assoc. reflexivity.
  - simpl. intros a Hnone. rewrite Hout.
    + simpl. destruct (Hext a) as [E|(c & Hc & _)]; congruence.
    + intros Ha. apply Hcells in Ha. rewrite Hnone in Ha. now destruct Ha.
  - simpl. intros a c Hc.
    assert (Ha : a ∈ all_cells cfg (heaps mm)) by (apply Hcells; eauto).
    assert (Hpa : is_pointer a = true) by (apply Hptr; eauto).
    destruct (Hm4 a c Hc) as [[Hm E]|[Hm E]].
    + destruct (Hin a _ Ha E) as (c' & Hc' & Hswept).
      exists c'. split; [exact Hc' |].
      unfold swept_cell in Hswept. rewrite cell_set_mark_mark in Hswept. subst c'.
      pose proof (Hunm a) as Hu. unfold is_marked in Hu. rewrite Hc in Hu.
      rewrite (cell_set_mark_false_id c Hu (Hflags a c Hc)).
      left. split; [now apply (Hiff a Hpa) | reflexivity].
    + destruct (Hin a _ Ha E) as (c' & Hc' & Hswept).
      exists c'. split; [exact Hc' |].
      pose proof (Hunm a) as Hu. unfold is_marked in Hu. rewrite Hc in Hu.
      unfold swept_cell in Hswept. rewrite Hu in Hswept.
      right. split.
      * intros Hre. apply (Hiff a Hpa) in Hre. congruence.
      * destruct (Basic_type (basic c) =? kTypeDead); exact Hswept.
  - exact Hfl0.
  - simpl. exact Hfl'.
  - intros a. rewrite (Hl' a). simpl.
    split; (intros [Hl|Hfreed]; [now left | right]).
    + destruct Hfreed as (Ha & Hm & Hty).
      assert (Hpa : is_pointer a = true) by now apply Hptr, Hcells.
      split.
      * intros Hre. apply (Hiff a Hpa) in Hre. congruence.
      * apply Hcells in Ha as [c Hc]. exists c. split; [exact Hc |].
        rewrite (cell_type_extends _ _ a Hext) in Hty. unfold cell_type in Hty.
        rewrite Hc in Hty. simpl in Hty. congruence.
    + destruct Hfreed as (Hnr & c & Hc & Hty).
      assert (Hpa : is_pointer a = true) by (apply Hptr; eauto).
      split; [apply Hcells; eauto |]. split.
      * destruct (is_marked m4 a) eqn:Hm; [| reflexivity].
        exfalso. apply Hnr. now apply (Hiff a Hpa).
      * rewrite (cell_type_extends _ _ a Hext). unfold cell_type. rewrite Hc. simpl.
        congruence.
Qed.

Lemma collected_reachable m m' roots :
  (forall a, m !! a = None -> m' !! a = None) ->
  (forall a c, m !! a = Some c ->
     exists c', m' !! a = Some c' /\ collected (reachable m roots a) c c') ->
  forall a, reachable m' roots a <-> reachable m roots a.
Proof.
  intros Hnone Hsome.
  assert (Hkeep : forall b c, reachable m roots b -> m !! b = Some c -> m' !! b = Some c).
  { intros b c Hb Hc. destruct (Hsome b c Hc) as (c' & Hc' & [[_ ->]|[Hn _]]); tauto. }
  intros a. split; intros Hr; induction Hr as [v Hin Hp|b v _ IH He].
  - now apply reachable_root.
  - eapply reachable_step; [exact IH |].
    destruct He as (c' & vs & Hc' & Hch & Hv & Hp).
    destruct (m !! b) as [c|] eqn:Hc.
    + rewrite (Hkeep b c IH Hc) in Hc'. injection Hc' as <-. exists c, vs. auto.
    + rewrite (Hnone b Hc) in Hc'. discriminate.
  - now apply reachable_root.
  - eapply reachable_step; [exact IH |].
    destruct He as (c & vs & Hc & Hch & Hv & Hp).
    exists c, vs. split; [| auto]. apply Hkeep; auto.
    clear -IH Hnone Hsome Hkeep. induction IH as [v Hin Hp|b v _ IH He].
    + now apply reachable_root.
    + eapply reachable_step; [exact IH |].
      destruct He as (c & vs & Hc & Hch & Hv & Hp).
      destruct (m !! b) as [c0|] eqn:Hc0.
      * rewrite (Hkeep b c0 IH Hc0) in Hc. injection Hc as <-. exists c0, vs. auto.
      * rewrite (Hnone b Hc0) in Hc. discriminate.
Qed.

Lemma zero_cell_children next : mark_children (mkCell (mkBasic 0) (AsFree next)) = Ok [].
Proof. reflexivity. Qed.

Lemma on_free_list_iff mm l a :
  free_list (memory mm) (free_cell mm) l -> on_free_list mm a <-> a ∈ l.
Proof.
  intros Hfl. split.
  - intros (l2 & Hfl2 & Hin). now rewrite (free_list_unique _ _ _ Hfl _ Hfl2).
  - intros Hin. exists l. auto.
Qed.

(** A collection re-establishes what it relies on. *)
Lemma collect_preserves_wf cfg vm mm mm' :
  gc_wf cfg vm mm -> collect cfg vm mm = Ok mm' -> gc_wf cfg vm mm'.
Proof.
  intros Hwf Hcol.
  destruct (collect_spec cfg vm mm Hwf)
    as (mm2 & freed & l & l' & Hcol2 & Ht & Hh & Hb & Ho & Hnone & Hsome & Hfl & Hfl' & Hl').
  rewrite Hcol in Hcol2. injection Hcol2 as <-.
  destruct Hwf as [Hcl Hclean Hflags Hunm Hroots Hcells Hnd Hptr (l0 & Hfl0 & Hdead0 & Hunr0)].
  rewrite (free_list_unique _ _ _ Hfl0 _ Hfl) in Hdead0, Hunr0. clear l0 Hfl0.
  assert (Hroots_eq : gc_roots vm mm' = gc_roots vm mm).
  { unfold gc_roots. now rewrite Ht. }
  assert (Hdom : forall a, is_Some (memory mm' !! a) <-> is_Some (memory mm !! a)).
  { intros a. destruct (memory mm !! a) as [c|] eqn:Hc.
    - destruct (Hsome a c Hc) as (c' & -> & _). split; eauto.
    - rewrite (Hnone a Hc). tauto. }
  assert (Hcase : forall a c', memory mm' !! a = Some c' ->
            memory mm !! a = Some c' \/ exists next, c' = mkCell (mkBasic 0) (AsFree next)).
  { intros a c' Hc'. destruct (memory mm !! a) as [c|] eqn:Hc.
    - destruct (Hsome a c Hc) as (c2 & Hc2 & Hcoll). rewrite Hc' in Hc2. injection Hc2 as <-.
      destruct Hcoll as [[_ ->]|[_ Hd]]; [now left |].
      destruct (Basic_type (basic c) =? kTypeDead); [subst; now left | now right].
    - rewrite (Hnone a Hc) in Hc'. discriminate. }
  pose proof (collected_reachable _ _ (gc_roots vm mm) Hnone Hsome) as Hreach.
  constructor.
  - intros a c' Hc'. destruct (Hcase a c' Hc') as [Hc|(next & ->)].
    + destruct (Hcl a c' Hc) as (vs & Hch & Hval). exists vs. split; [exact Hch |].
      intros v Hv Hp. apply Hdom. auto.
    + exists []. split; [reflexivity |]. intros v Hv. inversion Hv.
  - intros a c' Hc'. destruct (Hcase a c' Hc') as [Hc|(next & ->)]; [eauto | reflexivity].
  - intros a c' Hc'. destruct (Hcase a c' Hc') as [Hc|(next & ->)]; [eauto | simpl; lia].
  - intros a. unfold is_marked. destruct (memory mm' !! a) as [c'|] eqn:Hc'; [| reflexivity].
    destruct (Hcase a c' Hc') as [Hc|(next & ->)]; [| reflexivity].
    pose proof (Hunm a) as Hu. unfold is_marked in Hu. now rewrite Hc in Hu.
  - rewrite Hroots_eq. intros v Hv Hp. apply Hdom. auto.
  - intros a. rewrite Hh, Hdom. apply Hcells.
  - now rewrite Hh.
  - intros a Ha. apply Hptr, Hdom, Ha.
  - exists l'. split; [exact Hfl' |]. rewrite Hroots_eq. split.
    + intros a Ha. apply Hl' in Ha as [Ha|(Hnr & c & Hc & Hty)].
      * pose proof (Hdead0 a Ha) as Hd. unfold cell_type in Hd |- *.
        destruct (memory mm !! a) as [c|] eqn:Hc; [| discriminate].
        simpl in Hd. injection Hd as Hd.
        destruct (Hsome a c Hc) as (c' & -> & [[_ ->]|[_ Hcoll]]); simpl; [now rewrite Hd |].
        rewrite Hd in Hcoll. simpl in Hcoll. subst c'. now rewrite Hd.
      * unfold cell_type.
        destruct (Hsome a c Hc) as (c' & -> & [[Hre _]|[_ Hcoll]]); [contradiction |].
        destruct (Z.eqb_spec (Basic_type (basic c)) kTypeDead); [contradiction |].
        destruct Hcoll as (next & ->). reflexivity.
    + intros a Ha Hre. apply Hreach in Hre.
      apply Hl' in Ha as [Ha|(Hnr & _)]; [now apply (Hunr0 a) | contradiction].
Qed.

(** After a collection that starts from a well-formed state, no cell is both
    on the free list and reached from the four roots of the mark phase along
    the references [mark] follows, no cell carries the mark, every cell on
    the free list is dead, the cells the cycle added to the list having all
    their bytes zeroed but the link; and the state is again well-formed. *)
Lemma collect_invariant (cfg : GCConfig) (vm : VM) (mm : MemoryManager) :
  gc_wf cfg vm mm ->
  exists mm',
    collect cfg vm mm = Ok mm'
    /\ (forall a, ~ (reachable (memory mm') (gc_roots vm mm') a /\ on_free_list mm' a))
    /\ (forall a, is_marked (memory mm') a = false)
    /\ (forall a, on_free_list mm' a -> cell_type (memory mm') a = Some kTypeDead)
    /\ (forall a, on_free_list mm' a -> ~ on_free_list mm a ->
          exists next, memory mm' !! a = Some (mkCell (mkBasic 0) (AsFree next)))
    /\ gc_wf cfg vm mm'.
Proof.
  intros Hwf.
  destruct (collect_spec cfg vm mm Hwf)
    as (mm' & freed & l & l' & Hcol & Ht & Hh & Hb & Ho & Hnone & Hsome & Hfl & Hfl' & Hl').
  pose proof (collect_preserves_wf cfg vm mm mm' Hwf Hcol) as Hwf'.
  exists mm'. split; [exact Hcol |].
  destruct Hwf' as [_ _ _ Hunm' _ _ _ _ (l2 & Hfl2 & Hdead2 & Hunr2)].
  pose proof (collect_preserves_wf cfg vm mm mm' Hwf Hcol) as Hwf'.
  rewrite (free_list_unique _ _ _ Hfl2 _ Hfl') in Hdead2, Hunr2.
  split; [| split; [exact Hunm' | split; [| split; [| exact Hwf']]]].
  - intros a [Hre Hon]. apply (on_free_list_iff mm' l' a Hfl') in Hon.
    now apply (Hunr2 a).
  - intros a Hon. apply (on_free_list_iff mm' l' a Hfl') in Hon. auto.
  - intros a Hon Hnot. apply (on_free_list_iff mm' l' a Hfl') in Hon.
    apply Hl' in Hon as [Ha|(Hnr & c & Hc & Hty)].
    + exfalso. apply Hnot. now apply (on_free_list_iff mm l a Hfl).
    + destruct (Hsome a c Hc) as (c' & -> & [[Hre _]|[_ Hcoll]]); [contradiction |].
      destruct (Z.eqb_spec (Basic_type (basic c)) kTypeDead); [contradiction |].
      destruct Hcoll as (next & ->). eauto.
Qed.

(** The references [mark] passes on are the named ones. *)
Lemma mark_children_refers c vs v :
  mark_children c = Ok vs -> (v ∈ vs <-> refers c v).
Proof.
  unfold mark_children. intros H.
  destruct (Z.eqb_spec (Basic_type (basic c)) kTypeObject) as [T1|T1].
  { destruct (as_ c) eqn:Has; try discriminate. injection H as <-. split.
    - intros Hv. apply elem_of_cons in Hv as [->|Hv].
      + eapply refers_object_klass; eauto.
      + eapply refers_object_container; eauto.
    - intros Hr. inversion Hr; try congruence;
        match goal with
        | E : as_ c = AsObject _ |- _ => rewrite Has in E; injection E as <-
        end; subst; [apply list_elem_of_here | now apply list_elem_of_further]. }
  destruct (Z.eqb_spec (Basic_type (basic c)) kTypeArray) as [T2|T2].
  { destruct (as_ c) eqn:Has; try discriminate. injection H as <-. split.
    - intros Hv. eapply refers_array_data; eauto.
    - intros Hr. inversion Hr; try congruence;
        match goal with
        | E : as_ c = AsArray _ |- _ => rewrite Has in E; injection E as <-
        end; assumption. }
  destruct (Z.eqb_spec (Basic_type (basic c)) kTypeFunction) as [T3|T3].
  { destruct (as_ c) eqn:Has; try discriminate. injection H as <-. split.
    - intros Hv. apply elem_of_cons in Hv as [->|Hv]; [eapply refers_function_context; eauto |].
      apply elem_of_cons in Hv as [->|Hv]; [eapply refers_function_block; eauto |].
      destruct (Function.bound_self_set function) eqn:Hb; [| inversion Hv].
      apply list_elem_of_singleton in Hv as ->. eapply refers_function_bound_self; eauto.
    - intros Hr. inversion Hr; try congruence;
        match goal with
        | E : as_ c = AsFunction _ |- _ => rewrite Has in E; injection E as <-
        end; subst.
      + apply list_elem_of_here.
      + apply list_elem_of_further, list_elem_of_here.
      + do 2 apply list_elem_of_further.
        match goal with E : Function.bound_self_set _ = true |- _ => rewrite E end.
        apply list_elem_of_here. }
  destruct (Z.eqb_spec (Basic_type (basic c)) kTypeCFunction) as [T4|T4].
  { destruct (as_ c) eqn:Has; try discriminate. injection H as <-. split.
    - intros Hv. destruct (CFunction.bound_self_set cfunction) eqn:Hb; [| inversion Hv].
      apply list_elem_of_singleton in Hv as ->. eapply refers_cfunction_bound_self; eauto.
    - intros Hr. inversion Hr; try congruence;
        match goal with
        | E : as_ c = AsCFunction _ |- _ => rewrite Has in E; injection E as <-
        end; subst.
      match goal with E : CFunction.bound_self_set _ = true |- _ => rewrite E end.
      apply list_elem_of_here. }
  destruct (Z.eqb_spec (Basic_type (basic c)) kTypeFrame) as [T5|T5].
  { destruct (as_ c) eqn:Has; try discriminate. injection H as <-. split.
    - intros Hv. apply elem_of_cons in Hv as [->|Hv]; [eapply refers_frame_parent; eauto |].
      apply elem_of_cons in Hv as [->|Hv];
        [eapply refers_frame_parent_environment_frame; eauto |].
      apply elem_of_cons in Hv as [->|Hv]; [eapply refers_frame_function; eauto |].
      apply elem_of_cons in Hv as [->|Hv]; [eapply refers_frame_self; eauto |].
      eapply refers_frame_environment; eauto.
    - intros Hr. inversion Hr; try congruence;
        match goal with
        | E : as_ c = AsFrame _ |- _ => rewrite Has in E; injection E as <-
        end; subst.
      + apply list_elem_of_here.
      + apply list_elem_of_further, list_elem_of_here.
      + do 2 apply list_elem_of_further. apply list_elem_of_here.
      + do 3 apply list_elem_of_further. apply list_elem_of_here.
      + now do 4 apply list_elem_of_further. }
  destruct (Z.eqb_spec (Basic_type (basic c)) kTypeCatchTable) as [T6|T6].
  { destruct (as_ c) eqn:Has; try discriminate. injection H as <-. split.
    - intros Hv. apply elem_of_cons in Hv as [->|Hv]; [eapply refers_catchtable_frame; eauto |].
      apply list_elem_of_singleton in Hv as ->. eapply refers_catchtable_parent; eauto.
    - intros Hr. inversion Hr; try congruence;
        match goal with
        | E : as_ c = AsCatchTable _ |- _ => rewrite Has in E; injection E as <-
        end; subst.
      + apply list_elem_of_here.
      + apply list_elem_of_further, list_elem_of_here. }
  destruct (Z.eqb_spec (Basic_type (basic c)) kTypeInstructionBlock) as [T7|T7].
  { destruct (as_ c) eqn:Has; try discriminate. injection H as <-. split.
    - intros Hv. eapply refers_block_child; eauto.
    - intros Hr. inversion Hr; try congruence;
        match goal with
        | E : as_ c = AsInstructionBlock _ |- _ => rewrite Has in E; injection E as <-
        end; assumption. }
  injection H as <-. split; [intros Hv; inversion Hv |].
  intros Hr. inversion Hr; congruence.
Qed.

(** On a closed heap the chains of named references are the chains [mark]
    follows. *)
Lemma traced_reachable m roots a :
  heap_closed m -> (traced m roots a <-> reachable m roots a).
Proof.
  intros Hcl. split; intros H.
  - induction H as [v Hin Hp|a c v _ IH Hc Hr Hp]; [now apply reachable_root |].
    eapply reachable_step; [exact IH |].
    destruct (Hcl a c Hc) as (vs & Hch & _). exists c, vs.
    split; [exact Hc |]. split; [exact Hch |]. split; [| exact Hp].
    now apply (mark_children_refers c vs v Hch).
  - induction H as [v Hin Hp|a v _ IH (c & vs & Hc & Hch & Hv & Hp)];
      [now apply traced_root |].
    eapply traced_step; eauto. now apply (mark_children_refers c vs v Hch).
Qed.

(** Marking a concatenation is marking its parts in turn. *)
Lemma mark_each_app rec xs ys m :
  mark_each rec (xs ++ ys) m
  = '(m1, l1) ← mark_each rec xs m; '(m2, l2) ← mark_each rec ys m1; Ok (m2, l1 ++ l2).
Proof.
  revert m. induction xs as [|x xs IH]; intros m; simpl.
  - destruct (mark_each rec ys m) as [[m2 l2]| | |]; reflexivity.
  - destruct (rec x m) as [[m1 l1]| | |]; simpl; try reflexivity.
    rewrite IH. destruct (mark_each rec xs m1) as [[m2 l2]| | |]; simpl; try reflexivity.
    destruct (mark_each rec ys m2) as [[m3 l3]| | |]; simpl; try reflexivity.
    now rewrite app_assoc.
Qed.

(** The four loops of the mark phase are one pass over the stack, the
    temporaries, the frame chain and the catch-table chain. *)
Lemma mark_phase_roots fuel vm mm :
  mark_phase fuel vm mm
  = mark_each (mark fuel) (stack vm ++ temporaries mm ++ [frames vm; catchstack vm]) (memory mm).
Proof.
  unfold mark_phase. rewrite mark_each_app.
  destruct (mark_each (mark fuel) (stack vm) (memory mm)) as [[m1 l1]| | |]; simpl; try reflexivity.
  rewrite mark_each_app.
  destruct (mark_each (mark fuel) (temporaries mm) m1) as [[m2 l2]| | |]; simpl; try reflexivity.
  destruct (mark fuel (frames vm) m2) as [[m3 l3]| | |]; simpl; try reflexivity.
  destruct (mark fuel (catchstack vm) m3) as [[m4 l4]| | |]; simpl; try reflexivity.
  now rewrite app_nil_r.
Qed.

(** C1, as the code has it: the mark phase of a collection marks, in this
    order, the values on the operand stack, the temporaries, the frame chain
    and the catch-table chain, and nothing else.  On a well-formed heap the
    collection completes, and every cell these roots reach by the named
    references is a cell of the heap that comes out of the collection
    unchanged and off the free list. *)
Theorem collect_roots (cfg : GCConfig) (vm : VM) (mm : MemoryManager) :
  gc_wf cfg vm mm ->
  (forall fuel,
     mark_phase fuel vm mm
     = mark_each (mark fuel) (stack vm ++ temporaries mm ++ [frames vm; catchstack vm])
         (memory mm))
  /\ exists mm',
       collect cfg vm mm = Ok mm'
       /\ forall a,
            traced (memory mm) (stack vm ++ temporaries mm ++ [frames vm; catchstack vm]) a ->
            memory mm' !! a = memory mm !! a /\ is_Some (memory mm !! a)
            /\ ~ on_free_list mm' a.
Proof.
  intros Hwf. split; [intros fuel; apply mark_phase_roots |].
  destruct (collect_spec cfg vm mm Hwf)
    as (mm' & freed & l & l' & Hcol & Ht & Hh & Hb & Ho & Hnone & Hsome & Hfl & Hfl' & Hl').
  exists mm'. split; [exact Hcol |].
  destruct Hwf as [Hcl _ _ _ Hroots _ _ _ (l0 & Hfl0 & Hdead0 & Hunr0)].
  rewrite (free_list_unique _ _ _ Hfl0 _ Hfl) in Hdead0, Hunr0.
  intros a Htr. apply (traced_reachable _ _ a Hcl) in Htr.
  change (stack vm ++ temporaries mm ++ [frames vm; catchstack vm])
    with (gc_roots vm mm) in Htr.
  assert (Hsome_a : is_Some (memory mm !! a)).
  { inversion Htr as [v Hin Hp|b v Hb' He]; subst.
    - now apply Hroots.
    - destruct He as (cb & vs & Hcb & Hch & Hv & Hp).
      destruct (Hcl b cb Hcb) as (vs' & Hch' & Hval).
      rewrite Hch in Hch'. injection Hch' as <-. auto. }
  split; [| split; [exact Hsome_a |]].
  - destruct Hsome_a as [c Hc].
    destruct (Hsome a c Hc) as (c' & -> & [[_ ->]|[Hn _]]); [now rewrite Hc | contradiction].
  - intros Hon. apply (on_free_list_iff mm' l' a Hfl') in Hon.
    apply Hl' in Hon as [Ha|(Hnr & _)]; [now apply (Hunr0 a) | contradiction].
Qed.

(** ** Deciding well-formedness *)

Lemma forallb_map_to_list (f : Z * MemoryCell -> bool) (m : Memory) :
  forallb f (map_to_list m) = true -> forall a c, m !! a = Some c -> f (a, c) = true.
Proof.
  rewrite forallb_forall. intros H a c Hc. apply H.
  apply list_elem_of_In. now apply elem_of_map_to_list.
Qed.

Lemma forallb_elem_of {A : Type} (f : A -> bool) (l : list A) :
  forallb f l = true -> forall x, x ∈ l -> f x = true.
Proof. rewrite forallb_forall. intros H x Hx. apply H. now apply list_elem_of_In. Qed.

Lemma existsb_eqb_elem_of (x : Z) (l : list Z) : existsb (Z.eqb x) l = true <-> x ∈ l.
Proof.
  rewrite existsb_exists. split.
  - intros (y & Hy & E). apply Z.eqb_eq in E as ->. now apply list_elem_of_In.
  - intros Hx. exists x. split; [now apply list_elem_of_In | apply Z.eqb_refl].
Qed.

Lemma nodupb_spec l : nodupb l = true -> NoDup l.
Proof.
  induction l as [|x l IH]; simpl; intros H; [constructor |].
  apply andb_true_iff in H as [Hx Hl]. apply NoDup_cons. split; [| auto].
  intros Hin. apply existsb_eqb_elem_of in Hin. rewrite Hin in Hx. discriminate.
Qed.

Lemma free_chain_spec m fuel : forall p l, free_chain m fuel p = Some l -> free_list m p l.
Proof.
  induction fuel as [|fuel IH]; intros p l; simpl.
  - destruct (Z.eqb_spec p 0) as [->|]; [| discriminate]. intros [= <-]. constructor.
  - destruct (Z.eqb_spec p 0) as [->|Hp]; [intros [= <-]; constructor |].
    destruct (m !! p) as [c|] eqn:Hc; [| discriminate].
    destruct (as_ c) eqn:Has; try discriminate.
    destruct (free_chain m fuel next) as [l'|] eqn:Hch; [| discriminate].
    simpl. intros [= <-]. eapply free_list_cons; eauto.
Qed.

Lemma gc_wfb_spec cfg vm mm : gc_wfb cfg vm mm = true -> gc_wf cfg vm mm.
Proof.
  unfold gc_wfb. rewrite !andb_true_iff.
  intros [[[[[[[[[H1 H2] H3] H4] H5] H6] H7] H8] H9] H10].
  pose proof (heap_closedb_spec _ H1) as Hcl.
  pose proof (roots_validb_spec _ _ H5) as Hroots.
  assert (Hunm : forall a, is_marked (memory mm) a = false).
  { intros a. unfold is_marked. destruct (memory mm !! a) as [c|] eqn:Hc; [| reflexivity].
    apply (forallb_map_to_list _ _ H4) in Hc. now apply negb_true_iff in Hc. }
  assert (Hptr : forall a, is_Some (memory mm !! a) -> is_pointer a = true).
  { intros a [c Hc]. apply (forallb_map_to_list _ _ H9 a c Hc). }
  constructor; auto.
  - intros a c Hc. apply (forallb_map_to_list _ _ H2) in Hc. simpl in Hc.
    destruct (clean c) as [[]| | |]; congruence.
  - intros a c Hc. apply (forallb_map_to_list _ _ H3) in Hc. simpl in Hc.
    apply andb_true_iff in Hc as [Ha Hb]. lia.
  - intros a. split.
    + intros [c Hc]. apply (forallb_map_to_list _ _ H7) in Hc.
      now apply existsb_eqb_elem_of in Hc.
    + intros Ha. apply (forallb_elem_of _ _ H6) in Ha. now apply bool_decide_eq_true in Ha.
  - now apply nodupb_spec.
  - destruct (free_chain (memory mm) (size (memory mm)) (free_cell mm)) as [l|] eqn:Hch;
      [| discriminate].
    destruct (mark_phase_spec vm mm Hcl Hroots Hunm) as (m4 & log & Hmp & _ & Hiff).
    rewrite Hmp in H10. apply andb_true_iff in H10 as [Hd Hu].
    exists l. split; [eapply free_chain_spec; eauto |]. split.
    + intros a Ha. apply (forallb_elem_of _ _ Hd) in Ha.
      destruct (cell_type (memory mm) a) as [ty|]; [| discriminate].
      apply Z.eqb_eq in Ha. now subst.
    + intros a Ha Hre. apply (forallb_elem_of _ _ Hu) in Ha.
      apply andb_true_iff in Ha as [Hp Hm]. apply (Hiff a Hp) in Hre.
      rewrite Hre in Hm. discriminate.
Qed.

Lemma collect_roots_witness :
  (forall fuel,
     mark_phase fuel scheduler_vm scheduler_mm
     = mark_each (mark fuel)
         (stack scheduler_vm ++ temporaries scheduler_mm
          ++ [frames scheduler_vm; catchstack scheduler_vm])
         (memory scheduler_mm))
  /\ exists mm',
       collect small_config scheduler_vm scheduler_mm = Ok mm'
       /\ forall a,
            traced (memory scheduler_mm)
              (stack scheduler_vm ++ temporaries scheduler_mm
               ++ [frames scheduler_vm; catchstack scheduler_vm]) a ->
            memory mm' !! a = memory scheduler_mm !! a
            /\ is_Some (memory scheduler_mm !! a)
            /\ ~ on_free_list mm' a.
Proof.
  apply (collect_roots small_config scheduler_vm scheduler_mm).
  apply gc_wfb_spec. vm_compute. reflexivity.
Defined.

Example collect_invariant_on_scheduler :
  exists mm',
    collect small_config scheduler_vm scheduler_mm = Ok mm'
    /\ (forall a, ~ (reachable (memory mm') (gc_roots scheduler_vm mm') a
                     /\ on_free_list mm' a))
    /\ (forall a, is_marked (memory mm') a = false)
    /\ (forall a, on_free_list mm' a -> cell_type (memory mm') a = Some kTypeDead)
    /\ (forall a, on_free_list mm' a -> ~ on_free_list scheduler_mm a ->
          exists next, memory mm' !! a = Some (mkCell (mkBasic 0) (AsFree next)))
    /\ gc_wf small_config scheduler_vm mm'.
Proof.
  apply (collect_invariant small_config scheduler_vm scheduler_mm).
  apply gc_wfb_spec. vm_compute. reflexivity.
Defined.

(** C1 as the claim has it fails, in three ways.  On [scheduler_mm], a
    well-formed heap, the function at 4416 is the callback of a queued task
    and of a pending timer, the object at 4352 the argument of the timer, the
    class at 4288 a primitive class: the collection frees the three of them.
    On [dangling_mm], a well-formed heap, the function at 4480 is on the
    operand stack and its container holds the object at 4352: the collection
    frees the object and leaves the function holding its address.  On
    [stale_mark_mm], where the frame of the frame chain carries a mark, the
    collection frees the object at 4416, which is local 0 of that frame. *)
Lemma collect_frees_held_values :
  (task_queue scheduler_vm = [mkVMTask 0 4416 kNull]
   /\ timers scheduler_vm = [(1000, mkVMTask 1 4416 4352)]
   /\ primitive_object scheduler_vm = 4288
   /\ gc_wfb small_config scheduler_vm scheduler_mm = true
   /\ cell_type (memory scheduler_mm) 4416 = Some kTypeFunction
   /\ cell_type (memory scheduler_mm) 4352 = Some kTypeObject
   /\ cell_type (memory scheduler_mm) 4288 = Some kTypeClass
   /\ match collect small_config scheduler_vm scheduler_mm with
      | Ok mm' =>
          cell_type (memory mm') 4416 = Some kTypeDead
          /\ cell_type (memory mm') 4352 = Some kTypeDead
          /\ cell_type (memory mm') 4288 = Some kTypeDead
          /\ free_chain (memory mm') 8 (free_cell mm') = Some [4416; 4352; 4288; 4096]
      | _ => False
      end)
  /\ (stack dangling_vm = [4480] /\ frames dangling_vm = 4544
      /\ gc_wfb small_config dangling_vm dangling_mm = true
      /\ memory dangling_mm !! 4480 = Some (sample_function 0 0 None [(12, 4352)])
      /\ cell_type (memory dangling_mm) 4352 = Some kTypeObject
      /\ match collect small_config dangling_vm dangling_mm with
         | Ok mm' =>
             memory mm' !! 4480 = Some (sample_function 0 0 None [(12, 4352)])
             /\ cell_type (memory mm') 4352 = Some kTypeDead
         | _ => False
         end)
  /\ (frames dangling_vm = 4544
      /\ memory stale_mark_mm !! 4544
         = Some (cell_set_mark (sample_frame 0 0 0 4480 kNull [4416]) true)
      /\ cell_type (memory stale_mark_mm) 4416 = Some kTypeObject
      /\ match collect small_config dangling_vm stale_mark_mm with
         | Ok mm' => cell_type (memory mm') 4416 = Some kTypeDead
         | _ => False
         end).
Proof. vm_compute. repeat split. Qed.

(** C7 fails on the code: [dangling_mm] is well-formed, the frame at 4544 is
    the frame chain and the function at 4480 is on the operand stack.  After
    the collection the frame, the function, the object at 4416 and its class
    at 4288 are as they were, and the free list is 4352, 4224, 4160, 4096:
    the object at 4352 is on it, zeroed, while the container of the function
    still holds 4352, and so is the object at 4224 while the class still
    names it as its prototype. *)
Lemma collect_frees_referenced_cells :
  gc_wfb small_config dangling_vm dangling_mm = true
  /\ stack dangling_vm = [4480] /\ frames dangling_vm = 4544
  /\ match collect small_config dangling_vm dangling_mm with
     | Ok mm' =>
         memory mm' !! 4544 = Some (sample_frame 0 0 0 4480 kNull [4416])
         /\ memory mm' !! 4480 = Some (sample_function 0 0 None [(12, 4352)])
         /\ memory mm' !! 4416 = Some (sample_object 4288 [])
         /\ memory mm' !! 4288
            = Some (mkCell (mkBasic kTypeClass) (AsClass (Class.mk 0 kNull [] 4224 kNull [])))
         /\ free_chain (memory mm') 8 (free_cell mm') = Some [4352; 4224; 4160; 4096]
         /\ memory mm' !! 4352 = Some (mkCell (mkBasic 0) (AsFree 4224))
         /\ memory mm' !! 4224 = Some (mkCell (mkBasic 0) (AsFree 4160))
         /\ out mm' = [GCPause; GCFreed 2; GCFinished]
     | _ => False
     end.
Proof. vm_compute. repeat split. Qed.

(** ** [allocate] *)

Lemma add_heap_heaps cfg mm : heaps (add_heap cfg mm) = heaps mm ++ [brk mm].
Proof.
  unfold add_heap. destruct (fold_left _ _ _) as [m last_cell]. reflexivity.
Qed.

Lemma iter_add_heap_length cfg n mm :
  length (heaps (Nat.iter n (add_heap cfg) mm)) = (length (heaps mm) + n)%nat.
Proof.
  induction n as [|n IH]; simpl; [lia |].
  rewrite add_heap_heaps, length_app, IH. simpl. lia.
Qed.

(** [grow_heap] multiplies the number of heaps by the growth factor. *)
Lemma grow_heap_length cfg mm :
  (1 <= kGCHeapCountGrowthFactor cfg)%nat ->
  Z.of_nat (length (heaps mm) * kGCHeapCountGrowthFactor cfg) < 2 ^ 64 ->
  length (heaps (grow_heap cfg mm))
  = (length (heaps mm) * kGCHeapCountGrowthFactor cfg)%nat.
Proof.
  intros Hf Hlt. unfold grow_heap, wrap64. rewrite iter_add_heap_length.
  rewrite <- Nat2Z.inj_mul.
  rewrite (Z.mod_small (Z.of_nat _)) by lia.
  rewrite Z.mod_small by nia.
  rewrite <- Nat2Z.inj_sub by nia. rewrite Nat2Z.id. nia.
Qed.

Lemma add_heap_dom cfg mm a :
  is_Some (memory mm !! a) -> is_Some (memory (add_heap cfg mm) !! a).
Proof.
  unfold add_heap.
  generalize (heap_cells cfg (brk mm)) as cells. generalize (free_cell mm) as p.
  generalize (memory mm) as m. intros m p cells. revert m p.
  induction cells as [|x cells IH]; intros m p Ha; simpl.
  - exact Ha.
  - specialize (IH (<[x := mkCell (mkBasic 0) (AsFree p)]> m) x).
    destruct (fold_left _ cells _) as [m' last_cell] eqn:E. simpl in *.
    apply IH. destruct (decide (x = a)) as [->|Hne].
    + rewrite lookup_insert_eq. eauto.
    + now rewrite lookup_insert_ne.
Qed.

Lemma grow_heap_dom cfg mm a :
  is_Some (memory mm !! a) -> is_Some (memory (grow_heap cfg mm) !! a).
Proof.
  unfold grow_heap.
  match goal with |- context [Nat.iter ?k] => generalize k as n end.
  intros n. induction n as [|n IH]; simpl.
  - auto.
  - intros Ha. apply add_heap_dom. auto.
Qed.

Lemma gc_wf_pop cfg vm mm c next :
  gc_wf cfg vm mm -> free_cell mm <> 0 ->
  memory mm !! free_cell mm = Some c -> as_ c = AsFree next ->
  gc_wf cfg vm (mm_set_free_cell mm next).
Proof.
  intros [Hcl Hclean Hflags Hunm Hroots Hcells Hnd Hptr (l & Hfl & Hdead & Hunr)] Hp Hc Has.
  constructor; auto.
  simpl. inversion Hfl as [E|p c' next' l' Hp' Hc' Has' Hfl' E1 E2]; [congruence |].
  subst. rewrite Hc in Hc'. injection Hc' as <-. rewrite Has in Has'. injection Has' as <-.
  exists l'. split; [exact Hfl' |]. split.
  - intros a Ha. apply Hdead. now apply list_elem_of_further.
  - intros a Ha. apply Hunr. now apply list_elem_of_further.
Qed.

Lemma allocate_empty cfg vm mm : free_cell mm = 0 -> allocate cfg vm mm = Ok (0, mm).
Proof. intros H. unfold allocate. rewrite H. reflexivity. Qed.

(** What [add_heap] leaves in [free_cell] and [brk]. *)
Lemma add_heap_free_cell cfg mm :
  (1 <= kGCHeapCellCount cfg)%nat ->
  free_cell (add_heap cfg mm)
  = brk mm + (Z.of_nat (kGCHeapCellCount cfg) - 1) * sizeof_MemoryCell cfg.
Proof.
  intros Hn. unfold add_heap, heap_cells.
  destruct (kGCHeapCellCount cfg) as [|n]; [lia |].
  rewrite List.seq_S, List.map_app, List.fold_left_app. simpl.
  f_equal. lia.
Qed.

Lemma add_heap_brk cfg mm :
  brk (add_heap cfg mm)
  = brk mm + Z.of_nat (kGCHeapCellCount cfg) * sizeof_MemoryCell cfg.
Proof. unfold add_heap. destruct (fold_left _ _ _) as [m last_cell]. reflexivity. Qed.

Lemma iter_add_heap_refills cfg n mm :
  (1 <= kGCHeapCellCount cfg)%nat -> 0 < sizeof_MemoryCell cfg -> 0 < brk mm ->
  0 < brk (Nat.iter n (add_heap cfg) mm)
  /\ ((1 <= n)%nat -> 0 < free_cell (Nat.iter n (add_heap cfg) mm)).
Proof.
  intros Hc Hs Hb. induction n as [|n [IHb IHf]]; simpl.
  - split; [exact Hb | lia].
  - rewrite add_heap_brk, add_heap_free_cell by exact Hc. split; [nia |]. intros _. nia.
Qed.

(** With at least one heap, one cell per heap and a growth factor of two or
    more, [grow_heap] leaves a cell on the free list. *)
Lemma grow_heap_refills cfg mm :
  (1 <= kGCHeapCellCount cfg)%nat -> (2 <= kGCHeapCountGrowthFactor cfg)%nat ->
  0 < sizeof_MemoryCell cfg -> 0 < brk mm -> heaps mm <> [] ->
  Z.of_nat (length (heaps mm) * kGCHeapCountGrowthFactor cfg) < 2 ^ 64 ->
  free_cell (grow_heap cfg mm) <> 0.
Proof.
  intros Hc Hf Hs Hb Hh Hlt. unfold grow_heap, wrap64.
  assert (Hlen : (1 <= length (heaps mm))%nat).
  { destruct (heaps mm); [congruence | simpl; lia]. }
  rewrite <- Nat2Z.inj_mul.
  rewrite (Z.mod_small (Z.of_nat _)) by lia.
  rewrite Z.mod_small by nia.
  destruct (iter_add_heap_refills cfg
              (Z.to_nat (Z.of_nat (length (heaps mm) * kGCHeapCountGrowthFactor cfg)
                         - Z.of_nat (length (heaps mm)))) mm Hc Hs Hb) as [_ Hfree].
  assert (Hpos : 0 < free_cell (Nat.iter
             (Z.to_nat (Z.of_nat (length (heaps mm) * kGCHeapCountGrowthFactor cfg)
                        - Z.of_nat (length (heaps mm)))) (add_heap cfg) mm)).
  { apply Hfree. nia. }
  lia.
Qed.

(** The head of a free list that is not empty, and the state once it is
    unlinked. *)
Lemma allocate_head cfg vm mm :
  gc_wf cfg vm mm -> free_cell mm <> 0 ->
  exists c next,
    memory mm !! free_cell mm = Some c /\ as_ c = AsFree next
    /\ is_pointer (free_cell mm) = true
    /\ gc_wf cfg vm (mm_set_free_cell mm next).
Proof.
  intros Hwf Hp. pose proof Hwf as [_ _ _ _ _ _ _ Hptr (l & Hfl & _)].
  inversion Hfl as [E|p c next l' Hp' Hc Has Hfl' E1 E2]; [congruence |]. subst p.
  exists c, next. split; [exact Hc |]. split; [exact Has |]. split.
  - apply Hptr. eauto.
  - eapply gc_wf_pop; eauto.
Qed.

(** An allocation that leaves cells on the list only unlinks the head. *)
Lemma allocate_pop cfg vm mm c next :
  free_cell mm <> 0 -> memory mm !! free_cell mm = Some c -> as_ c = AsFree next ->
  next <> 0 -> allocate cfg vm mm = Ok (free_cell mm, mm_set_free_cell mm next).
Proof.
  intros Hp Hc Has Hn. unfold allocate.
  apply Z.eqb_neq in Hp. apply Z.eqb_neq in Hn. rewrite Hp, Hc, Has. simpl.
  now rewrite Hn.
Qed.

(** An allocation that takes the last cell collects, and grows the heap if
    the collection frees nothing. *)
Lemma allocate_last cfg vm mm c :
  gc_wf cfg vm mm -> free_cell mm <> 0 ->
  memory mm !! free_cell mm = Some c -> as_ c = AsFree 0 ->
  exists mmc,
    collect cfg vm (mm_set_free_cell mm 0) = Ok mmc
    /\ heaps mmc = heaps mm /\ brk mmc = brk mm
    /\ (forall a, is_Some (memory mm !! a) -> is_Some (memory mmc !! a))
    /\ allocate cfg vm mm
       = Ok (free_cell mm,
             if free_cell mmc =? 0
             then if free_cell (grow_heap cfg mmc) =? 0
                  then mm_print (grow_heap cfg mmc) HeapExpandFailed
                  else grow_heap cfg mmc
             else mmc).
Proof.
  intros Hwf Hp Hc Has.
  pose proof (gc_wf_pop cfg vm mm c 0 Hwf Hp Hc Has) as Hwf2.
  destruct (collect_spec cfg vm _ Hwf2)
    as (mmc & freed & l1 & l2 & Hcol & _ & Hheaps & Hbrk & _ & _ & Hsome & _).
  exists mmc. split; [exact Hcol |]. split; [exact Hheaps |]. split; [exact Hbrk |]. split.
  - intros a [ca Hca]. destruct (Hsome a ca Hca) as (c' & -> & _). eauto.
  - unfold allocate. apply Z.eqb_neq in Hp. rewrite Hp, Hc, Has. simpl.
    rewrite Hcol. simpl.
    destruct (free_cell mmc =? 0); [| reflexivity].
    destruct (free_cell (grow_heap cfg mmc) =? 0); reflexivity.
Qed.





(** With a growth factor of 1 [grow_heap] adds no heap: the allocation that
    takes the last cell collects, prints the diagnostic and returns the cell,
    and the next allocation returns the null cell. *)
Example allocate_without_growth :
  match allocate fixed_config empty_vm (MemoryManager_new fixed_config 4096) with
  | Ok (cell1, mm1) =>
      cell1 = 4096 /\ free_cell mm1 = 0
      /\ out mm1 = [GCPause; GCFreed 0; GCFinished; HeapExpandFailed]
      /\ allocate fixed_config empty_vm mm1 = Ok (0, mm1)
  | _ => False
  end.
Proof. vm_compute. repeat split. Qed.

(** ** The allocator keeps a cell in reserve *)

(** "in order to make sure we never get a failing allocation in the future":
    with the constants of a heap that can grow, an allocation from a free
    list that holds a cell leaves a cell on the free list. *)
Lemma allocate_keeps_reserve cfg vm mm :
  gc_wf cfg vm mm -> free_cell mm <> 0 ->
  (1 <= kGCHeapCellCount cfg)%nat -> (2 <= kGCHeapCountGrowthFactor cfg)%nat ->
  0 < sizeof_MemoryCell cfg -> 0 < brk mm -> heaps mm <> [] ->
  Z.of_nat (length (heaps mm) * kGCHeapCountGrowthFactor cfg) < 2 ^ 64 ->
  exists mm', allocate cfg vm mm = Ok (free_cell mm, mm') /\ free_cell mm' <> 0.
Proof.
  intros Hwf Hp Hc Hf Hs Hb Hh Hlt.
  destruct (allocate_head cfg vm mm Hwf Hp) as (c & next & Hc' & Has & _ & _).
  destruct (Z.eq_dec next 0) as [->|Hnext].
  - destruct (allocate_last cfg vm mm c Hwf Hp Hc' Has)
      as (mmc & _ & Hheaps & Hbrk & _ & Halloc).
    eexists. split; [exact Halloc |].
    assert (Hg : free_cell (grow_heap cfg mmc) <> 0).
    { apply grow_heap_refills; auto; rewrite ?Hheaps, ?Hbrk; auto. }
    destruct (Z.eqb_spec (free_cell mmc) 0) as [Hc0|Hc0]; [| exact Hc0].
    destruct (Z.eqb_spec (free_cell (grow_heap cfg mmc)) 0); [contradiction | exact Hg].
  - exists (mm_set_free_cell mm next).
    split; [now apply (allocate_pop cfg vm mm c) | exact Hnext].
Qed.

(** The state the constructor builds is well-formed, and so is the state
    after an allocation and after a collection. *)
Example constructor_wf :
  gc_wfb small_config empty_vm (MemoryManager_new small_config 4096) = true
  /\ match allocate small_config empty_vm (MemoryManager_new small_config 4096) with
     | Ok (cell, mm) =>
         cell = 4544 /\ free_cell mm = 4480
         /\ gc_wfb small_config empty_vm mm = true
         /\ match collect small_config empty_vm mm with
            | Ok mm' => gc_wfb small_config empty_vm mm' = true
            | _ => False
            end
     | _ => False
     end.
Proof. vm_compute. repeat split. Qed.

(** The budget of [collect] is enough on the cycle, and the visit of the
    frame logs the frame and then its function. *)
Example mark_cycle :
  mark (mark_budget cyclic_heap) 4096 cyclic_heap
  = mark 100 4096 cyclic_heap
  /\ match mark (mark_budget cyclic_heap) 4096 cyclic_heap with
     | Ok (m', log) =>
         log = [4096; 4160] /\ is_marked m' 4096 = true /\ is_marked m' 4160 = true
     | _ => False
     end.
Proof. vm_compute. repeat split. Qed.

(** Doubles: 2 + 3 = 5, 1.5 + 2 = 3.5, the conversion of -1, and the
    comparisons with zero.  The sum of the two infinities is a NaN: the
    negative one on SSE2, the canonical one on a unit that canonicalises; a
    NaN operand comes back with its payload on SSE2. *)
Example double_samples :
  double_of_int64 2 = 0x4000000000000000
  /\ double_add sse2_fpu (double_of_int64 2) (double_of_int64 3) = 0x4014000000000000
  /\ double_add canonical_fpu 0x3FF8000000000000 (double_of_int64 2) = 0x400C000000000000
  /\ double_of_int64 (-1) = 0xBFF0000000000000
  /\ double_is_nan NAN = true
  /\ double_add sse2_fpu 0x7FF0000000000000 0xFFF0000000000000 = 0xFFF8000000000000
  /\ double_add canonical_fpu 0x7FF0000000000000 0xFFF0000000000000 = NAN
  /\ double_add sse2_fpu 0x7FF0000000000001 (double_of_int64 2) = 0x7FF8000000000001
  /\ double_nonzero 0x8000000000000000 = false
  /\ double_nonzero NAN = true.
Proof. vm_compute. repeat split. Qed.

(** [truthyness] on the kinds of value: [false], [null], the integer 0, the
    floats 0.0 and -0.0 and a boxed 0.0 are falsy; [true], the integer 7, a
    NaN, a symbol and an object are truthy. *)
Example truthyness_samples :
  let m : Memory :=
    <[4096 := mkCell (mkBasic kTypeFloat) (AsFloat (Float.mk 0))]>
      (<[4160 := sample_object kNull []]> ∅) in
  map (Operators.truthyness m)
      [kFalse; kNull; VALUE_ENCODE_INTEGER 0; VALUE_ENCODE_FLOAT 0;
       VALUE_ENCODE_FLOAT 0x8000000000000000; 4096;
       kTrue; VALUE_ENCODE_INTEGER 7; VALUE_ENCODE_FLOAT NAN; 12; 4160]
  = [Ok false; Ok false; Ok false; Ok false; Ok false; Ok false;
     Ok true; Ok true; Ok true; Ok true; Ok true].
Proof. vm_compute. reflexivity. Qed.

(** ** The recursion budget is a device of the model *)

Lemma mark_each_fuel_enough fuel : forall vs m,
  (size (unmarked m) < fuel)%nat -> mark_each (mark fuel) vs m <> OutOfFuel.
Proof.
  induction vs as [|w vs IH]; intros m Hsz; simpl; [discriminate |].
  pose proof (mark_fuel_enough fuel w m Hsz) as Hw.
  destruct (mark fuel w m) as [[m1 l1]| | |] eqn:E; simpl; try discriminate; [| congruence].
  pose proof (unmarked_extends_size _ _ (mark_mark_extends _ _ _ _ _ E)) as Hle.
  specialize (IH m1 ltac:(lia)).
  destruct (mark_each (mark fuel) vs m1) as [[m2 l2]| | |]; simpl; congruence.
Qed.

Lemma sweep_never_out_of_fuel : forall cells acc, foldM sweep_cell cells acc <> OutOfFuel.
Proof.
  induction cells as [|a cells IH]; intros [mm n]; [discriminate |].
  change (foldM sweep_cell (a :: cells) (mm, n))
    with (sweep_cell (mm, n) a ≫= foldM sweep_cell cells).
  assert (Hcell : sweep_cell (mm, n) a <> OutOfFuel).
  { unfold sweep_cell, free, unregister_temporary, clean.
    repeat match goal with
           | |- context [match ?x with _ => _ end] => destruct x; simpl; try discriminate
           end. }
  destruct (sweep_cell (mm, n) a) as [acc'| | |]; simpl; [apply IH | congruence ..].
Qed.

Lemma mark_phase_fuel_enough fuel vm mm :
  (size (unmarked (memory mm)) < fuel)%nat -> mark_phase fuel vm mm <> OutOfFuel.
Proof.
  intros Hsz. unfold mark_phase.
  pose proof (mark_each_fuel_enough fuel (stack vm) (memory mm) Hsz) as H1.
  destruct (mark_each (mark fuel) (stack vm) (memory mm)) as [[m1 l1]| | |] eqn:E1;
    simpl; try congruence.
  pose proof (unmarked_extends_size _ _ (mark_each_mark_extends _ _ _ _ _ E1)) as L1.
  pose proof (mark_each_fuel_enough fuel (temporaries mm) m1 ltac:(lia)) as H2.
  destruct (mark_each (mark fuel) (temporaries mm) m1) as [[m2 l2]| | |] eqn:E2;
    simpl; try congruence.
  pose proof (unmarked_extends_size _ _ (mark_each_mark_extends _ _ _ _ _ E2)) as L2.
  pose proof (mark_fuel_enough fuel (frames vm) m2 ltac:(lia)) as H3.
  destruct (mark fuel (frames vm) m2) as [[m3 l3]| | |] eqn:E3; simpl; try congruence.
  pose proof (unmarked_extends_size _ _ (mark_mark_extends _ _ _ _ _ E3)) as L3.
  pose proof (mark_fuel_enough fuel (catchstack vm) m3 ltac:(lia)) as H4.
  destruct (mark fuel (catchstack vm) m3) as [[m4 l4]| | |] eqn:E4; simpl; congruence.
Qed.

(** Whatever the state, [collect] does not stop for want of budget. *)
Lemma collect_never_out_of_fuel cfg vm mm : collect cfg vm mm <> OutOfFuel.
Proof.
  unfold collect.
  change (mark_phase (mark_budget (memory (mm_print mm GCPause))) vm (mm_print mm GCPause))
    with (mark_phase (mark_budget (memory mm)) vm mm).
  pose proof (mark_phase_fuel_enough _ vm mm (mark_budget_enough (memory mm))) as H1.
  destruct (mark_phase (mark_budget (memory mm)) vm mm) as [[m l]| | |];
    unfold mbind, Result_bind; try congruence.
  unfold sweep_phase.
  match goal with
  | |- context [foldM sweep_cell ?cells ?acc] =>
      pose proof (sweep_never_out_of_fuel cells acc) as H5;
      destruct (foldM sweep_cell cells acc) as [[mm' n']| | |]; congruence
  end.
Qed.

(** A heap of one cell and growth factor 2: the allocation of the cell
    collects, frees nothing, and doubles the heap; no diagnostic is printed
    and the new cell is on the free list. *)
Example allocate_grows :
  let cfg := mkGCConfig 1 1 2 64 in
  match allocate cfg empty_vm (MemoryManager_new cfg 4096) with
  | Ok (cell, mm) =>
      cell = 4096 /\ heaps mm = [4096; 4160] /\ free_cell mm = 4160
      /\ out mm = [GCPause; GCFreed 0; GCFinished]
  | _ => False
  end.
Proof. vm_compute. repeat split. Qed.

(** * More of value.h *)

Lemma testbit_pow2_6 n : 0 <= n -> Z.testbit 64 n = (n =? 6).
Proof.
  intros Hn. change 64 with (2 ^ 6). rewrite Z.pow2_bits_eqb by lia.
  apply Z.eqb_sym.
Qed.

Lemma Basic_short_string_testbit b : Basic_short_string b = Z.testbit (flags b) 6.
Proof.
  unfold Basic_short_string, kFlagShortString.
  destruct (Z.testbit (flags b) 6) eqn:Hb.
  - apply negb_true_iff, Z.eqb_neq. intros H0.
    assert (Ht : Z.testbit (Z.land (flags b) 64) 6 = true).
    { rewrite Z.land_spec, Hb. reflexivity. }
    rewrite H0 in Ht. discriminate.
  - apply negb_false_iff, Z.eqb_eq. apply Z.bits_inj'. intros n Hn.
    rewrite Z.land_spec, Z.bits_0, testbit_pow2_6 by lia.
    destruct (Z.eqb_spec n 6); subst; rewrite ?Hb, ?andb_false_r; reflexivity.
Qed.

Lemma set_short_string_testbit b val n :
  0 <= n ->
  Z.testbit (flags (Basic_set_short_string b val)) n =
  if n =? 6 then val else (n <? 8) && Z.testbit (flags b) n.
Proof.
  intros Hn. unfold Basic_set_short_string, wrap8, kFlagShortString. simpl.
  destruct (Z.ltb_spec n 8).
  - rewrite Z.mod_pow2_bits_low by lia.
    rewrite Z.lxor_spec, Z.land_spec, Z.lxor_spec, testbit_pow2_6 by lia.
    destruct (Z.eqb_spec n 6).
    + subst. rewrite andb_true_r. destruct val.
      * change (- Z.b2z true) with (-1). rewrite Z.bits_m1 by lia.
        destruct (Z.testbit (flags b) 6); reflexivity.
      * change (- Z.b2z false) with 0. rewrite Z.bits_0.
        destruct (Z.testbit (flags b) 6); reflexivity.
    + rewrite andb_false_r, xorb_false_r. reflexivity.
  - rewrite Z.mod_pow2_bits_high by lia.
    destruct (Z.eqb_spec n 6); [lia | reflexivity].
Qed.

Lemma set_type_testbit b ty n :
  0 <= n ->
  Z.testbit (flags (Basic_set_type b ty)) n =
  if n <? 5 then Z.testbit ty n else (n <? 8) && Z.testbit (flags b) n.
Proof.
  intros Hn. unfold Basic_set_type, wrap8, kFlagType. simpl.
  change 31 with (Z.ones 5).
  destruct (Z.ltb_spec n 8).
  - rewrite Z.mod_pow2_bits_low by lia.
    rewrite Z.lor_spec, !Z.land_spec, Z.lnot_spec by lia.
    destruct (Z.ltb_spec n 5).
    + rewrite Z.ones_spec_low by lia. simpl. rewrite andb_false_r. reflexivity.
    + rewrite Z.ones_spec_high by lia. simpl. rewrite andb_true_r, orb_false_r. reflexivity.
  - rewrite Z.mod_pow2_bits_high by lia.
    destruct (Z.ltb_spec n 5); [lia | reflexivity].
Qed.

Lemma Basic_type_bits b b' :
  (forall n, 0 <= n < 5 -> Z.testbit (flags b) n = Z.testbit (flags b') n) ->
  Basic_type b = Basic_type b'.
Proof.
  intros H. unfold Basic_type, kFlagType. apply Z.bits_inj'. intros n Hn.
  rewrite !Z.land_spec. change 31 with (Z.ones 5).
  destruct (Z.ltb_spec n 5).
  - rewrite H by lia. reflexivity.
  - rewrite Z.ones_spec_high by lia. now rewrite !andb_false_r.
Qed.

(** X1: the type, the mark and the short-string flag are independent fields of
    the flag byte: each setter stores its argument (the type modulo 32) and
    leaves the two other fields as they were. *)
Theorem flags_fields_independent (b : Basic) (ty : Z) (val : bool) :
  Basic_type (Basic_set_type b ty) = Z.land ty kFlagType
  /\ Basic_mark (Basic_set_type b ty) = Basic_mark b
  /\ Basic_short_string (Basic_set_type b ty) = Basic_short_string b
  /\ Basic_mark (Basic_set_mark b val) = val
  /\ Basic_type (Basic_set_mark b val) = Basic_type b
  /\ Basic_short_string (Basic_set_mark b val) = Basic_short_string b
  /\ Basic_short_string (Basic_set_short_string b val) = val
  /\ Basic_type (Basic_set_short_string b val) = Basic_type b
  /\ Basic_mark (Basic_set_short_string b val) = Basic_mark b.
Proof.
  repeat split.
  - unfold Basic_type at 1. unfold kFlagType. apply Z.bits_inj'. intros n Hn.
    rewrite !Z.land_spec, set_type_testbit by lia. change 31 with (Z.ones 5).
    destruct (Z.ltb_spec n 5); [reflexivity |].
    rewrite Z.ones_spec_high by lia. now rewrite !andb_false_r.
  - rewrite !Basic_mark_testbit, set_type_testbit by lia. reflexivity.
  - rewrite !Basic_short_string_testbit, set_type_testbit by lia. reflexivity.
  - rewrite Basic_mark_testbit, set_mark_testbit by lia. reflexivity.
  - apply Basic_type_bits. intros n Hn. rewrite set_mark_testbit by lia.
    destruct (Z.eqb_spec n 5); [lia |]. destruct (Z.ltb_spec n 8); [reflexivity | lia].
  - rewrite !Basic_short_string_testbit, set_mark_testbit by lia. reflexivity.
  - rewrite Basic_short_string_testbit, set_short_string_testbit by lia. reflexivity.
  - apply Basic_type_bits. intros n Hn. rewrite set_short_string_testbit by lia.
    destruct (Z.eqb_spec n 6); [lia |]. destruct (Z.ltb_spec n 8); [reflexivity | lia].
  - rewrite !Basic_mark_testbit, set_short_string_testbit by lia. reflexivity.
Qed.

Lemma encode_integer_mod i : VALUE_ENCODE_INTEGER i = 2 * (i mod 2 ^ 63) + 1.
Proof.
  rewrite encode_integer_odd. unfold wrap64. f_equal. f_equal.
  change (2 ^ 64) with (2 ^ 63 * 2).
  rewrite Z.rem_mul_r by lia.
  rewrite Z.mul_comm, Z.mod_add by lia. apply Z.mod_mod. lia.
Qed.

Lemma decode_odd r :
  0 <= r < 2 ^ 63 ->
  VALUE_DECODE_INTEGER (2 * r + 1) = if r <? 2 ^ 62 then r else r - 2 ^ 63.
Proof.
  intros Hr. unfold VALUE_DECODE_INTEGER, to_int64.
  rewrite Z.shiftr_div_pow2 by lia. change (2 ^ 1) with 2.
  destruct (Z.ltb_spec r (2 ^ 62)); destruct (Z.ltb_spec (2 * r + 1) (2 ^ 63)); try lia.
  - replace (2 * r + 1) with (1 + r * 2) by lia. now rewrite Z.div_add by lia.
  - replace (2 * r + 1 - 2 ^ 64) with (1 + (r - 2 ^ 63) * 2) by lia.
    now rewrite Z.div_add by lia.
Qed.

(** X2: every 64-bit word that carries the integer tag is the encoding of what
    it decodes to. *)
Theorem encode_decode_integer (v : VALUE) :
  0 <= v < 2 ^ 64 -> is_integer v = true ->
  VALUE_ENCODE_INTEGER (VALUE_DECODE_INTEGER v) = v.
Proof.
  intros Hv Hi. unfold is_integer, kIntegerMask, kIntegerFlag in Hi.
  rewrite land_mask_1 in Hi. apply Z.eqb_eq in Hi.
  assert (Hr : v = 2 * (v / 2) + 1) by (Z.div_mod_to_equations; lia).
  assert (Hr2 : 0 <= v / 2 < 2 ^ 63) by (Z.div_mod_to_equations; lia).
  set (d := v / 2) in *. clearbody d. subst v.
  rewrite (decode_odd _ Hr2), encode_integer_mod. f_equal. f_equal.
  destruct (Z.ltb_spec d (2 ^ 62)).
  - apply Z.mod_small. lia.
  - symmetry. apply (Z.mod_unique _ _ (-1)); lia.
Qed.

Lemma encode_decode_integer_witness :
  VALUE_ENCODE_INTEGER (VALUE_DECODE_INTEGER (2 ^ 64 - 13)) = 2 ^ 64 - 13.
Proof. apply (encode_decode_integer (2 ^ 64 - 13)); [lia | reflexivity]. Defined.

(** X3: an integer outside [-2^62, 2^62) is not rejected: encoding keeps its
    low 63 bits, so that decoding gives the integer wrapped into that
    interval. *)
Theorem decode_encode_wraps (i : Z) :
  VALUE_DECODE_INTEGER (VALUE_ENCODE_INTEGER i) = (i + 2 ^ 62) mod 2 ^ 63 - 2 ^ 62
  /\ - 2 ^ 62 <= VALUE_DECODE_INTEGER (VALUE_ENCODE_INTEGER i) < 2 ^ 62.
Proof.
  assert (Hr : 0 <= i mod 2 ^ 63 < 2 ^ 63) by (apply Z.mod_pos_bound; lia).
  assert (E : VALUE_DECODE_INTEGER (VALUE_ENCODE_INTEGER i)
              = (i + 2 ^ 62) mod 2 ^ 63 - 2 ^ 62).
  { rewrite encode_integer_mod, (decode_odd _ Hr).
    destruct (Z.ltb_spec (i mod 2 ^ 63) (2 ^ 62)).
    - assert ((i + 2 ^ 62) mod 2 ^ 63 = i mod 2 ^ 63 + 2 ^ 62); [| lia].
      symmetry. apply (Z.mod_unique _ _ (i / 2 ^ 63)); [lia |].
      pose proof (Z.div_mod i (2 ^ 63)). lia.
    - assert ((i + 2 ^ 62) mod 2 ^ 63 = i mod 2 ^ 63 - 2 ^ 62); [| lia].
      symmetry. apply (Z.mod_unique _ _ (i / 2 ^ 63 + 1)); [lia |].
      pose proof (Z.div_mod i (2 ^ 63)). lia. }
  split; [exact E |]. rewrite E.
  pose proof (Z.mod_pos_bound (i + 2 ^ 62) (2 ^ 63)). lia.
Qed.

Lemma word64_high v i : 0 <= v < 2 ^ 64 -> 64 <= i -> Z.testbit v i = false.
Proof.
  intros Hv Hi. rewrite <- (Z.mod_small v (2 ^ 64)) by lia.
  apply Z.mod_pow2_bits_high. lia.
Qed.

Lemma word64_bits v :
  0 <= v -> (forall i, 64 <= i -> Z.testbit v i = false) -> 0 <= v < 2 ^ 64.
Proof.
  intros Hv H. split; [exact Hv |].
  rewrite <- (Z.mod_small v (2 ^ 64)); [apply Z.mod_pos_bound; lia |].
  split; [exact Hv |].
  destruct (Z.ltb_spec v (2 ^ 64)) as [|Hge]; [assumption | exfalso].
  assert (H0 : 0 < v) by lia.
  pose proof (Z.bit_log2 v H0) as Hb.
  rewrite H in Hb; [discriminate |].
  apply Z.log2_le_pow2; lia.
Qed.

Lemma BIT_ROTL_testbit v n i :
  0 <= v < 2 ^ 64 -> 0 < n < 64 -> 0 <= i ->
  Z.testbit (BIT_ROTL v n) i =
  if i <? n then Z.testbit v (i + 64 - n)
  else if i <? 64 then Z.testbit v (i - n) else false.
Proof.
  intros Hv Hn Hi. unfold BIT_ROTL, wrap64.
  rewrite (Z.mod_small (64 - n)) by lia.
  rewrite Z.lor_spec, Z.shiftr_spec by lia.
  replace (i + (64 - n)) with (i + 64 - n) by lia.
  destruct (Z.ltb_spec i n).
  - rewrite Z.mod_pow2_bits_low, Z.shiftl_spec, Z.testbit_neg_r by lia. reflexivity.
  - rewrite (word64_high v (i + 64 - n)) by lia. rewrite orb_false_r.
    destruct (Z.ltb_spec i 64).
    + rewrite Z.mod_pow2_bits_low, Z.shiftl_spec by lia. reflexivity.
    + apply Z.mod_pow2_bits_high. lia.
Qed.

Lemma BIT_ROTR_testbit v n i :
  0 <= v < 2 ^ 64 -> 0 < n < 64 -> 0 <= i ->
  Z.testbit (BIT_ROTR v n) i =
  if i <? 64 - n then Z.testbit v (i + n)
  else if i <? 64 then Z.testbit v (i + n - 64) else false.
Proof.
  intros Hv Hn Hi. unfold BIT_ROTR, wrap64.
  rewrite (Z.mod_small (64 - n)) by lia.
  rewrite Z.lor_spec, Z.shiftr_spec by lia.
  destruct (Z.ltb_spec i (64 - n)).
  - rewrite Z.mod_pow2_bits_low, Z.shiftl_spec by lia.
    rewrite (Z.testbit_neg_r v (i - (64 - n))) by lia.
    apply orb_false_r.
  - rewrite (word64_high v (i + n)) by lia. simpl.
    destruct (Z.ltb_spec i 64).
    + rewrite Z.mod_pow2_bits_low, Z.shiftl_spec by lia. f_equal. lia.
    + apply Z.mod_pow2_bits_high. lia.
Qed.

Lemma BIT_ROTL_range v n :
  0 <= v < 2 ^ 64 -> 0 < n < 64 -> 0 <= BIT_ROTL v n < 2 ^ 64.
Proof.
  intros Hv Hn. apply word64_bits.
  - unfold BIT_ROTL, wrap64. apply Z.lor_nonneg. split.
    + apply Z.mod_pos_bound. lia.
    + apply Z.shiftr_nonneg. lia.
  - intros i Hi. rewrite BIT_ROTL_testbit by lia.
    destruct (Z.ltb_spec i n); [lia |]. destruct (Z.ltb_spec i 64); [lia | reflexivity].
Qed.

Lemma BIT_ROTR_range v n :
  0 <= v < 2 ^ 64 -> 0 < n < 64 -> 0 <= BIT_ROTR v n < 2 ^ 64.
Proof.
  intros Hv Hn. apply word64_bits.
  - unfold BIT_ROTR, wrap64. apply Z.lor_nonneg. split.
    + apply Z.shiftr_nonneg. lia.
    + apply Z.mod_pos_bound. lia.
  - intros i Hi. rewrite BIT_ROTR_testbit by lia.
    destruct (Z.ltb_spec i (64 - n)); [lia |].
    destruct (Z.ltb_spec i 64); [lia | reflexivity].
Qed.

(** X4: for a 64-bit word and a rotation count strictly between 0 and 64,
    [BIT_ROTL] and [BIT_ROTR] are inverse to each other, rotating left by [n]
    is rotating right by [64 - n], and the result is again a 64-bit word. *)
Theorem BIT_ROT_roundtrip (v n : Z) :
  0 <= v < 2 ^ 64 -> 0 < n < 64 ->
  BIT_ROTR (BIT_ROTL v n) n = v
  /\ BIT_ROTL (BIT_ROTR v n) n = v
  /\ BIT_ROTL v n = BIT_ROTR v (64 - n)
  /\ 0 <= BIT_ROTL v n < 2 ^ 64.
Proof.
  intros Hv Hn.
  pose proof (BIT_ROTL_range v n Hv Hn) as Hl.
  pose proof (BIT_ROTR_range v n Hv Hn) as Hr.
  split; [| split; [| split; [| exact Hl]]].
  - apply Z.bits_inj'. intros i Hi.
    rewrite BIT_ROTR_testbit by assumption.
    destruct (Z.ltb_spec i (64 - n)).
    + rewrite BIT_ROTL_testbit by lia.
      destruct (Z.ltb_spec (i + n) n); [lia |].
      destruct (Z.ltb_spec (i + n) 64); [f_equal; lia | lia].
    + destruct (Z.ltb_spec i 64).
      * rewrite BIT_ROTL_testbit by lia.
        destruct (Z.ltb_spec (i + n - 64) n); [f_equal; lia | lia].
      * symmetry. apply word64_high; lia.
  - apply Z.bits_inj'. intros i Hi.
    rewrite BIT_ROTL_testbit by assumption.
    destruct (Z.ltb_spec i n).
    + rewrite BIT_ROTR_testbit by lia.
      destruct (Z.ltb_spec (i + 64 - n) (64 - n)); [lia |].
      destruct (Z.ltb_spec (i + 64 - n) 64); [f_equal; lia | lia].
    + destruct (Z.ltb_spec i 64).
      * rewrite BIT_ROTR_testbit by lia.
        destruct (Z.ltb_spec (i - n) (64 - n)); [f_equal; lia | lia].
      * symmetry. apply word64_high; lia.
  - apply Z.bits_inj'. intros i Hi.
    rewrite BIT_ROTL_testbit, BIT_ROTR_testbit by lia.
    replace (64 - (64 - n)) with n by lia.
    destruct (Z.ltb_spec i n).
    + f_equal. lia.
    + destruct (Z.ltb_spec i 64); [f_equal; lia | reflexivity].
Qed.

Lemma BIT_ROT_roundtrip_witness :
  BIT_ROTR (BIT_ROTL 0x8000000000000001 4) 4 = 0x8000000000000001
  /\ BIT_ROTL 0x8000000000000001 4 = 0x18.
Proof.
  destruct (BIT_ROT_roundtrip 0x8000000000000001 4) as (H & _); [lia | lia |].
  split; [exact H | reflexivity].
Defined.

(** * disassembler.h: branches *)

Lemma Branch_bounds (b : Branch.t) :
  Branch.lower_address b = Z.min (Branch.start_offset b) (Branch.end_offset b)
  /\ Branch.upper_address b = Z.max (Branch.start_offset b) (Branch.end_offset b).
Proof.
  unfold Branch.lower_address, Branch.upper_address, Branch.is_backwards_jump.
  destruct (Z.leb_spec (Branch.end_offset b) (Branch.start_offset b)); lia.
Qed.

Lemma Branch_in_range_iff (b : Branch.t) (addr : Z) :
  Branch.in_range b addr = true <->
  Branch.lower_address b <= addr <= Branch.upper_address b.
Proof.
  unfold Branch.in_range, Branch.lower_address, Branch.upper_address.
  destruct (Branch.is_backwards_jump b);
    rewrite andb_true_iff, !Z.leb_le; reflexivity.
Qed.

(** X5: a branch covers the closed interval between its two offsets, whatever
    the direction of the jump: [lower_address] is the smaller and
    [upper_address] the larger offset, [in_range] holds exactly for the
    addresses between them, and so for both ends of the branch. *)
Theorem Branch_in_range_spec (b : Branch.t) (addr : Z) :
  Branch.lower_address b = Z.min (Branch.start_offset b) (Branch.end_offset b)
  /\ Branch.upper_address b = Z.max (Branch.start_offset b) (Branch.end_offset b)
  /\ (Branch.in_range b addr = true <->
      Branch.lower_address b <= addr <= Branch.upper_address b)
  /\ (Branch.is_start b addr || Branch.is_end b addr = true ->
      Branch.in_range b addr = true).
Proof.
  destruct (Branch_bounds b) as [Hl Hu].
  split; [exact Hl |]. split; [exact Hu |]. split; [apply Branch_in_range_iff |].
  unfold Branch.is_start, Branch.is_end. intros H.
  apply Branch_in_range_iff. rewrite Hl, Hu.
  apply orb_true_iff in H. destruct H as [H | H]; apply Z.eqb_eq in H; lia.
Qed.

(** X6: [overlaps_with_branch] tests whether one of the two ends of the other
    branch lies inside this branch. Taken in either direction, it holds
    exactly when the intervals of the two branches intersect. *)
Theorem Branch_overlaps_spec (a b : Branch.t) :
  (Branch.overlaps_with_branch a b || Branch.overlaps_with_branch b a = true <->
   Branch.lower_address a <= Branch.upper_address b
   /\ Branch.lower_address b <= Branch.upper_address a)
  /\ (Branch.overlaps_with_branch a b = true <->
      Branch.lower_address a <= Branch.start_offset b <= Branch.upper_address a
      \/ Branch.lower_address a <= Branch.end_offset b <= Branch.upper_address a).
Proof.
  unfold Branch.overlaps_with_branch.
  rewrite !orb_true_iff, !Branch_in_range_iff.
  destruct (Branch_bounds a) as [Hla Hua]. destruct (Branch_bounds b) as [Hlb Hub].
  rewrite Hla, Hua, Hlb, Hub. split; [| reflexivity]. lia.
Qed.

(** X7: the test is not symmetric. A branch that lies strictly inside another
    one does not overlap it, although the outer branch overlaps the inner
    one. *)
Theorem Branch_overlaps_enclosed (inner outer : Branch.t) :
  Branch.lower_address outer < Branch.lower_address inner ->
  Branch.upper_address inner < Branch.upper_address outer ->
  Branch.overlaps_with_branch inner outer = false
  /\ Branch.overlaps_with_branch outer inner = true.
Proof.
  intros Hl Hu.
  destruct (Branch_bounds inner) as [Hli Hui].
  destruct (Branch_bounds outer) as [Hlo Huo].
  split.
  - apply not_true_iff_false. unfold Branch.overlaps_with_branch.
    rewrite orb_true_iff, !Branch_in_range_iff. lia.
  - unfold Branch.overlaps_with_branch.
    rewrite orb_true_iff, !Branch_in_range_iff. lia.
Qed.

Lemma Branch_overlaps_enclosed_witness :
  Branch.overlaps_with_branch (Branch.new 20 10) (Branch.new 5 40) = false
  /\ Branch.overlaps_with_branch (Branch.new 5 40) (Branch.new 20 10) = true.
Proof.
  apply (Branch_overlaps_enclosed (Branch.new 20 10) (Branch.new 5 40));
    vm_compute; reflexivity.
Defined.

(** * vm.h: the instruction profile *)

Lemma add_entry_step entries opcode len e :
  entries !! opcode = Some e ->
  0 <= encountered e -> encountered e + 1 < 2 ^ 64 ->
  0 <= average_length e -> 0 <= len ->
  average_length e * encountered e + len < 2 ^ 64 ->
  add_entry entries opcode len =
  Ok (<[opcode := mkProfileEntry (encountered e + 1)
                    ((average_length e * encountered e + len) / (encountered e + 1))]>
        entries).
Proof.
  intros He Hn Hn' Ha Hl Hs. unfold add_entry. rewrite He. cbv zeta.
  assert (H0 : 0 <= average_length e * encountered e) by (apply Z.mul_nonneg_nonneg; lia).
  unfold wrap64.
  rewrite (Z.mod_small (encountered e + 1)) by lia.
  rewrite (Z.mod_small (average_length e * encountered e)) by lia.
  rewrite (Z.mod_small (average_length e * encountered e + len)) by lia.
  destruct (Z.eqb_spec (encountered e + 1) 0); [lia | reflexivity].
Qed.

Lemma average_bounds avg n len lo hi :
  0 <= n -> lo <= len <= hi -> (0 < n -> lo <= avg <= hi) ->
  (avg * n + len) / (n + 1) * (n + 1) <= avg * n + len
  /\ lo <= (avg * n + len) / (n + 1) <= hi.
Proof.
  intros Hn Hl Ha. split; [| split].
  - rewrite Z.mul_comm. apply Z.mul_div_le. lia.
  - apply Z.div_le_lower_bound; [lia |].
    destruct (Z.eq_dec n 0) as [-> | Hn0]; [lia | nia].
  - apply Z.div_le_upper_bound; [lia |].
    destruct (Z.eq_dec n 0) as [-> | Hn0]; [lia | nia].
Qed.

(** X8: recording one length for an opcode whose counters do not overflow
    counts it and replaces the average by the rounded-down mean of the old
    average, weighted by the old count, and the new length; the entries of the
    other opcodes are untouched. An opcode outside the array is a fault. *)
Theorem add_entry_spec (entries : list VMInstructionProfileEntry) (opcode : nat)
    (len : Z) (e : VMInstructionProfileEntry) :
  entries !! opcode = Some e ->
  0 <= encountered e -> encountered e + 1 < 2 ^ 64 ->
  0 <= average_length e -> 0 <= len ->
  average_length e * encountered e + len < 2 ^ 64 ->
  exists entries' e',
    add_entry entries opcode len = Ok entries'
    /\ length entries' = length entries
    /\ entries' !! opcode = Some e'
    /\ encountered e' = encountered e + 1
    /\ average_length e' = (average_length e * encountered e + len) / (encountered e + 1)
    /\ Z.min (if encountered e =? 0 then len else average_length e) len
       <= average_length e'
       <= Z.max (if encountered e =? 0 then len else average_length e) len
    /\ (forall other, other <> opcode -> entries' !! other = entries !! other)
    /\ (forall other, (length entries <= other)%nat ->
        add_entry entries other len = Fault).
Proof.
  intros He Hn Hn' Ha Hl Hs.
  eexists _, _. split; [exact (add_entry_step _ _ _ _ He Hn Hn' Ha Hl Hs) |].
  split; [apply length_insert |].
  split; [apply list_lookup_insert_eq; eapply lookup_lt_Some; exact He |].
  split; [reflexivity |]. split; [reflexivity |]. split.
  - cbn [average_length].
    set (old := if encountered e =? 0 then len else average_length e).
    apply (average_bounds (average_length e) (encountered e) len); [lia | lia |].
    intros Hpos. subst old. destruct (Z.eqb_spec (encountered e) 0); lia.
  - split.
    + intros other Hne. apply list_lookup_insert_ne. congruence.
    + intros other Hge. unfold add_entry.
      rewrite (lookup_ge_None_2 entries other Hge). reflexivity.
Qed.

Lemma add_entry_spec_witness :
  exists entries',
    add_entry [mkProfileEntry 2 10; mkProfileEntry 7 3] 0 5 = Ok entries'
    /\ entries' = [mkProfileEntry 3 8; mkProfileEntry 7 3].
Proof.
  destruct (add_entry_spec [mkProfileEntry 2 10; mkProfileEntry 7 3] 0 5
              (mkProfileEntry 2 10)) as (entries' & e' & H & _);
    [reflexivity | simpl; lia | simpl; lia | simpl; lia | lia | simpl; lia |].
  exists entries'. split; [exact H |].
  vm_compute in H. injection H as <-. reflexivity.
Defined.

Lemma lengths_of_app op a b :
  lengths_of op (a ++ b) = lengths_of op a ++ lengths_of op b.
Proof. unfold lengths_of. rewrite List.filter_app, List.map_app. reflexivity. Qed.

Lemma lengths_of_cons op p tr :
  lengths_of op (p :: tr) =
  (if Nat.eqb (fst p) op then [snd p] else []) ++ lengths_of op tr.
Proof. unfold lengths_of. simpl. destruct (Nat.eqb (fst p) op); reflexivity. Qed.

Lemma sum_list_app a b : sum_list (a ++ b) = sum_list a + sum_list b.
Proof. unfold sum_list. induction a as [|x a IH]; simpl; lia. Qed.

Lemma lengths_of_nonneg op tr :
  Forall (fun p => 0 <= snd p) tr -> 0 <= sum_list (lengths_of op tr).
Proof.
  induction 1 as [|p tr Hp _ IH]; [reflexivity |].
  rewrite lengths_of_cons, sum_list_app.
  destruct (Nat.eqb (fst p) op); unfold sum_list in *; simpl; lia.
Qed.

Lemma lengths_of_le_total op tr :
  Forall (fun p => 0 <= snd p) tr ->
  (length (lengths_of op tr) <= length tr)%nat
  /\ sum_list (lengths_of op tr) <= sum_list (List.map snd tr).
Proof.
  induction 1 as [|p tr Hp _ [IH1 IH2]]; [split; [reflexivity | reflexivity] |].
  rewrite lengths_of_cons, sum_list_app, length_app.
  destruct (Nat.eqb (fst p) op); unfold sum_list in *; simpl; lia.
Qed.

Lemma profile_inv_new lo hi n : profile_inv lo hi (VMInstructionProfile_new n) [].
Proof.
  intros op e He. unfold VMInstructionProfile_new in He.
  apply lookup_replicate in He as [-> _]. simpl. repeat split; lia.
Qed.

Lemma add_entries_inv lo hi n trace : forall pre entries,
  length entries = n ->
  profile_inv lo hi entries pre ->
  Forall (fun p => (fst p < n)%nat /\ 0 <= snd p /\ lo <= snd p <= hi) trace ->
  (forall op, Z.of_nat (length (lengths_of op (pre ++ trace))) < 2 ^ 64
              /\ sum_list (lengths_of op (pre ++ trace)) < 2 ^ 64) ->
  exists entries',
    add_entries entries trace = Ok entries'
    /\ length entries' = n
    /\ profile_inv lo hi entries' (pre ++ trace).
Proof.
  induction trace as [|[op len] trace IH]; intros pre entries Hlen Hinv Hall Hbound.
  - exists entries. rewrite app_nil_r. auto.
  - apply Forall_cons in Hall as [(Hop & Hl0 & Hl) Hall]. simpl in Hop, Hl0, Hl.
    destruct (lookup_lt_is_Some_2 entries op) as [e He]; [lia |].
    destruct (Hinv op e He) as (Hc & Ha & Hs & Hb).
    assert (Hnn : 0 <= sum_list (lengths_of op trace)).
    { apply lengths_of_nonneg. eapply Forall_impl; [exact Hall |]. simpl. tauto. }
    destruct (Hbound op) as [Hbc Hbs].
    rewrite lengths_of_app, lengths_of_cons in Hbc, Hbs. simpl in Hbc, Hbs.
    rewrite Nat.eqb_refl in Hbc, Hbs.
    rewrite !length_app in Hbc. rewrite !sum_list_app in Hbs.
    simpl in Hbc. change (sum_list [len]) with (len + 0) in Hbs.
    assert (Hstep := add_entry_step entries op len e He).
    destruct (average_bounds (average_length e) (encountered e) len lo hi)
      as (Hq1 & Hq2); [lia | lia | exact Hb |].
    set (e1 := mkProfileEntry (encountered e + 1)
                 ((average_length e * encountered e + len) / (encountered e + 1))) in *.
    destruct (IH (pre ++ [(op, len)]) (<[op := e1]> entries)) as (entries' & Hrun & Hlen' & Hinv').
    + rewrite length_insert. exact Hlen.
    + intros op' e' He'. rewrite lengths_of_app, lengths_of_cons. simpl.
      rewrite length_app, sum_list_app.
      destruct (Nat.eq_dec op' op) as [-> | Hne].
      * rewrite list_lookup_insert_eq in He' by lia. injection He' as <-.
        rewrite Nat.eqb_refl. simpl. change (sum_list [len]) with (len + 0).
        split; [lia |]. split; [apply Z.div_pos; nia |].
        split; [lia |]. intros _. exact Hq2.
      * rewrite list_lookup_insert_ne in He' by congruence.
        destruct (Nat.eqb_spec op op'); [congruence |].
        destruct (Hinv op' e' He') as (Hc' & Ha' & Hs' & Hb').
        simpl. change (sum_list []) with 0.
        split; [lia |]. split; [exact Ha' |]. split; [lia | exact Hb'].
    + exact Hall.
    + intros op'. rewrite <- app_assoc. apply Hbound.
    + exists entries'. split; [| split; [exact Hlen' |]].
      * unfold add_entries. simpl. fold (add_entries).
        rewrite Hstep by lia. exact Hrun.
      * rewrite <- app_assoc in Hinv'. exact Hinv'.
Qed.

(** X9: a fresh profile fed a trace of (opcode, length) pairs, with every
    opcode inside the array and neither the number of pairs nor the sum of
    the lengths overflowing 64 bits, ends with, for every opcode, the number
    of its occurrences in [encountered] and an [average_length] that lies
    between the bounds of the recorded lengths and never exceeds their true
    mean. *)
Theorem add_entries_spec (kOpcodeCount : nat) (trace : list (nat * Z)) (lo hi : Z) :
  Forall (fun p => (fst p < kOpcodeCount)%nat /\ 0 <= snd p /\ lo <= snd p <= hi) trace ->
  Z.of_nat (length trace) < 2 ^ 64 ->
  sum_list (List.map snd trace) < 2 ^ 64 ->
  exists entries,
    add_entries (VMInstructionProfile_new kOpcodeCount) trace = Ok entries
    /\ length entries = kOpcodeCount
    /\ forall op, (op < kOpcodeCount)%nat ->
       exists e,
         entries !! op = Some e
         /\ encountered e = Z.of_nat (length (lengths_of op trace))
         /\ average_length e * encountered e <= sum_list (lengths_of op trace)
         /\ (lengths_of op trace <> [] -> lo <= average_length e <= hi).
Proof.
  intros Hall Hn Hs.
  assert (Hnn : Forall (fun p : nat * Z => 0 <= snd p) trace).
  { eapply Forall_impl; [exact Hall |]. simpl. tauto. }
  destruct (add_entries_inv lo hi kOpcodeCount trace [] (VMInstructionProfile_new kOpcodeCount))
    as (entries & Hrun & Hlen & Hinv).
  - apply length_replicate.
  - apply profile_inv_new.
  - exact Hall.
  - intros op. simpl. destruct (lengths_of_le_total op trace Hnn). lia.
  - exists entries. split; [exact Hrun |]. split; [exact Hlen |].
    intros op Hop. destruct (lookup_lt_is_Some_2 entries op) as [e He]; [lia |].
    exists e. simpl in Hinv. destruct (Hinv op e He) as (Hc & Ha & Hsum & Hb).
    split; [exact He |]. split; [exact Hc |]. split; [exact Hsum |].
    intros Hne. apply Hb. rewrite Hc.
    destruct (lengths_of op trace); [congruence | simpl; lia].
Qed.

Lemma add_entries_spec_witness :
  exists entries,
    add_entries (VMInstructionProfile_new 3) [(1%nat, 4); (0%nat, 9); (1%nat, 7); (1%nat, 5)]
    = Ok entries
    /\ entries = [mkProfileEntry 1 9; mkProfileEntry 3 5; mkProfileEntry 0 0].
Proof.
  destruct (add_entries_spec 3 [(1%nat, 4); (0%nat, 9); (1%nat, 7); (1%nat, 5)] 4 9)
    as (entries & H & _).
  - repeat constructor; simpl; lia.
  - simpl. lia.
  - vm_compute. reflexivity.
  - exists entries. split; [exact H |].
    vm_compute in H. injection H as <-. reflexivity.
Defined.

(** * More of gc.cpp: the temporaries *)

Lemma existsb_eqb_count value l :
  existsb (Z.eqb value) l = negb (Nat.eqb (count_occ Z.eq_dec l value) 0).
Proof.
  induction l as [|x l IH]; [reflexivity |]. simpl.
  destruct (Z.eq_dec x value) as [->|Hne].
  - now rewrite Z.eqb_refl.
  - destruct (Z.eqb_spec value x); [congruence | exact IH].
Qed.

Lemma erase_one_count value l w :
  count_occ Z.eq_dec (erase_one value l) w
  = if Z.eq_dec w value then Nat.pred (count_occ Z.eq_dec l w) else count_occ Z.eq_dec l w.
Proof.
  induction l as [|x l IH]; simpl.
  - destruct (Z.eq_dec w value); reflexivity.
  - destruct (Z.eqb_spec x value) as [->|Hne].
    + destruct (Z.eq_dec value w) as [->|Hw].
      * destruct (Z.eq_dec w w); [reflexivity | congruence].
      * destruct (Z.eq_dec w value); [congruence | reflexivity].
    + simpl. rewrite IH. destruct (Z.eq_dec x w) as [->|Hxw].
      * destruct (Z.eq_dec w value); [congruence | reflexivity].
      * reflexivity.
Qed.

(** X10: [unregister_temporary] of a value that is not registered stops the
    program at its assertion; otherwise it removes exactly one registration of
    the value, keeps the registrations of every other value and touches
    nothing else of the manager.  Unregistering a value that was just
    registered gives the manager back. *)
Theorem unregister_temporary_spec (mm : MemoryManager) (value : VALUE) :
  match unregister_temporary mm value with
  | Ok mm' =>
      value ∈ temporaries mm
      /\ (forall w, count_occ Z.eq_dec (temporaries mm') w
                    = if Z.eq_dec w value
                      then Nat.pred (count_occ Z.eq_dec (temporaries mm) w)
                      else count_occ Z.eq_dec (temporaries mm) w)
      /\ mm_set_temporaries mm' (temporaries mm) = mm
  | Abort => value ∉ temporaries mm
  | _ => False
  end
  /\ unregister_temporary (register_temporary mm value) value = Ok mm.
Proof.
  split.
  - unfold unregister_temporary.
    destruct (existsb (Z.eqb value) (temporaries mm)) eqn:He.
    + split; [| split].
      * apply existsb_exists in He as (x & Hx & Hv). apply Z.eqb_eq in Hv. subst x.
        now apply list_elem_of_In.
      * intros w. simpl. apply erase_one_count.
      * destruct mm. reflexivity.
    + intros Hin. apply list_elem_of_In in Hin.
      assert (existsb (Z.eqb value) (temporaries mm) = true); [| congruence].
      apply existsb_exists. exists value. split; [exact Hin | apply Z.eqb_refl].
  - unfold unregister_temporary, register_temporary. simpl.
    rewrite !Z.eqb_refl. simpl. destruct mm. reflexivity.
Qed.

(** * More of gc.cpp: [free] *)

Lemma clean_result c : clean c = Ok tt \/ clean c = Fault.
Proof.
  unfold clean.
  repeat match goal with
         | |- context [if ?b then _ else _] => destruct b
         end;
    destruct (as_ c); auto.
Qed.

Lemma free_eq mm cell :
  free mm cell =
  match memory mm !! cell with
  | None => Fault
  | Some c =>
      _ ← clean c;
      Ok (mkMM cell (heaps mm) (free_temporaries mm cell)
               (<[cell := mkCell (mkBasic 0) (AsFree (free_cell mm))]> (memory mm))
               (brk mm) (out mm))
  end.
Proof.
  unfold free, free_temporaries.
  destruct (Z.eqb_spec (Z.of_nat (count_occ Z.eq_dec (temporaries mm) cell)) 1) as [E|E].
  - unfold unregister_temporary. rewrite existsb_eqb_count.
    destruct (Nat.eqb_spec (count_occ Z.eq_dec (temporaries mm) cell) 0) as [E0|_]; [lia |].
    simpl. destruct (memory mm !! cell) as [c|]; [| reflexivity].
    destruct (clean c) as [[]| | |]; reflexivity.
  - simpl. destruct (memory mm !! cell) as [c|]; [| reflexivity].
    destruct (clean c) as [[]| | |]; reflexivity.
Qed.

Lemma free_inv mm cell mm' :
  free mm cell = Ok mm' ->
  exists c,
    memory mm !! cell = Some c /\ clean c = Ok tt
    /\ mm' = mkMM cell (heaps mm) (free_temporaries mm cell)
                  (<[cell := mkCell (mkBasic 0) (AsFree (free_cell mm))]> (memory mm))
                  (brk mm) (out mm).
Proof.
  rewrite free_eq. destruct (memory mm !! cell) as [c|]; [| discriminate].
  destruct (clean_result c) as [Hc|Hc]; rewrite Hc; simpl; [| discriminate].
  intros [= <-]. eauto.
Qed.

(** X11: [free] on a cell whose buffers can be released zeroes the cell, which
    makes it a dead cell, links it in front of the free list and leaves every
    other cell, the heaps and the output as they were.  It unregisters the
    cell from the temporaries only if the cell is registered exactly once.  If
    the cell was not on the free list, the free list is the old one with the
    cell in front. *)
Theorem free_spec (mm : MemoryManager) (cell : VALUE) (c : MemoryCell) :
  memory mm !! cell = Some c -> clean c = Ok tt ->
  exists mm',
    free mm cell = Ok mm'
    /\ free_cell mm' = cell
    /\ memory mm' !! cell = Some (mkCell (mkBasic 0) (AsFree (free_cell mm)))
    /\ cell_type (memory mm') cell = Some kTypeDead
    /\ (forall a, a <> cell -> memory mm' !! a = memory mm !! a)
    /\ heaps mm' = heaps mm /\ brk mm' = brk mm /\ out mm' = out mm
    /\ temporaries mm'
       = (if Z.of_nat (count_occ Z.eq_dec (temporaries mm) cell) =? 1
          then erase_one cell (temporaries mm) else temporaries mm)
    /\ (forall l, cell <> 0 -> free_list (memory mm) (free_cell mm) l -> cell ∉ l ->
          free_list (memory mm') (free_cell mm') (cell :: l)).
Proof.
  intros Hc Hclean. eexists. split.
  - rewrite free_eq, Hc, Hclean. reflexivity.
  - simpl. split; [reflexivity |]. split; [apply lookup_insert_eq |].
    split; [unfold cell_type; now rewrite lookup_insert_eq |].
    split; [intros a Ha; now apply lookup_insert_ne |].
    do 4 (split; [reflexivity |]).
    intros l H0 Hfl Hnot.
    apply (free_list_cons _ cell (mkCell (mkBasic 0) (AsFree (free_cell mm))) (free_cell mm));
      [exact H0 | apply lookup_insert_eq | reflexivity |].
    now apply free_list_insert_notin.
Qed.

Lemma free_spec_witness :
  exists mm',
    free scheduler_mm 4224 = Ok mm'
    /\ free_cell mm' = 4224 /\ temporaries mm' = []
    /\ memory mm' !! 4224 = Some (mkCell (mkBasic 0) (AsFree 4096)).
Proof.
  destruct (free_spec scheduler_mm 4224 (sample_object kNull []))
    as (mm' & H & Hf & Hc & _ & _ & _ & _ & _ & Ht & _);
    [vm_compute; reflexivity | reflexivity |].
  exists mm'. split; [exact H |]. split; [exact Hf |]. split; [exact Ht | exact Hc].
Defined.

Lemma free_list_nonzero m p l : free_list m p l -> forall a, a ∈ l -> a <> 0.
Proof.
  induction 1 as [|p c next l Hp Hc Has _ IH]; intros a Ha; [inversion Ha |].
  apply elem_of_cons in Ha as [->|Ha]; auto.
Qed.

(** After the cell [a] on the chain from [p] was made to point to [q], from
    where the chain leads to [a] again, no chain from [p] ends. *)
Lemma free_list_cycle m q lq a c' :
  free_list m q lq -> a ∈ lq -> as_ c' = AsFree q ->
  forall L p l, free_list m p l -> a ∈ l -> ~ free_list (<[a := c']> m) p L.
Proof.
  intros Hq Hinq Has. induction L as [|x L IH]; intros p l Hfl Hin HL.
  - inversion HL; subst. inversion Hfl; subst; [inversion Hin | congruence].
  - inversion HL as [|p' c1 next1 L' Hp Hc1 Has1 HL' E1 E2]; subst.
    destruct (decide (x = a)) as [->|Hne].
    + rewrite lookup_insert_eq in Hc1. injection Hc1 as <-.
      rewrite Has in Has1. injection Has1 as <-.
      exact (IH q lq Hq Hinq HL').
    + rewrite lookup_insert_ne in Hc1 by congruence.
      inversion Hfl as [E|p2 c2 next2 l2 Hp2 Hc2 Has2 Hfl2 E1 E2]; subst; [inversion Hin |].
      rewrite Hc1 in Hc2. injection Hc2 as <-.
      rewrite Has1 in Has2. injection Has2 as <-.
      apply elem_of_cons in Hin as [->|Hin]; [congruence |].
      exact (IH next1 l2 Hfl2 Hin HL').
Qed.

(** X12: [free] does not look whether the cell is on the free list already.
    Freeing a cell that is on it links the cell to the head of the list that
    leads to the cell: the free list becomes a cycle, a chain that never
    ends.  This is what the dead-type test of the sweep guards against. *)
Theorem free_twice_cyclic (mm mm' : MemoryManager) (cell : VALUE) (l : list VALUE) :
  free_list (memory mm) (free_cell mm) l -> cell ∈ l ->
  free mm cell = Ok mm' ->
  free_cell mm' = cell /\ ~ exists l', free_list (memory mm') (free_cell mm') l'.
Proof.
  intros Hfl Hin Hfree.
  apply free_inv in Hfree as (c & Hc & _ & ->). simpl.
  split; [reflexivity |]. intros (l' & Hl').
  inversion Hl' as [E|p c1 next1 L Hp Hc1 Has1 HL E1 E2]; subst.
  - now apply (free_list_nonzero _ _ _ Hfl 0 Hin).
  - rewrite lookup_insert_eq in Hc1. injection Hc1 as <-. simpl in Has1.
    injection Has1 as <-.
    exact (free_list_cycle (memory mm) (free_cell mm) l cell
             (mkCell (mkBasic 0) (AsFree (free_cell mm))) Hfl Hin eq_refl
             L (free_cell mm) l Hfl Hin HL).
Qed.

Lemma free_twice_cyclic_witness :
  exists mm',
    free (MemoryManager_new small_config 4096) 4480 = Ok mm'
    /\ free_cell mm' = 4480
    /\ ~ exists l', free_list (memory mm') (free_cell mm') l'.
Proof.
  eexists. split; [vm_compute; reflexivity |].
  apply (free_twice_cyclic (MemoryManager_new small_config 4096) _ 4480
           [4544; 4480; 4416; 4352; 4288; 4224; 4160; 4096]).
  - apply (free_chain_spec _ 8). vm_compute. reflexivity.
  - apply list_elem_of_further, list_elem_of_here.
  - vm_compute. reflexivity.
Defined.

(** * More of gc.cpp: the assertion of [unregister_temporary] *)

Lemma mark_each_never_aborts rec vs :
  (forall v m, rec v m <> Abort) -> forall m, mark_each rec vs m <> Abort.
Proof.
  intros Hrec. induction vs as [|v vs IH]; intros m; simpl; [discriminate |].
  pose proof (Hrec v m) as Hv.
  destruct (rec v m) as [[m1 l1]| | |]; simpl; try congruence.
  pose proof (IH m1) as Hvs.
  destruct (mark_each rec vs m1) as [[m2 l2]| | |]; simpl; congruence.
Qed.

Lemma mark_never_aborts fuel : forall v m, mark fuel v m <> Abort.
Proof.
  induction fuel as [|fuel IH]; intros v m; simpl; [discriminate |].
  destruct (is_pointer v); simpl; [| discriminate].
  destruct (m !! v) as [c|] eqn:Hc; [| discriminate].
  destruct (Basic_mark (basic c)) eqn:Hm; [discriminate |].
  rewrite mark_children_set_mark.
  destruct (mark_children_result c) as [[vs Hch]|Hch]; rewrite Hch; simpl;
    [| discriminate].
  pose proof (mark_each_never_aborts (mark fuel) vs IH (<[v := cell_set_mark c true]> m)) as H.
  destruct (mark_each (mark fuel) vs (<[v := cell_set_mark c true]> m)) as [[m' log]| | |];
    simpl; congruence.
Qed.

Lemma mark_phase_never_aborts fuel vm mm : mark_phase fuel vm mm <> Abort.
Proof.
  unfold mark_phase.
  pose proof (mark_each_never_aborts (mark fuel) (stack vm) (mark_never_aborts fuel) (memory mm)) as H1.
  destruct (mark_each (mark fuel) (stack vm) (memory mm)) as [[m1 l1]| | |]; simpl; try congruence.
  pose proof (mark_each_never_aborts (mark fuel) (temporaries mm) (mark_never_aborts fuel) m1) as H2.
  destruct (mark_each (mark fuel) (temporaries mm) m1) as [[m2 l2]| | |]; simpl; try congruence.
  pose proof (mark_never_aborts fuel (frames vm) m2) as H3.
  destruct (mark fuel (frames vm) m2) as [[m3 l3]| | |]; simpl; try congruence.
  pose proof (mark_never_aborts fuel (catchstack vm) m3) as H4.
  destruct (mark fuel (catchstack vm) m3) as [[m4 l4]| | |]; simpl; congruence.
Qed.

Lemma free_never_aborts mm cell : free mm cell <> Abort.
Proof.
  rewrite free_eq. destruct (memory mm !! cell) as [c|]; [| discriminate].
  destruct (clean_result c) as [Hc|Hc]; rewrite Hc; discriminate.
Qed.

Lemma sweep_never_aborts : forall cells acc, foldM sweep_cell cells acc <> Abort.
Proof.
  induction cells as [|a cells IH]; intros [mm n]; [discriminate |].
  change (foldM sweep_cell (a :: cells) (mm, n))
    with (sweep_cell (mm, n) a ≫= foldM sweep_cell cells).
  assert (Hcell : sweep_cell (mm, n) a <> Abort).
  { unfold sweep_cell. destruct (memory mm !! a) as [c|]; [| discriminate].
    destruct (Basic_mark (basic c)); [discriminate |].
    destruct (negb (Basic_type (basic c) =? kTypeDead)); [| discriminate].
    pose proof (free_never_aborts mm a) as Hf.
    destruct (free mm a); simpl; congruence. }
  destruct (sweep_cell (mm, n) a) as [acc'| | |]; simpl; first [apply IH | congruence].
Qed.

Lemma collect_never_aborts cfg vm mm : collect cfg vm mm <> Abort.
Proof.
  unfold collect.
  change (mark_phase (mark_budget (memory (mm_print mm GCPause))) vm (mm_print mm GCPause))
    with (mark_phase (mark_budget (memory mm)) vm mm).
  pose proof (mark_phase_never_aborts (mark_budget (memory mm)) vm mm) as H1.
  destruct (mark_phase (mark_budget (memory mm)) vm mm) as [[m l]| | |];
    unfold mbind, Result_bind; try congruence.
  unfold sweep_phase.
  match goal with
  | |- context [foldM sweep_cell ?cells ?acc] =>
      pose proof (sweep_never_aborts cells acc) as H5;
      destruct (foldM sweep_cell cells acc) as [[mm' n']| | |]; congruence
  end.
Qed.

(** X13: whatever the state of the manager and of the machine, the assertion
    of [unregister_temporary] does not fail in a call that [free], [collect]
    or [allocate] makes: [free] unregisters a cell only after it counted one
    registration of it. *)
Theorem assertion_never_fails (cfg : GCConfig) (vm : VM) (mm : MemoryManager)
    (cell : VALUE) :
  free mm cell <> Abort
  /\ collect cfg vm mm <> Abort
  /\ allocate cfg vm mm <> Abort.
Proof.
  split; [apply free_never_aborts |]. split; [apply collect_never_aborts |].
  unfold allocate.
  destruct (free_cell mm =? 0); [discriminate |].
  destruct (memory mm !! free_cell mm) as [c|]; [| discriminate].
  destruct (as_ c); try discriminate.
  cbv zeta.
  destruct (free_cell (mm_set_free_cell mm next) =? 0); [| discriminate].
  pose proof (collect_never_aborts cfg vm (mm_set_free_cell mm next)) as H.
  destruct (collect cfg vm (mm_set_free_cell mm next)) as [mmc| | |]; simpl; try congruence.
  destruct (free_cell mmc =? 0); [| discriminate].
  destruct (free_cell (grow_heap cfg mmc) =? 0); discriminate.
Qed.

(** * More of gc.cpp: what a collection reports *)

Lemma sweep_cell_inv mm n a mm1 n1 :
  sweep_cell (mm, n) a = Ok (mm1, n1) ->
  exists c,
    memory mm !! a = Some c
    /\ ((Basic_mark (basic c) = true
         /\ mm1 = mm_set_memory mm (<[a := cell_set_mark c false]> (memory mm)) /\ n1 = n)
        \/ (Basic_mark (basic c) = false /\ Basic_type (basic c) <> kTypeDead
            /\ free mm a = Ok mm1 /\ n1 = n + 1)
        \/ (Basic_mark (basic c) = false /\ Basic_type (basic c) = kTypeDead
            /\ mm1 = mm /\ n1 = n)).
Proof.
  unfold sweep_cell. destruct (memory mm !! a) as [c|]; [| discriminate].
  intros H. exists c. split; [reflexivity |].
  destruct (Basic_mark (basic c)).
  - injection H as <- <-. left. auto.
  - destruct (Z.eqb_spec (Basic_type (basic c)) kTypeDead) as [E|E]; simpl in H.
    + injection H as <- <-. right. right. auto.
    + bind_inv H. injection H as <- <-. right. left. auto.
Qed.

Lemma sweep_count : forall (todo : list VALUE) (mm : MemoryManager) (n : Z) (l : list VALUE)
    (mm' : MemoryManager) (n' : Z),
  NoDup todo ->
  (forall a, a ∈ todo -> a <> 0) ->
  free_list (memory mm) (free_cell mm) l ->
  (forall a, a ∈ l -> cell_type (memory mm) a = Some kTypeDead) ->
  foldM sweep_cell todo (mm, n) = Ok (mm', n') ->
  exists fr,
    free_list (memory mm') (free_cell mm') (fr ++ l)
    /\ n' = n + Z.of_nat (length fr)
    /\ (forall a, a ∈ fr ->
          a ∈ todo /\ is_marked (memory mm) a = false
          /\ cell_type (memory mm) a <> Some kTypeDead)
    /\ (forall a, a ∈ fr ++ l -> cell_type (memory mm') a = Some kTypeDead).
Proof.
  induction todo as [|a todo IH]; intros mm n l mm' n' Hnd Hnz Hfl Hdead Hrun.
  - injection Hrun as <- <-. exists []. simpl.
    split; [exact Hfl |]. split; [lia |]. split; [| exact Hdead].
    intros a Ha. inversion Ha.
  - apply NoDup_cons in Hnd as [Hnotin Hnd].
    change (foldM sweep_cell (a :: todo) (mm, n))
      with (sweep_cell (mm, n) a ≫= foldM sweep_cell todo) in Hrun.
    bind_inv Hrun. destruct r as [mm1 n1].
    apply sweep_cell_inv in Hr as (c & Hc & Hcase).
    assert (Hnz' : forall x, x ∈ todo -> x <> 0).
    { intros x Hx. apply Hnz. now apply list_elem_of_further. }
    assert (Hstep : exists l1,
               free_list (memory mm1) (free_cell mm1) l1
               /\ (forall x, x ∈ l1 -> cell_type (memory mm1) x = Some kTypeDead)
               /\ (forall x, x <> a -> memory mm1 !! x = memory mm !! x)
               /\ ((l1 = l /\ n1 = n)
                   \/ (l1 = a :: l /\ n1 = n + 1 /\ is_marked (memory mm) a = false
                       /\ cell_type (memory mm) a <> Some kTypeDead))).
    { destruct Hcase as [(Hm & -> & ->)|[(Hm & Hty & Hfree & ->)|(Hm & Hty & -> & ->)]].
      - exists l. simpl. split; [eapply free_list_insert_as; eauto |].
        split; [| split; [intros x Hx; now apply lookup_insert_ne | left; auto]].
        intros x Hx. specialize (Hdead x Hx). unfold cell_type in *.
        destruct (decide (x = a)) as [->|Hne].
        + rewrite lookup_insert_eq. rewrite Hc in Hdead. simpl in *.
          now rewrite Basic_type_set_mark.
        + now rewrite lookup_insert_ne.
      - assert (Hct : cell_type (memory mm) a <> Some kTypeDead).
        { unfold cell_type. rewrite Hc. simpl. congruence. }
        assert (Hal : a ∉ l) by (intros Hin; now apply Hct, Hdead).
        apply free_inv in Hfree as (c0 & Hc0 & _ & ->). simpl.
        exists (a :: l). split.
        + apply (free_list_cons _ a (mkCell (mkBasic 0) (AsFree (free_cell mm))) (free_cell mm));
            [apply Hnz, list_elem_of_here | apply lookup_insert_eq | reflexivity |].
          now apply free_list_insert_notin.
        + split; [| split; [intros x Hx; now apply lookup_insert_ne |]].
          * intros x Hx. unfold cell_type.
            destruct (decide (x = a)) as [->|Hne]; [now rewrite lookup_insert_eq |].
            rewrite lookup_insert_ne by congruence.
            apply elem_of_cons in Hx as [->|Hx]; [congruence |]. now apply Hdead.
          * right. split; [reflexivity |]. split; [reflexivity |].
            split; [| exact Hct]. unfold is_marked. now rewrite Hc.
      - exists l. split; [exact Hfl |]. split; [exact Hdead |].
        split; [reflexivity | left; auto]. }
    destruct Hstep as (l1 & Hfl1 & Hdead1 & Hoth & Hl1).
    destruct (IH mm1 n1 l1 mm' n' Hnd Hnz' Hfl1 Hdead1 Hrun)
      as (fr & Hfr & Hn' & Hin & Hdead').
    assert (Hin' : forall x, x ∈ fr ->
              x ∈ a :: todo /\ is_marked (memory mm) x = false
              /\ cell_type (memory mm) x <> Some kTypeDead).
    { intros x Hx. destruct (Hin x Hx) as (Hxt & Hxm & Hxd).
      assert (Hxa : x <> a) by (intros ->; contradiction).
      unfold is_marked, cell_type in *. rewrite (Hoth x Hxa) in Hxm, Hxd.
      split; [now apply list_elem_of_further | auto]. }
    destruct Hl1 as [(-> & ->)|(-> & -> & Hm & Hty)].
    + exists fr. auto.
    + exists (fr ++ [a]). rewrite <- app_assoc. simpl.
      split; [exact Hfr |]. split; [rewrite length_app; simpl; lia |].
      split; [| exact Hdead'].
      intros x Hx. apply elem_of_app in Hx as [Hx|Hx]; [now apply Hin' |].
      apply list_elem_of_singleton in Hx as ->.
      split; [apply list_elem_of_here | auto].
Qed.

Lemma collect_inv cfg vm mm mm' :
  collect cfg vm mm = Ok mm' ->
  exists m log mm2 freed,
    mark_phase (mark_budget (memory mm)) vm mm = Ok (m, log)
    /\ foldM sweep_cell (all_cells cfg (heaps mm))
         (mm_set_memory (mm_print mm GCPause) m, 0) = Ok (mm2, freed)
    /\ mm' = mm_print (mm_print mm2 (GCFreed freed)) GCFinished.
Proof.
  unfold collect, sweep_phase. intros H.
  change (mark_phase (mark_budget (memory (mm_print mm GCPause))) vm (mm_print mm GCPause))
    with (mark_phase (mark_budget (memory mm)) vm mm) in H.
  bind_inv H. destruct r as [m log]. bind_inv H. destruct r as [mm2 freed].
  injection H as <-. exists m, log, mm2, freed. auto.
Qed.

(** The cells a collection frees: the free list grows in front by the live
    cells no root reaches, and their number is what is printed. *)
Lemma collect_freed cfg vm mm mm' :
  gc_wf cfg vm mm -> collect cfg vm mm = Ok mm' ->
  exists l fr,
    free_list (memory mm) (free_cell mm) l
    /\ free_list (memory mm') (free_cell mm') (fr ++ l)
    /\ out mm' = out mm ++ [GCPause; GCFreed (Z.of_nat (length fr)); GCFinished]
    /\ (forall a, a ∈ fr <->
          ~ reachable (memory mm) (gc_roots vm mm) a
          /\ exists c, memory mm !! a = Some c /\ Basic_type (basic c) <> kTypeDead).
Proof.
  intros Hwf Hcol.
  destruct (collect_spec cfg vm mm Hwf)
    as (mm0 & freed0 & l & l' & Hcol0 & _ & _ & _ & _ & _ & _ & Hfl & Hfl' & Hl').
  rewrite Hcol in Hcol0. injection Hcol0 as <-.
  destruct (collect_inv cfg vm mm mm' Hcol) as (m & log & mm2 & freed & Hmp & Hsw & Hmm').
  destruct Hwf as [Hcl Hclean Hflags Hunm Hroots Hcells Hnd Hptr (l0 & Hfl0 & Hdead0 & Hunr0)].
  rewrite (free_list_unique _ _ _ Hfl0 _ Hfl) in Hdead0, Hunr0. clear l0 Hfl0.
  destruct (mark_phase_spec vm mm Hcl Hroots Hunm) as (m4 & log4 & Hmp4 & Hext & _).
  rewrite Hmp in Hmp4. injection Hmp4 as <- <-.
  destruct (sweep_count (all_cells cfg (heaps mm)) (mm_set_memory (mm_print mm GCPause) m)
              0 l mm2 freed) as (fr & Hfr & Hn & Hin & _).
  - exact Hnd.
  - intros a Ha. apply is_pointer_nonzero, Hptr, Hcells, Ha.
  - simpl. eapply free_list_extends; eauto.
  - intros a Ha. simpl. rewrite (cell_type_extends _ _ a Hext). auto.
  - exact Hsw.
  - assert (El : l' = fr ++ l).
    { subst mm'. simpl in Hfl'. exact (free_list_unique _ _ _ Hfl' _ Hfr). }
    exists l, fr. split; [exact Hfl |]. split; [now rewrite <- El |].
    split; [subst mm'; simpl |].
    { assert (Ho : out mm2 = out mm ++ [GCPause]).
      { destruct (sweep_spec (all_cells cfg (heaps mm))
                    (mm_set_memory (mm_print mm GCPause) m) 0 l)
          as (mm3 & n3 & l3 & Hsw3 & _ & _ & _ & Ho & _).
        - exact Hnd.
        - intros a Ha. split; [apply is_pointer_nonzero, Hptr, Hcells, Ha |].
          apply Hcells in Ha as [c Hc]. simpl.
          destruct (Hext a) as [E|(c0 & Hc0 & _ & E)]; rewrite E.
          + exists c. split; [exact Hc | eapply Hclean; eauto].
          + eexists. split; [reflexivity |]. rewrite clean_set_mark. eapply Hclean; eauto.
        - intros a Ha Hm Hin'. simpl in *.
          assert (Hp : is_pointer a = true) by (apply Hptr, Hcells, Ha).
          assert (Hmk : is_marked m a = true); [| congruence].
          destruct (mark_phase_spec vm mm Hcl Hroots Hunm) as (m5 & log5 & Hmp5 & _ & Hiff).
          rewrite Hmp in Hmp5. injection Hmp5 as <- <-.
          apply Hiff; [exact Hp |]. apply reachable_root; [| exact Hp].
          unfold gc_roots. apply elem_of_app. right. apply elem_of_app. now left.
        - simpl. eapply free_list_extends; eauto.
        - intros a Ha _. simpl. rewrite (cell_type_extends _ _ a Hext). auto.
        - rewrite Hsw in Hsw3. injection Hsw3 as <- <-. exact Ho. }
      rewrite Ho, <- !app_assoc. simpl. do 4 f_equal. lia. }
    intros a. split.
    + intros Ha. destruct (Hin a Ha) as (_ & _ & Hty). simpl in Hty.
      rewrite (cell_type_extends _ _ a Hext) in Hty.
      assert (Hal' : a ∈ l') by (rewrite El; apply elem_of_app; now left).
      apply Hl' in Hal' as [Hal|Hres]; [| exact Hres].
      exfalso. apply Hty. now apply Hdead0.
    + intros (Hnr & c & Hc & Hty).
      assert (Hal' : a ∈ l') by (apply Hl'; right; eauto).
      rewrite El in Hal'. apply elem_of_app in Hal' as [Ha|Ha]; [exact Ha |].
      exfalso. specialize (Hdead0 a Ha). unfold cell_type in Hdead0.
      rewrite Hc in Hdead0. simpl in Hdead0. congruence.
Qed.

Lemma free_list_same_head m m' p p' l : free_list m p l -> free_list m' p' l -> p = p'.
Proof. intros H H'. destruct H; inversion H'; subst; reflexivity. Qed.

(** X15: a second collection right after a collection frees nothing: it
    prints a count of zero and leaves every cell, the free list and the
    temporaries as the first one left them. *)
Theorem collect_twice (cfg : GCConfig) (vm : VM) (mm mm1 : MemoryManager) :
  gc_wf cfg vm mm -> collect cfg vm mm = Ok mm1 ->
  exists mm2,
    collect cfg vm mm1 = Ok mm2
    /\ memory mm2 = memory mm1 /\ free_cell mm2 = free_cell mm1
    /\ temporaries mm2 = temporaries mm1 /\ heaps mm2 = heaps mm1
    /\ out mm2 = out mm1 ++ [GCPause; GCFreed 0; GCFinished].
Proof.
  intros Hwf Hcol.
  pose proof (collect_preserves_wf cfg vm mm mm1 Hwf Hcol) as Hwf1.
  destruct (collect_spec cfg vm mm Hwf)
    as (mm0 & freed0 & l & l' & Hcol0 & Ht & _ & _ & _ & Hnone & Hsome & _).
  rewrite Hcol in Hcol0. injection Hcol0 as <-.
  assert (Hroots : gc_roots vm mm1 = gc_roots vm mm).
  { unfold gc_roots. now rewrite Ht. }
  (* after the first collection every live cell is reachable *)
  assert (Hlive : forall a c, memory mm1 !! a = Some c -> Basic_type (basic c) <> kTypeDead ->
            reachable (memory mm1) (gc_roots vm mm1) a).
  { intros a c Hc Hty. rewrite Hroots.
    apply (collected_reachable (memory mm) (memory mm1) (gc_roots vm mm) Hnone Hsome).
    destruct (memory mm !! a) as [c0|] eqn:Hc0; [| rewrite (Hnone a Hc0) in Hc; discriminate].
    destruct (Hsome a c0 Hc0) as (c' & Hc' & [[Hre _]|[_ Hcoll]]); [exact Hre | exfalso].
    rewrite Hc in Hc'. injection Hc' as <-.
    destruct (Z.eqb_spec (Basic_type (basic c0)) kTypeDead) as [E|E].
    - subst c. contradiction.
    - destruct Hcoll as (next & ->). apply Hty. reflexivity. }
  destruct (collect_spec cfg vm mm1 Hwf1)
    as (mm2 & freed & l1 & l2 & Hcol2 & Ht2 & Hh2 & _ & _ & Hnone2 & Hsome2 & _).
  destruct (collect_freed cfg vm mm1 mm2 Hwf1 Hcol2) as (l3 & fr & Hfl3 & Hfl4 & Hout & Hfr).
  assert (Efr : fr = []).
  { destruct fr as [|a fr]; [reflexivity | exfalso].
    destruct (proj1 (Hfr a) (list_elem_of_here _ _)) as (Hnr & c & Hc & Hty).
    apply Hnr. eapply Hlive; eauto. }
  subst fr. simpl in Hfl4, Hout.
  exists mm2. split; [exact Hcol2 |]. split; [| split; [| auto]].
  - apply map_eq. intros a.
    destruct (memory mm1 !! a) as [c|] eqn:Hc; [| now apply Hnone2].
    destruct (Hsome2 a c Hc) as (c' & -> & [[_ ->]|[Hnr Hcoll]]); [reflexivity |].
    destruct (Z.eqb_spec (Basic_type (basic c)) kTypeDead) as [E|E]; [now rewrite Hcoll |].
    exfalso. apply Hnr. eapply Hlive; eauto.
  - symmetry. exact (free_list_same_head _ _ _ _ _ Hfl3 Hfl4).
Qed.

Lemma collect_twice_witness :
  exists mm1 mm2,
    collect small_config scheduler_vm scheduler_mm = Ok mm1
    /\ collect small_config scheduler_vm mm1 = Ok mm2
    /\ memory mm2 = memory mm1 /\ free_cell mm2 = free_cell mm1
    /\ out mm2 = out mm1 ++ [GCPause; GCFreed 0; GCFinished].
Proof.
  assert (Hwf : gc_wf small_config scheduler_vm scheduler_mm).
  { apply gc_wfb_spec. vm_compute. reflexivity. }
  destruct (collect_spec small_config scheduler_vm scheduler_mm Hwf)
    as (mm1 & freed & l & l' & Hcol & _).
  destruct (collect_twice small_config scheduler_vm scheduler_mm mm1 Hwf Hcol)
    as (mm2 & H2 & Hm & Hf & _ & _ & Ho).
  exists mm1, mm2. auto.
Defined.

(** * More of gc.cpp: what one call of [mark] marks *)

Lemma mark_each_marked_log rec vs :
  (forall v m m' log, rec v m = Ok (m', log) ->
     forall a, is_marked m' a = true -> is_marked m a = true \/ a ∈ log) ->
  forall m m' log, mark_each rec vs m = Ok (m', log) ->
    forall a, is_marked m' a = true -> is_marked m a = true \/ a ∈ log.
Proof.
  intros Hrec. induction vs as [|v vs IH]; intros m m' log H a Ha.
  - injection H as <- <-. now left.
  - apply mark_each_cons_inv in H as (m1 & l1 & l2 & H1 & H2 & ->).
    destruct (IH _ _ _ H2 a Ha) as [Hm1|Hl2].
    + destruct (Hrec _ _ _ _ H1 a Hm1) as [Hm|Hl1]; [now left |].
      right. apply elem_of_app. now left.
    + right. apply elem_of_app. now right.
Qed.

(** Every mark a call sets is logged. *)
Lemma mark_marked_log fuel : forall v m m' log,
  mark fuel v m = Ok (m', log) ->
  forall a, is_marked m' a = true -> is_marked m a = true \/ a ∈ log.
Proof.
  induction fuel as [|fuel IH]; intros v m m' log H a Ha; [discriminate |].
  apply mark_Ok_inv in H as [(-> & _)|(f' & c & vs & log' & [= <-] & Hp & Hc & Hm & Hch & He & ->)];
    [now left |].
  destruct (mark_each_marked_log (mark fuel) vs IH _ _ _ He a Ha) as [Hm1|Hl].
  - destruct (decide (a = v)) as [->|Hne]; [right; apply list_elem_of_here |].
    left. unfold is_marked in *. now rewrite lookup_insert_ne in Hm1 by congruence.
  - right. now apply list_elem_of_further.
Qed.

(** X16: on a closed heap that carries no mark, [mark] sets the mark of
    exactly the cells that the value reaches along the references it follows,
    each of them once, and changes nothing else of the memory. *)
Theorem mark_exact (m : Memory) (v : VALUE) :
  heap_closed m -> (forall a, is_marked m a = false) ->
  (is_pointer v = true -> is_Some (m !! v)) ->
  exists m' log,
    mark (mark_budget m) v m = Ok (m', log)
    /\ NoDup log
    /\ (forall a, a ∈ log <-> reachable m [v] a)
    /\ (forall a, is_marked m' a = true <-> reachable m [v] a)
    /\ (forall a c, m !! a = Some c ->
          m' !! a = Some (if is_marked m' a then cell_set_mark c true else c))
    /\ (forall a, m !! a = None -> m' !! a = None).
Proof.
  intros Hcl Hunm Hv.
  destruct (mark_closed_Ok (mark_budget m) v m Hcl Hv (mark_budget_enough m)) as (m' & log & H).
  exists m', log. split; [exact H |].
  pose proof (mark_mark_extends _ _ _ _ _ H) as Hext.
  destruct (mark_log_fresh _ _ _ _ _ H) as [Hnd Hfresh].
  assert (Hsound : forall a, is_marked m' a = true -> reachable m [v] a).
  { intros a Ha.
    assert (Hmr : marked_reach m [v] m').
    { apply (mark_marked_reach m [v] (mark_budget m) v m m' log (mark_extends_refl m)).
      - intros Hp. apply reachable_root; [apply list_elem_of_here | exact Hp].
      - intros b Hb. rewrite Hunm in Hb. discriminate.
      - exact H. }
    destruct (Hmr a Ha) as [Hm|Hr]; [| exact Hr].
    rewrite Hunm in Hm. discriminate. }
  assert (Hcomplete : forall a, reachable m [v] a -> is_marked m' a = true).
  { intros a Ha. apply (reachable_mark_extends m m' [v] a Hext) in Ha.
    revert a Ha. apply reachable_marked.
    - apply (mark_marks_closed (mark_budget m) v m m' log ∅); [| exact H].
      intros a w Ha. rewrite Hunm in Ha. discriminate.
    - intros r Hr Hp. apply list_elem_of_singleton in Hr as ->.
      eapply mark_marks; eauto. }
  split; [exact Hnd |]. split; [| split; [| split]].
  - intros a. split.
    + intros Ha. apply Hsound. now apply Hfresh.
    + intros Ha. destruct (mark_marked_log _ _ _ _ _ H a (Hcomplete a Ha)) as [Hm|Hl];
        [| exact Hl].
      rewrite Hunm in Hm. discriminate.
  - intros a. split; auto.
  - intros a c Hc. unfold is_marked.
    destruct (Hext a) as [E|(c0 & Hc0 & Hm0 & E)]; rewrite E.
    + rewrite Hc. pose proof (Hunm a) as Hu. unfold is_marked in Hu. rewrite Hc in Hu.
      now rewrite Hu.
    + rewrite Hc in Hc0. injection Hc0 as <-. now rewrite cell_set_mark_mark.
  - intros a Ha. destruct (Hext a) as [E|(c0 & Hc0 & _)]; congruence.
Qed.

Lemma mark_exact_witness :
  exists m' log,
    mark (mark_budget cyclic_heap) 4096 cyclic_heap = Ok (m', log)
    /\ NoDup log
    /\ (forall a, a ∈ log <-> reachable cyclic_heap [4096] a)
    /\ (forall a, is_marked m' a = true <-> reachable cyclic_heap [4096] a)
    /\ (forall a c, cyclic_heap !! a = Some c ->
          m' !! a = Some (if is_marked m' a then cell_set_mark c true else c))
    /\ (forall a, cyclic_heap !! a = None -> m' !! a = None).
Proof.
  apply (mark_exact cyclic_heap 4096).
  - apply heap_closedb_spec. vm_compute. reflexivity.
  - intros a. unfold is_marked.
    destruct (cyclic_heap !! a) as [c|] eqn:Hc; [| reflexivity].
    unfold cyclic_heap in Hc.
    destruct (decide (a = 4096)) as [->|H1].
    + rewrite lookup_insert_eq in Hc. injection Hc as <-. reflexivity.
    + rewrite lookup_insert_ne in Hc by congruence.
      destruct (decide (a = 4160)) as [->|H2].
      * rewrite lookup_insert_eq in Hc. injection Hc as <-. reflexivity.
      * rewrite lookup_insert_ne in Hc by congruence. rewrite lookup_empty in Hc. discriminate.
  - intros _. vm_compute. eauto.
Defined.

(** * More of gc.cpp: [add_heap], the constructor and [grow_heap] *)

Lemma is_pointer_iff a : is_pointer a = true <-> a mod 8 = 0 /\ a <> 0 /\ a <> 8.
Proof.
  unfold is_pointer, is_null, is_false, kNull, kFalse, kPointerMask, kPointerFlag.
  rewrite land_mask_7, !andb_true_iff, !negb_true_iff, !Z.eqb_neq, Z.eqb_eq. tauto.
Qed.

Lemma heap_cells_spec cfg heap a :
  a ∈ heap_cells cfg heap <->
  exists i : nat, (i < kGCHeapCellCount cfg)%nat /\ a = heap + Z.of_nat i * sizeof_MemoryCell cfg.
Proof.
  unfold heap_cells. rewrite list_elem_of_In, in_map_iff. split.
  - intros (i & <- & Hi). apply in_seq in Hi. exists i. split; [lia | reflexivity].
  - intros (i & Hi & ->). exists i. split; [reflexivity | apply in_seq; lia].
Qed.

Lemma heap_cells_NoDup cfg heap : 0 < sizeof_MemoryCell cfg -> NoDup (heap_cells cfg heap).
Proof.
  intros Hs. unfold heap_cells.
  change (NoDup ((fun i : nat => heap + Z.of_nat i * sizeof_MemoryCell cfg)
                   <$> seq 0 (kGCHeapCellCount cfg))).
  apply NoDup_fmap_2; [| apply NoDup_seq].
  intros i j E. nia.
Qed.

Lemma all_cells_app cfg hs h : all_cells cfg (hs ++ [h]) = all_cells cfg hs ++ heap_cells cfg h.
Proof.
  unfold all_cells. rewrite List.map_app, List.concat_app. simpl. now rewrite app_nil_r.
Qed.

Lemma free_list_in_memory m p l : free_list m p l -> forall a, a ∈ l -> is_Some (m !! a).
Proof.
  induction 1 as [|p c next l Hp Hc Has _ IH]; intros a Ha; [inversion Ha |].
  apply elem_of_cons in Ha as [->|Ha]; eauto.
Qed.

(** The loop of [add_heap] over cells that are not in use. *)
Lemma link_cells_spec : forall (cs : list VALUE) (m : Memory) (last : VALUE) (l : list VALUE),
  NoDup cs -> (forall a, a ∈ cs -> a <> 0 /\ m !! a = None) ->
  free_list m last l ->
  forall m' last',
  fold_left (fun (acc : Memory * VALUE) (cell : VALUE) =>
               (<[cell := mkCell (mkBasic 0) (AsFree (snd acc))]> (fst acc), cell))
            cs (m, last) = (m', last') ->
  free_list m' last' (rev cs ++ l)
  /\ (forall a, a ∉ cs -> m' !! a = m !! a)
  /\ (forall a, a ∈ cs -> exists next, m' !! a = Some (mkCell (mkBasic 0) (AsFree next))).
Proof.
  induction cs as [|a cs IH]; intros m last l Hnd Hnew Hfl m' last' E.
  - injection E as <- <-. simpl. split; [exact Hfl |]. split; [reflexivity |].
    intros a Ha. inversion Ha.
  - apply NoDup_cons in Hnd as [Hnotin Hnd]. simpl in E.
    destruct (Hnew a (list_elem_of_here _ _)) as [Ha0 Hnone].
    set (m1 := <[a := mkCell (mkBasic 0) (AsFree last)]> m) in *.
    assert (Hal : a ∉ l).
    { intros Hin. apply (free_list_in_memory _ _ _ Hfl) in Hin as [c Hc]. congruence. }
    assert (Hfl1 : free_list m1 a (a :: l)).
    { apply (free_list_cons _ a (mkCell (mkBasic 0) (AsFree last)) last);
        [exact Ha0 | apply lookup_insert_eq | reflexivity |].
      now apply free_list_insert_notin. }
    destruct (IH m1 a (a :: l) Hnd) with (m' := m') (last' := last') as (H1 & H2 & H3).
    + intros b Hb. destruct (Hnew b (list_elem_of_further _ _ _ Hb)) as [Hb0 Hbn].
      split; [exact Hb0 |]. unfold m1. rewrite lookup_insert_ne; [exact Hbn |].
      intros ->. contradiction.
    + exact Hfl1.
    + exact E.
    + simpl. rewrite <- app_assoc. simpl. split; [exact H1 |]. split.
      * intros b Hb. apply not_elem_of_cons in Hb as [Hba Hb].
        rewrite (H2 b Hb). unfold m1. now rewrite lookup_insert_ne.
      * intros b Hb. apply elem_of_cons in Hb as [->|Hb]; [| now apply H3].
        rewrite (H2 a Hnotin). unfold m1. rewrite lookup_insert_eq. eauto.
Qed.

Lemma reachable_valid m roots a :
  heap_closed m -> roots_valid m roots -> reachable m roots a -> is_Some (m !! a).
Proof.
  intros Hcl Hroots Hr. destruct Hr as [v Hin Hp|b v _ He].
  - now apply Hroots.
  - destruct He as (c & vs & Hc & Hch & Hv & Hp).
    destruct (Hcl b c Hc) as (vs' & Hch' & Hval).
    rewrite Hch in Hch'. injection Hch' as <-. auto.
Qed.

(** Cells that come into use do not become reachable. *)
Lemma reachable_more_cells m m' roots a :
  heap_closed m -> roots_valid m roots ->
  (forall b, is_Some (m !! b) -> m' !! b = m !! b) ->
  reachable m' roots a -> reachable m roots a.
Proof.
  intros Hcl Hroots Hsame Hr. induction Hr as [v Hin Hp|b v _ IH He].
  - now apply reachable_root.
  - eapply reachable_step; [exact IH |].
    destruct He as (c & vs & Hc & Hrest).
    rewrite (Hsame b (reachable_valid m roots b Hcl Hroots IH)) in Hc.
    exists c, vs. auto.
Qed.

Lemma elem_of_rev (a : VALUE) (l : list VALUE) : a ∈ rev l <-> a ∈ l.
Proof. rewrite !list_elem_of_In. symmetry. apply in_rev. Qed.

Lemma add_heap_eq cfg mm :
  exists m' last',
    fold_left (fun (acc : Memory * VALUE) (cell : VALUE) =>
                 (<[cell := mkCell (mkBasic 0) (AsFree (snd acc))]> (fst acc), cell))
              (heap_cells cfg (brk mm)) (memory mm, free_cell mm) = (m', last')
    /\ add_heap cfg mm
       = mkMM last' (heaps mm ++ [brk mm]) (temporaries mm) m'
              (brk mm + Z.of_nat (kGCHeapCellCount cfg) * sizeof_MemoryCell cfg) (out mm).
Proof.
  unfold add_heap. cbv zeta.
  destruct (fold_left _ (heap_cells cfg (brk mm)) (memory mm, free_cell mm)) as [m' last'].
  eauto.
Qed.

(** [add_heap] keeps the state well-formed and links the cells of the new
    heap in front of the free list, the last cell of the heap first. *)
Lemma add_heap_inv cfg vm mm l :
  heap_inv cfg vm mm -> free_list (memory mm) (free_cell mm) l ->
  heap_inv cfg vm (add_heap cfg mm)
  /\ free_list (memory (add_heap cfg mm)) (free_cell (add_heap cfg mm))
       (rev (heap_cells cfg (brk mm)) ++ l)
  /\ (forall a, is_Some (memory mm !! a) -> memory (add_heap cfg mm) !! a = memory mm !! a)
  /\ (forall a, a ∈ heap_cells cfg (brk mm) -> memory mm !! a = None)
  /\ temporaries (add_heap cfg mm) = temporaries mm
  /\ out (add_heap cfg mm) = out mm.
Proof.
  intros [Hwf (Hs & Hs8 & Hb & Hb8 & Hlt)] Hfl.
  set (cs := heap_cells cfg (brk mm)).
  assert (Hcs : forall a, a ∈ cs ->
            brk mm <= a < brk mm + Z.of_nat (kGCHeapCellCount cfg) * sizeof_MemoryCell cfg
            /\ a mod 8 = 0).
  { intros a Ha. apply heap_cells_spec in Ha as (i & Hi & ->). split; [nia |].
    rewrite Z.add_mod by lia. rewrite Z.mul_mod by lia. rewrite Hs8, Hb8, Z.mul_0_r.
    reflexivity. }
  assert (Hnew : forall a, a ∈ cs -> a <> 0 /\ memory mm !! a = None).
  { intros a Ha. destruct (Hcs a Ha) as [Hr _]. split; [lia |].
    destruct (memory mm !! a) as [c|] eqn:E; [| reflexivity].
    specialize (Hlt a (mk_is_Some _ _ E)). lia. }
  pose proof (heap_cells_NoDup cfg (brk mm) Hs) as Hnd_cs. fold cs in Hnd_cs.
  destruct (add_heap_eq cfg mm) as (m' & last' & E & ->). fold cs in E.
  destruct (link_cells_spec cs (memory mm) (free_cell mm) l Hnd_cs Hnew Hfl m' last' E)
    as (Hfl' & Hold & Hzero).
  simpl.
  assert (Hsame : forall a, is_Some (memory mm !! a) -> m' !! a = memory mm !! a).
  { intros a Ha. apply Hold. intros Hin. destruct (Hnew a Hin) as [_ Hn].
    rewrite Hn in Ha. destruct Ha; discriminate. }
  assert (Hcase : forall a c, m' !! a = Some c ->
            (a ∈ cs /\ exists next, c = mkCell (mkBasic 0) (AsFree next))
            \/ ((a ∉ cs) /\ memory mm !! a = Some c)).
  { intros a c Hc. destruct (decide (a ∈ cs)) as [Hin|Hnin].
    - left. split; [exact Hin |]. destruct (Hzero a Hin) as (next & Hz).
      rewrite Hz in Hc. injection Hc as <-. eauto.
    - right. split; [exact Hnin |]. now rewrite <- (Hold a Hnin). }
  destruct Hwf as [Hcl Hclean Hflags Hunm Hroots Hcells Hnd Hptr (l0 & Hfl0 & Hdead0 & Hunr0)].
  rewrite (free_list_unique _ _ _ Hfl0 _ Hfl) in Hdead0, Hunr0. clear l0 Hfl0.
  split; [split |].
  - constructor; simpl.
    + intros a c Hc. destruct (Hcase a c Hc) as [(Hin & next & ->)|(Hnin & Hc0)].
      * exists []. split; [reflexivity |]. intros v Hv. inversion Hv.
      * destruct (Hcl a c Hc0) as (vs & Hch & Hval). exists vs. split; [exact Hch |].
        intros v Hv Hp. specialize (Hval v Hv Hp). rewrite (Hsame v Hval). exact Hval.
    + intros a c Hc. destruct (Hcase a c Hc) as [(Hin & next & ->)|(Hnin & Hc0)];
        [reflexivity | eapply Hclean; eauto].
    + intros a c Hc. destruct (Hcase a c Hc) as [(Hin & next & ->)|(Hnin & Hc0)];
        [simpl; lia | eapply Hflags; eauto].
    + intros a. unfold is_marked. destruct (m' !! a) as [c|] eqn:Hc; [| reflexivity].
      destruct (Hcase a c Hc) as [(_ & next & ->)|(_ & Hc0)]; [reflexivity |].
      specialize (Hunm a). unfold is_marked in Hunm. now rewrite Hc0 in Hunm.
    + intros v Hv Hp. specialize (Hroots v Hv Hp). rewrite (Hsame v Hroots). exact Hroots.
    + intros a. rewrite all_cells_app, elem_of_app. fold cs. split.
      * intros [c Hc]. destruct (Hcase a c Hc) as [(Hin & _)|(_ & Hc0)];
          [now right | left; apply Hcells; eauto].
      * intros [Ha|Ha].
        -- apply Hcells in Ha. rewrite (Hsame a Ha). exact Ha.
        -- destruct (Hzero a Ha) as (next & ->). eauto.
    + rewrite all_cells_app. apply NoDup_app. split; [exact Hnd |].
      split; [| exact Hnd_cs].
      intros a Ha Hin. apply Hcells in Ha. destruct (Hnew a Hin) as [_ Hn].
      rewrite Hn in Ha. destruct Ha; discriminate.
    + intros a [c Hc]. destruct (Hcase a c Hc) as [(Hin & _)|(_ & Hc0)];
        [| apply Hptr; eauto].
      apply is_pointer_iff. destruct (Hcs a Hin) as [Hr H8]. split; [exact H8 | lia].
    + exists (rev cs ++ l). split; [exact Hfl' |]. split.
      * intros a Ha. apply elem_of_app in Ha as [Ha|Ha].
        -- rewrite elem_of_rev in Ha. destruct (Hzero a Ha) as (next & Hz).
           unfold cell_type. rewrite Hz. reflexivity.
        -- unfold cell_type. rewrite (Hsame a (free_list_in_memory _ _ _ Hfl a Ha)).
           apply Hdead0, Ha.
      * intros a Ha Hre.
        apply (reachable_more_cells (memory mm) m' _ a Hcl Hroots Hsame) in Hre.
        apply elem_of_app in Ha as [Ha|Ha].
        -- rewrite elem_of_rev in Ha.
           pose proof (reachable_valid _ _ _ Hcl Hroots Hre) as Hv.
           destruct (Hnew a Ha) as [_ Hn]. rewrite Hn in Hv. destruct Hv; discriminate.
        -- now apply (Hunr0 a).
  - unfold heap_layout. simpl. split; [exact Hs |]. split; [exact Hs8 |].
    split; [nia |]. split.
    + rewrite Z.add_mod by lia. rewrite Z.mul_mod by lia. rewrite Hs8, Hb8, Z.mul_0_r.
      reflexivity.
    + intros a [c Hc]. destruct (Hcase a c Hc) as [(Hin & _)|(_ & Hc0)].
      * destruct (Hcs a Hin). lia.
      * specialize (Hlt a (mk_is_Some _ _ Hc0)). nia.
  - split; [exact Hfl' |]. split; [exact Hsame |].
    split; [intros a Ha; apply Hnew, Ha |]. split; reflexivity.
Qed.

Lemma iter_add_heap_inv cfg vm n : forall mm l,
  heap_inv cfg vm mm -> free_list (memory mm) (free_cell mm) l ->
  heap_inv cfg vm (Nat.iter n (add_heap cfg) mm)
  /\ exists added,
       heaps (Nat.iter n (add_heap cfg) mm) = heaps mm ++ added
       /\ length added = n
       /\ free_list (memory (Nat.iter n (add_heap cfg) mm))
            (free_cell (Nat.iter n (add_heap cfg) mm)) (rev (all_cells cfg added) ++ l)
       /\ (forall a, is_Some (memory mm !! a) ->
             memory (Nat.iter n (add_heap cfg) mm) !! a = memory mm !! a)
       /\ (forall a, a ∈ all_cells cfg added -> memory mm !! a = None)
       /\ temporaries (Nat.iter n (add_heap cfg) mm) = temporaries mm
       /\ out (Nat.iter n (add_heap cfg) mm) = out mm
       /\ brk mm <= brk (Nat.iter n (add_heap cfg) mm).
Proof.
  induction n as [|n IH]; intros mm l Hinv Hfl.
  - simpl. split; [exact Hinv |]. exists []. rewrite app_nil_r. simpl.
    split; [reflexivity |]. split; [reflexivity |]. split; [exact Hfl |].
    split; [reflexivity |]. split; [intros a Ha; inversion Ha |].
    split; [reflexivity |]. split; [reflexivity | lia].
  - destruct (IH mm l Hinv Hfl)
      as (Hinv1 & added & Hh & Hlen & Hfl1 & Hsame & Hfresh & Ht & Ho & Hbrk).
    simpl. set (mm1 := Nat.iter n (add_heap cfg) mm) in *.
    destruct (add_heap_inv cfg vm mm1 _ Hinv1 Hfl1)
      as (Hinv2 & Hfl2 & Hsame2 & Hfresh2 & Ht2 & Ho2).
    split; [exact Hinv2 |].
    exists (added ++ [brk mm1]).
    split; [rewrite add_heap_heaps, Hh; now rewrite app_assoc |].
    split; [rewrite length_app; simpl; lia |].
    split.
    { rewrite all_cells_app, rev_app_distr, <- app_assoc. exact Hfl2. }
    split.
    { intros a Ha. rewrite <- (Hsame a Ha). apply Hsame2. rewrite (Hsame a Ha). exact Ha. }
    split.
    { intros a Ha. rewrite all_cells_app in Ha. apply elem_of_app in Ha as [Ha|Ha];
        [now apply Hfresh |].
      specialize (Hfresh2 a Ha).
      destruct (memory mm !! a) as [c|] eqn:Hc; [| reflexivity].
      rewrite (Hsame a (mk_is_Some _ _ Hc)) in Hfresh2. congruence. }
    split; [congruence |]. split; [congruence |].
    rewrite add_heap_brk. destruct Hinv1 as [_ (Hs & _)]. nia.
Qed.

Lemma heap_inv_empty cfg vm base :
  0 < sizeof_MemoryCell cfg -> sizeof_MemoryCell cfg mod 8 = 0 ->
  8 < base -> base mod 8 = 0 ->
  (forall v, v ∈ stack vm ++ [frames vm; catchstack vm] -> is_pointer v = false) ->
  heap_inv cfg vm (mkMM 0 [] [] ∅ base []).
Proof.
  intros Hs Hs8 Hb Hb8 Hroots. split.
  - constructor; simpl.
    + intros a c Hc. rewrite lookup_empty in Hc. discriminate.
    + intros a c Hc. rewrite lookup_empty in Hc. discriminate.
    + intros a c Hc. rewrite lookup_empty in Hc. discriminate.
    + intros a. unfold is_marked. now rewrite lookup_empty.
    + intros v Hv Hp. unfold gc_roots in Hv. simpl in Hv.
      rewrite (Hroots v Hv) in Hp. discriminate.
    + intros a. rewrite lookup_empty. split; [intros [c Hc]; discriminate |].
      intros Ha. inversion Ha.
    + constructor.
    + intros a [c Hc]. rewrite lookup_empty in Hc. discriminate.
    + exists []. split; [constructor |]. split; intros a Ha; inversion Ha.
  - unfold heap_layout. simpl. repeat split; auto.
    intros a [c Hc]. rewrite lookup_empty in Hc. discriminate.
Qed.

Lemma all_cells_length cfg hs :
  length (all_cells cfg hs) = (length hs * kGCHeapCellCount cfg)%nat.
Proof.
  induction hs as [|h hs IH]; [reflexivity |].
  unfold all_cells in *. simpl. rewrite length_app, IH.
  unfold heap_cells. rewrite length_map, length_seq. reflexivity.
Qed.

Lemma heap_layoutb_spec cfg mm : heap_layoutb cfg mm = true -> heap_layout cfg mm.
Proof.
  unfold heap_layoutb, heap_layout. rewrite !andb_true_iff.
  intros [[[[H1 H2] H3] H4] H5].
  apply Z.ltb_lt in H1, H3. apply Z.eqb_eq in H2, H4.
  repeat split; auto.
  intros a [c Hc]. apply (forallb_map_to_list _ _ H5) in Hc. now apply Z.ltb_lt in Hc.
Qed.

(** X17: the constructor, run where [calloc] hands out aligned blocks and
    before the machine holds a pointer, builds a well-formed state of
    [kGCInitialHeapCount] heaps in which every cell is a dead cell on the free
    list, the last cell of the last heap first; no temporary is registered
    and nothing is printed. *)
Theorem MemoryManager_new_spec (cfg : GCConfig) (vm : VM) (base : Z) :
  0 < sizeof_MemoryCell cfg -> sizeof_MemoryCell cfg mod 8 = 0 ->
  8 < base -> base mod 8 = 0 ->
  (forall v, v ∈ stack vm ++ [frames vm; catchstack vm] -> is_pointer v = false) ->
  heap_inv cfg vm (MemoryManager_new cfg base)
  /\ length (heaps (MemoryManager_new cfg base)) = kGCInitialHeapCount cfg
  /\ free_list (memory (MemoryManager_new cfg base)) (free_cell (MemoryManager_new cfg base))
       (rev (all_cells cfg (heaps (MemoryManager_new cfg base))))
  /\ length (all_cells cfg (heaps (MemoryManager_new cfg base)))
     = (kGCInitialHeapCount cfg * kGCHeapCellCount cfg)%nat
  /\ (forall a, a ∈ all_cells cfg (heaps (MemoryManager_new cfg base)) ->
        cell_type (memory (MemoryManager_new cfg base)) a = Some kTypeDead)
  /\ temporaries (MemoryManager_new cfg base) = []
  /\ out (MemoryManager_new cfg base) = [].
Proof.
  intros Hs Hs8 Hb Hb8 Hroots. unfold MemoryManager_new.
  destruct (iter_add_heap_inv cfg vm (kGCInitialHeapCount cfg) (mkMM 0 [] [] ∅ base []) [])
    as ([Hwf Hlay] & added & Hh & Hlen & Hfl & _ & _ & Ht & Ho & _).
  - now apply heap_inv_empty.
  - constructor.
  - simpl in Hh. rewrite app_nil_r in Hfl. rewrite Hh.
    split; [split; [exact Hwf | exact Hlay] |]. split; [exact Hlen |]. split; [exact Hfl |].
    split; [now rewrite all_cells_length, Hlen |].
    split; [| split; [exact Ht | exact Ho]].
    intros a Ha. destruct Hwf as [_ _ _ _ _ _ _ _ (l & Hl & Hdead & _)].
    rewrite (free_list_unique _ _ _ Hl _ Hfl) in Hdead.
    apply Hdead. now rewrite elem_of_rev.
Qed.

Lemma MemoryManager_new_spec_witness :
  heap_inv small_config empty_vm (MemoryManager_new small_config 4096)
  /\ free_list (memory (MemoryManager_new small_config 4096))
       (free_cell (MemoryManager_new small_config 4096))
       [4544; 4480; 4416; 4352; 4288; 4224; 4160; 4096].
Proof.
  destruct (MemoryManager_new_spec small_config empty_vm 4096) as (Hwf & _ & Hfl & _).
  - reflexivity.
  - reflexivity.
  - reflexivity.
  - reflexivity.
  - intros v Hv. simpl in Hv.
    apply elem_of_cons in Hv as [->|Hv]; [reflexivity |].
    apply list_elem_of_singleton in Hv as ->. reflexivity.
  - split; [exact Hwf | exact Hfl].
Defined.

(** X18: [grow_heap] on a well-formed state keeps it well-formed, leaves the
    cells in use as they are and links every cell of the heaps it adds in
    front of the free list; unless the count overflows, the number of heaps is
    multiplied by the growth factor, so that a factor of one adds nothing. *)
Theorem grow_heap_spec (cfg : GCConfig) (vm : VM) (mm : MemoryManager) (l : list VALUE) :
  heap_inv cfg vm mm -> free_list (memory mm) (free_cell mm) l ->
  exists added,
    heap_inv cfg vm (grow_heap cfg mm)
    /\ heaps (grow_heap cfg mm) = heaps mm ++ added
    /\ free_list (memory (grow_heap cfg mm)) (free_cell (grow_heap cfg mm))
         (rev (all_cells cfg added) ++ l)
    /\ (forall a, is_Some (memory mm !! a) -> memory (grow_heap cfg mm) !! a = memory mm !! a)
    /\ (forall a, a ∈ all_cells cfg added -> memory mm !! a = None)
    /\ ((1 <= kGCHeapCountGrowthFactor cfg)%nat ->
        Z.of_nat (length (heaps mm) * kGCHeapCountGrowthFactor cfg) < 2 ^ 64 ->
        length (heaps (grow_heap cfg mm))
        = (length (heaps mm) * kGCHeapCountGrowthFactor cfg)%nat)
    /\ (kGCHeapCountGrowthFactor cfg = 1%nat -> Z.of_nat (length (heaps mm)) < 2 ^ 64 ->
        grow_heap cfg mm = mm).
Proof.
  intros Hinv Hfl. unfold grow_heap at 1 2 3 4 5.
  match goal with |- context [Nat.iter ?k] => set (n := k) end.
  destruct (iter_add_heap_inv cfg vm n mm l Hinv Hfl)
    as (Hinv' & added & Hh & Hlen & Hfl' & Hsame & Hfresh & _).
  exists added. split; [exact Hinv' |]. split; [exact Hh |]. split; [exact Hfl' |].
  split; [exact Hsame |]. split; [exact Hfresh |]. split.
  - apply grow_heap_length.
  - intros Hf Hlt. unfold grow_heap. rewrite Hf. change (Z.of_nat 1) with 1.
    rewrite Z.mul_1_r. unfold wrap64.
    rewrite (Z.mod_small (Z.of_nat (length (heaps mm)))) by lia.
    rewrite Z.sub_diag. reflexivity.
Qed.

Lemma grow_heap_spec_witness :
  exists added,
    heaps (grow_heap small_config (MemoryManager_new small_config 4096)) = [4096] ++ added
    /\ free_list (memory (grow_heap small_config (MemoryManager_new small_config 4096)))
         (free_cell (grow_heap small_config (MemoryManager_new small_config 4096)))
         (rev (all_cells small_config added)
          ++ [4544; 4480; 4416; 4352; 4288; 4224; 4160; 4096]).
Proof.
  destruct (grow_heap_spec small_config empty_vm (MemoryManager_new small_config 4096)
              [4544; 4480; 4416; 4352; 4288; 4224; 4160; 4096])
    as (added & _ & Hh & Hfl & _).
  - split; [apply gc_wfb_spec | apply heap_layoutb_spec]; vm_compute; reflexivity.
  - apply (free_chain_spec _ 8). vm_compute. reflexivity.
  - exists added. split; [exact Hh | exact Hfl].
Defined.

(** * More of gc.cpp: [allocate] keeps the state well-formed *)

Lemma free_list_suffix m p l :
  free_list m p l -> forall a, a ∈ l -> exists l1 l2, l = l1 ++ l2 /\ free_list m a l2.
Proof.
  induction 1 as [|p c next l Hp Hc Has Hfl IH]; intros a Ha; [inversion Ha |].
  destruct (decide (a = p)) as [->|Hne].
  - exists [], (p :: l). split; [reflexivity |]. eapply free_list_cons; eauto.
  - apply elem_of_cons in Ha as [->|Ha]; [congruence |].
    destruct (IH a Ha) as (l1 & l2 & -> & H2). exists (p :: l1), l2. auto.
Qed.

(** A chain that ends passes no cell twice. *)
Lemma free_list_NoDup m p l : free_list m p l -> NoDup l.
Proof.
  induction 1 as [|p c next l Hp Hc Has Hfl IH]; [constructor |].
  apply NoDup_cons. split; [| exact IH].
  intros Hin. destruct (free_list_suffix _ _ _ Hfl p Hin) as (l1 & l2 & -> & H2).
  assert (Hall : free_list m p (p :: l1 ++ l2)) by (eapply free_list_cons; eauto).
  pose proof (free_list_unique _ _ _ Hall _ H2) as E.
  apply (f_equal length) in E. simpl in E. rewrite length_app in E. lia.
Qed.

Lemma free_list_null m l : free_list m 0 l -> l = [].
Proof. inversion 1; [reflexivity | congruence]. Qed.

(** X14: a collection on a well-formed state of fewer than 2^31 cells links
    the cells it frees in front of the free list it found, which it leaves as
    it was; the cells it frees are the live cells that the stack, the
    temporaries, the frame chain and the catch-table chain do not reach by
    the references [mark] follows, and the count it prints between its two
    banners is their number, which the [int] that counts them holds.  It
    unregisters no temporary and adds no heap. *)
Theorem collect_reports_freed (cfg : GCConfig) (vm : VM) (mm : MemoryManager) :
  gc_wf cfg vm mm ->
  Z.of_nat (length (all_cells cfg (heaps mm))) < 2 ^ 31 ->
  exists mm' l fr,
    collect cfg vm mm = Ok mm'
    /\ temporaries mm' = temporaries mm /\ heaps mm' = heaps mm
    /\ free_list (memory mm) (free_cell mm) l
    /\ free_list (memory mm') (free_cell mm') (fr ++ l)
    /\ Z.of_nat (length fr) < 2 ^ 31
    /\ out mm' = out mm ++ [GCPause; GCFreed (Z.of_nat (length fr)); GCFinished]
    /\ (forall a, a ∈ fr <->
          ~ traced (memory mm)
              (stack vm ++ temporaries mm ++ [frames vm; catchstack vm]) a
          /\ exists c, memory mm !! a = Some c /\ Basic_type (basic c) <> kTypeDead).
Proof.
  intros Hwf Hint.
  destruct (collect_spec cfg vm mm Hwf) as (mm' & freed & l0 & l1 & Hcol & Ht & Hh & _).
  destruct (collect_freed cfg vm mm mm' Hwf Hcol) as (l & fr & Hl & Hfr & Hout & Hin).
  exists mm', l, fr. split; [exact Hcol |]. split; [exact Ht |]. split; [exact Hh |].
  split; [exact Hl |]. split; [exact Hfr |]. split; [| split; [exact Hout |]].
  - assert (Hnd : NoDup fr).
    { apply free_list_NoDup in Hfr. now apply NoDup_app in Hfr as [Hnd _]. }
    assert (Hsub : fr ⊆+ all_cells cfg (heaps mm)).
    { apply NoDup_submseteq; [exact Hnd |]. intros a Ha.
      apply Hin in Ha as (_ & c & Hc & _). apply (wf_cells _ _ _ Hwf). eauto. }
    apply submseteq_length in Hsub. lia.
  - intros a. rewrite (Hin a).
    rewrite (traced_reachable _ _ a (wf_closed _ _ _ Hwf)). reflexivity.
Qed.

Lemma collect_reports_freed_witness :
  exists mm' l fr,
    collect small_config scheduler_vm scheduler_mm = Ok mm'
    /\ temporaries mm' = temporaries scheduler_mm /\ heaps mm' = heaps scheduler_mm
    /\ free_list (memory scheduler_mm) (free_cell scheduler_mm) l
    /\ free_list (memory mm') (free_cell mm') (fr ++ l)
    /\ Z.of_nat (length fr) < 2 ^ 31
    /\ out mm' = out scheduler_mm ++ [GCPause; GCFreed (Z.of_nat (length fr)); GCFinished]
    /\ (forall a, a ∈ fr <->
          ~ traced (memory scheduler_mm)
              (stack scheduler_vm ++ temporaries scheduler_mm
               ++ [frames scheduler_vm; catchstack scheduler_vm]) a
          /\ exists c, memory scheduler_mm !! a = Some c
                       /\ Basic_type (basic c) <> kTypeDead).
Proof.
  apply (collect_reports_freed small_config scheduler_vm scheduler_mm).
  - apply gc_wfb_spec. vm_compute. reflexivity.
  - vm_compute. reflexivity.
Defined.

Lemma heap_inv_print cfg vm mm o : heap_inv cfg vm mm -> heap_inv cfg vm (mm_print mm o).
Proof.
  intros [[Hcl Hclean Hflags Hunm Hroots Hcells Hnd Hptr Hfree] Hlay].
  split; [constructor; assumption | exact Hlay].
Qed.

(** X19: from a well-formed state [allocate] returns the head of the free
    list and leaves a well-formed state, whether it only unlinks the cell,
    collects, or grows the heap.  The temporaries and every cell a root
    reaches are as before.  A cell that is returned is a dead cell at a
    pointer address that is no longer on the free list. *)
Theorem allocate_preserves_inv (cfg : GCConfig) (vm : VM) (mm : MemoryManager) :
  heap_inv cfg vm mm ->
  exists mm',
    allocate cfg vm mm = Ok (free_cell mm, mm')
    /\ heap_inv cfg vm mm'
    /\ temporaries mm' = temporaries mm
    /\ (forall a, reachable (memory mm) (gc_roots vm mm) a ->
          memory mm' !! a = memory mm !! a)
    /\ (free_cell mm <> 0 ->
        is_pointer (free_cell mm) = true
        /\ cell_type (memory mm') (free_cell mm) = Some kTypeDead
        /\ ~ on_free_list mm' (free_cell mm)).
Proof.
  intros [Hwf Hlay].
  destruct (Z.eq_dec (free_cell mm) 0) as [H0|Hp].
  { exists mm. split; [rewrite (allocate_empty cfg vm mm H0); now rewrite H0 |].
    split; [split; assumption |]. split; [reflexivity |]. split; [reflexivity |].
    intros Hne. contradiction. }
  destruct (allocate_head cfg vm mm Hwf Hp) as (c & next & Hc & Has & Hptr & Hwf_pop).
  pose proof Hwf as [Hcl _ _ _ Hroots _ _ _ (l & Hfl & Hdead & Hunr)].
  assert (Hl : exists l', l = free_cell mm :: l' /\ free_list (memory mm) next l').
  { inversion Hfl as [E|p c' next' l' Hp' Hc' Has' Hfl' E1 E2]; [congruence |]. subst.
    rewrite Hc in Hc'. injection Hc' as <-. rewrite Has in Has'. injection Has' as <-. eauto. }
  destruct Hl as (l' & -> & Hfl').
  pose proof (free_list_NoDup _ _ _ Hfl) as Hnd. apply NoDup_cons in Hnd as [Hnotin _].
  pose proof (Hdead _ (list_elem_of_here _ _)) as Hty.
  pose proof (Hunr _ (list_elem_of_here _ _)) as Hnr.
  destruct (Z.eq_dec next 0) as [->|Hnext].
  - set (mm0 := mm_set_free_cell mm 0) in *.
    destruct (collect_spec cfg vm mm0 Hwf_pop)
      as (mmc & freed & l0 & lc & Hcol & Htc & Hhc & Hbc & Hoc & Hnone & Hsome & Hfl0 & Hflc & Hlc).
    destruct (allocate_last cfg vm mm c Hwf Hp Hc Has) as (mmc' & Hcol' & _ & _ & _ & Halloc).
    fold mm0 in Hcol'. rewrite Hcol in Hcol'. injection Hcol' as <-.
    pose proof (collect_preserves_wf cfg vm mm0 mmc Hwf_pop Hcol) as Hwfc.
    change (memory mm0) with (memory mm) in *.
    change (gc_roots vm mm0) with (gc_roots vm mm) in *.
    change (temporaries mm0) with (temporaries mm) in *.
    change (brk mm0) with (brk mm) in *.
    apply free_list_null in Hfl0. subst l0.
    assert (Hinvc : heap_inv cfg vm mmc).
    { split; [exact Hwfc |]. destruct Hlay as (Hs & Hs8 & Hb & Hb8 & Hlt).
      unfold heap_layout. rewrite Hbc. repeat split; auto.
      intros a Ha. apply Hlt. destruct (memory mm !! a) as [ca|] eqn:Hca; [eauto |].
      rewrite (Hnone a Hca) in Ha. exact Ha. }
    assert (Hkeep : forall a, reachable (memory mm) (gc_roots vm mm) a ->
              memory mmc !! a = memory mm !! a).
    { intros a Hre. destruct (reachable_valid _ _ _ Hcl Hroots Hre) as [ca Hca].
      destruct (Hsome a ca Hca) as (c' & -> & [[_ ->]|[Hn _]]); [now rewrite Hca | contradiction]. }
    assert (Hcellc : memory mmc !! free_cell mm = Some c).
    { destruct (Hsome _ c Hc) as (c' & -> & [[Hre _]|[_ Hcoll]]); [contradiction |].
      unfold cell_type in Hty. rewrite Hc in Hty. simpl in Hty. injection Hty as Hty.
      rewrite Hty, Z.eqb_refl in Hcoll. now rewrite Hcoll. }
    assert (Htyc : cell_type (memory mmc) (free_cell mm) = Some kTypeDead).
    { unfold cell_type in *. rewrite Hcellc. now rewrite Hc in Hty. }
    assert (Hnotc : free_cell mm ∉ lc).
    { intros Hin. apply Hlc in Hin as [Hin|(_ & c' & Hc' & Hnd')]; [inversion Hin |].
      rewrite Hc in Hc'. injection Hc' as <-.
      unfold cell_type in Hty. rewrite Hc in Hty. simpl in Hty. congruence. }
    eexists. split; [exact Halloc |].
    destruct (Z.eqb_spec (free_cell mmc) 0) as [Hc0|Hc0].
    + assert (Hgrow : heap_inv cfg vm (grow_heap cfg mmc)
                /\ temporaries (grow_heap cfg mmc) = temporaries mmc
                /\ (forall a, is_Some (memory mmc !! a) ->
                      memory (grow_heap cfg mmc) !! a = memory mmc !! a)
                /\ ~ on_free_list (grow_heap cfg mmc) (free_cell mm)).
      { unfold grow_heap.
        match goal with |- context [Nat.iter ?k] => set (n := k) end.
        destruct (iter_add_heap_inv cfg vm n mmc lc Hinvc Hflc)
          as (Hinvg & added & _ & _ & Hflg & Hsame & Hfresh & Htg & _).
        split; [exact Hinvg |]. split; [exact Htg |]. split; [exact Hsame |].
        intros Hon. apply (on_free_list_iff _ _ _ Hflg) in Hon.
        apply elem_of_app in Hon as [Hon|Hon]; [| contradiction].
        rewrite elem_of_rev in Hon. rewrite (Hfresh _ Hon) in Hcellc. discriminate. }
      destruct Hgrow as (Hinvg & Htg & Hsame & Hnotg).
      assert (Hrest : temporaries (grow_heap cfg mmc) = temporaries mm
                /\ (forall a, reachable (memory mm) (gc_roots vm mm) a ->
                      memory (grow_heap cfg mmc) !! a = memory mm !! a)
                /\ (free_cell mm <> 0 ->
                    is_pointer (free_cell mm) = true
                    /\ cell_type (memory (grow_heap cfg mmc)) (free_cell mm) = Some kTypeDead
                    /\ ~ on_free_list (grow_heap cfg mmc) (free_cell mm))).
      { split; [congruence |]. split.
        - intros a Hre. rewrite <- (Hkeep a Hre). apply Hsame. rewrite (Hkeep a Hre).
          exact (reachable_valid _ _ _ Hcl Hroots Hre).
        - intros _. split; [exact Hptr |]. split; [| exact Hnotg].
          unfold cell_type. rewrite (Hsame _ (mk_is_Some _ _ Hcellc)). exact Htyc. }
      destruct (free_cell (grow_heap cfg mmc) =? 0).
      * split; [now apply heap_inv_print | exact Hrest].
      * split; [exact Hinvg | exact Hrest].
    + split; [exact Hinvc |]. split; [exact Htc |]. split; [exact Hkeep |].
      intros _. split; [exact Hptr |]. split; [exact Htyc |].
      intros Hon. now apply (on_free_list_iff _ _ _ Hflc) in Hon.
  - exists (mm_set_free_cell mm next).
    split; [now apply (allocate_pop cfg vm mm c) |].
    split; [split; [exact Hwf_pop | exact Hlay] |].
    split; [reflexivity |]. split; [reflexivity |].
    intros _. split; [exact Hptr |]. split; [exact Hty |].
    intros Hon. now apply (on_free_list_iff (mm_set_free_cell mm next) l' _ Hfl') in Hon.
Qed.

Lemma allocate_preserves_inv_witness :
  exists mm',
    allocate small_config scheduler_vm scheduler_mm = Ok (4096, mm')
    /\ heap_inv small_config scheduler_vm mm'
    /\ cell_type (memory mm') 4096 = Some kTypeDead
    /\ ~ on_free_list mm' 4096.
Proof.
  destruct (allocate_preserves_inv small_config scheduler_vm scheduler_mm)
    as (mm' & H & Hinv & _ & _ & Hcell).
  - split; [apply gc_wfb_spec | apply heap_layoutb_spec]; vm_compute; reflexivity.
  - exists mm'. split; [exact H |]. split; [exact Hinv |].
    destruct Hcell as (_ & Hty & Hnot); [discriminate |]. auto.
Defined.

(** X20: "we do a collect in order to make sure we never get a failing
    allocation in the future": with at least one cell per heap and a growth
    factor of two or more, and unless the number of heaps overflows, an
    allocation from a well-formed state whose free list holds a cell returns
    that cell, which lies at a pointer address, and leaves a cell on the free
    list for the next allocation. *)
Theorem allocate_never_empties (cfg : GCConfig) (vm : VM) (mm : MemoryManager) :
  gc_wf cfg vm mm -> free_cell mm <> 0 ->
  (1 <= kGCHeapCellCount cfg)%nat -> (2 <= kGCHeapCountGrowthFactor cfg)%nat ->
  0 < sizeof_MemoryCell cfg -> 0 < brk mm ->
  Z.of_nat (length (heaps mm) * kGCHeapCountGrowthFactor cfg) < 2 ^ 64 ->
  exists mm',
    allocate cfg vm mm = Ok (free_cell mm, mm')
    /\ is_pointer (free_cell mm) = true
    /\ free_cell mm' <> 0.
Proof.
  intros Hwf Hp Hc Hf Hs Hb Hlt.
  destruct (allocate_head cfg vm mm Hwf Hp) as (c & next & Hc' & _ & Hptr & _).
  assert (Hh : heaps mm <> []).
  { intros E. apply (mk_is_Some _ _) in Hc'. apply (wf_cells _ _ _ Hwf) in Hc'.
    rewrite E in Hc'. inversion Hc'. }
  destruct (allocate_keeps_reserve cfg vm mm Hwf Hp Hc Hf Hs Hb Hh Hlt)
    as (mm' & Halloc & Hfree).
  exists mm'. auto.
Qed.

Lemma allocate_never_empties_witness :
  exists mm',
    allocate small_config scheduler_vm scheduler_mm = Ok (4096, mm')
    /\ free_cell mm' <> 0.
Proof.
  destruct (allocate_never_empties small_config scheduler_vm scheduler_mm)
    as (mm' & H & _ & Hfree).
  - apply gc_wfb_spec. vm_compute. reflexivity.
  - discriminate.
  - simpl. lia.
  - simpl. lia.
  - reflexivity.
  - reflexivity.
  - vm_compute. reflexivity.
  - exists mm'. auto.
Defined.

(** * More of gc.cpp: the destructor *)

Lemma free_all_spec : forall (todo : list VALUE) (mm : MemoryManager),
  NoDup todo ->
  (forall a, a ∈ todo -> exists c, memory mm !! a = Some c /\ clean c = Ok tt) ->
  exists mm',
    foldM free todo mm = Ok mm'
    /\ (forall a, a ∈ todo ->
          exists next, memory mm' !! a = Some (mkCell (mkBasic 0) (AsFree next)))
    /\ (forall a, a ∉ todo -> memory mm' !! a = memory mm !! a)
    /\ heaps mm' = heaps mm /\ brk mm' = brk mm /\ out mm' = out mm
    /\ (forall t, t ∈ temporaries mm' -> t ∈ temporaries mm).
Proof.
  induction todo as [|a todo IH]; intros mm Hnd Hcells.
  - exists mm. simpl. split; [reflexivity |]. split; [intros a Ha; inversion Ha |]. auto.
  - apply NoDup_cons in Hnd as [Hnotin Hnd].
    destruct (Hcells a (list_elem_of_here _ _)) as (c & Hc & Hclean).
    pose proof (free_eq mm a) as Hfree. rewrite Hc, Hclean in Hfree. simpl in Hfree.
    set (mm1 := mkMM a (heaps mm) (free_temporaries mm a)
                     (<[a := mkCell (mkBasic 0) (AsFree (free_cell mm))]> (memory mm))
                     (brk mm) (out mm)) in *.
    destruct (IH mm1 Hnd) as (mm' & Hrun & Hzero & Hoth & Hh & Hb & Ho & Ht).
    { intros x Hx. simpl. rewrite lookup_insert_ne by (intros ->; contradiction).
      apply Hcells. now apply list_elem_of_further. }
    exists mm'.
    change (foldM free (a :: todo) mm) with (free mm a ≫= foldM free todo).
    rewrite Hfree. simpl. split; [exact Hrun |]. split; [| split].
    + intros x Hx. apply elem_of_cons in Hx as [->|Hx]; [| now apply Hzero].
      rewrite (Hoth a Hnotin). simpl. rewrite lookup_insert_eq. eauto.
    + intros x Hx. apply not_elem_of_cons in Hx as [Hxa Hx].
      rewrite (Hoth x Hx). simpl. now rewrite lookup_insert_ne.
    + split; [exact Hh |]. split; [exact Hb |]. split; [exact Ho |].
      * intros t Hin. apply Ht in Hin. simpl in Hin. unfold free_temporaries in Hin.
        destruct (Z.of_nat (count_occ Z.eq_dec (temporaries mm) a) =? 1); [| exact Hin].
        apply list_elem_of_In. apply list_elem_of_In in Hin.
        destruct (Z.eq_dec t a) as [->|Hne].
        -- apply (count_occ_In Z.eq_dec).
           apply (count_occ_In Z.eq_dec) in Hin. rewrite erase_one_count in Hin.
           destruct (Z.eq_dec a a); [lia | congruence].
        -- apply (count_occ_In Z.eq_dec).
           apply (count_occ_In Z.eq_dec) in Hin. rewrite erase_one_count in Hin.
           destruct (Z.eq_dec t a); [congruence | exact Hin].
Qed.

(** X21: on a well-formed state the destructor runs to its end without a
    fault: it calls [free] on every cell of every heap, on the free list or
    not, which leaves every cell zeroed; no cell and no temporary is added. *)
Theorem MemoryManager_delete_spec (cfg : GCConfig) (vm : VM) (mm : MemoryManager) :
  gc_wf cfg vm mm ->
  exists mm',
    MemoryManager_delete cfg mm = Ok mm'
    /\ (forall a c, memory mm' !! a = Some c ->
          exists next, c = mkCell (mkBasic 0) (AsFree next))
    /\ (forall a, is_Some (memory mm' !! a) <-> is_Some (memory mm !! a))
    /\ (forall t, t ∈ temporaries mm' -> t ∈ temporaries mm)
    /\ heaps mm' = heaps mm /\ out mm' = out mm.
Proof.
  intros [_ Hclean _ _ _ Hcells Hnd _ _].
  destruct (free_all_spec (all_cells cfg (heaps mm)) mm Hnd)
    as (mm' & Hrun & Hzero & Hoth & Hh & _ & Ho & Ht).
  { intros a Ha. apply Hcells in Ha as [c Hc]. exists c. split; [exact Hc | eauto]. }
  exists mm'. split; [exact Hrun |]. split; [| split; [| auto]].
  - intros a c Hc. destruct (decide (a ∈ all_cells cfg (heaps mm))) as [Hin|Hnin].
    + destruct (Hzero a Hin) as (next & Hz). rewrite Hz in Hc. injection Hc as <-. eauto.
    + rewrite (Hoth a Hnin) in Hc. exfalso. apply Hnin, Hcells. eauto.
  - intros a. destruct (decide (a ∈ all_cells cfg (heaps mm))) as [Hin|Hnin].
    + destruct (Hzero a Hin) as (next & ->). apply Hcells in Hin. split; eauto.
    + now rewrite (Hoth a Hnin).
Qed.

Lemma MemoryManager_delete_spec_witness :
  exists mm',
    MemoryManager_delete small_config scheduler_mm = Ok mm'
    /\ (forall a c, memory mm' !! a = Some c ->
          exists next, c = mkCell (mkBasic 0) (AsFree next))
    /\ temporaries mm' = [].
Proof.
  destruct (MemoryManager_delete_spec small_config scheduler_vm scheduler_mm)
    as (mm' & H & Hz & _).
  - apply gc_wfb_spec. vm_compute. reflexivity.
  - exists mm'. split; [exact H |]. split; [exact Hz |].
    vm_compute in H. injection H as <-. reflexivity.
Defined.

(** * More of gc.cpp: [free] and [allocate] together *)

(** X22: the free list is a stack.  While it holds a cell, a cell that is
    freed is the cell the next allocation returns, and that allocation leaves
    the free list as it was before the cell was freed; the cell itself stays
    zeroed. *)
Theorem free_allocate_roundtrip (cfg : GCConfig) (vm : VM) (mm : MemoryManager)
    (cell : VALUE) (c : MemoryCell) :
  memory mm !! cell = Some c -> clean c = Ok tt -> cell <> 0 -> free_cell mm <> 0 ->
  exists mm1 mm2,
    free mm cell = Ok mm1
    /\ allocate cfg vm mm1 = Ok (cell, mm2)
    /\ free_cell mm2 = free_cell mm
    /\ memory mm2 = <[cell := mkCell (mkBasic 0) (AsFree (free_cell mm))]> (memory mm)
    /\ heaps mm2 = heaps mm /\ out mm2 = out mm.
Proof.
  intros Hc Hclean Hcell Hfree.
  pose proof (free_eq mm cell) as E. rewrite Hc, Hclean in E. simpl in E.
  set (mm1 := mkMM cell (heaps mm) (free_temporaries mm cell)
                   (<[cell := mkCell (mkBasic 0) (AsFree (free_cell mm))]> (memory mm))
                   (brk mm) (out mm)) in *.
  exists mm1, (mm_set_free_cell mm1 (free_cell mm)).
  split; [exact E |]. split; [| repeat split].
  apply (allocate_pop cfg vm mm1 (mkCell (mkBasic 0) (AsFree (free_cell mm))) (free_cell mm));
    [exact Hcell | apply lookup_insert_eq | reflexivity | exact Hfree].
Qed.

Lemma free_allocate_roundtrip_witness :
  exists mm1 mm2,
    free scheduler_mm 4352 = Ok mm1
    /\ allocate small_config scheduler_vm mm1 = Ok (4352, mm2)
    /\ free_cell mm2 = 4096.
Proof.
  destruct (free_allocate_roundtrip small_config scheduler_vm scheduler_mm 4352
              (sample_object kNull []))
    as (mm1 & mm2 & H1 & H2 & H3 & _);
    [vm_compute; reflexivity | reflexivity | discriminate | discriminate |].
  exists mm1, mm2. auto.
Defined.

(** * operators.cpp *)

(** ** Binary64 patterns *)

Lemma digits2_pos_log2 p : Z.pos (digits2_pos p) = Z.log2 (Z.pos p) + 1.
Proof.
  induction p as [p IH|p IH|]; simpl digits2_pos; [| | reflexivity].
  - rewrite Pos2Z.inj_succ, IH, Pos2Z.inj_xI.
    rewrite Z.log2_succ_double by lia. lia.
  - rewrite Pos2Z.inj_succ, IH, Pos2Z.inj_xO.
    rewrite Z.log2_double by lia. lia.
Qed.

Lemma digits2_pos_bounds p :
  2 ^ (Z.pos (digits2_pos p) - 1) <= Z.pos p < 2 ^ Z.pos (digits2_pos p).
Proof.
  rewrite digits2_pos_log2. replace (Z.log2 (Z.pos p) + 1 - 1) with (Z.log2 (Z.pos p)) by lia.
  replace (Z.log2 (Z.pos p) + 1) with (Z.succ (Z.log2 (Z.pos p))) by lia.
  apply Z.log2_spec. lia.
Qed.

Lemma digits2_pos_unique p d :
  0 < d -> 2 ^ (d - 1) <= Z.pos p < 2 ^ d -> Z.pos (digits2_pos p) = d.
Proof.
  intros Hd H. rewrite digits2_pos_log2.
  rewrite (Z.log2_unique (Z.pos p) (d - 1)); [lia | lia |].
  replace (Z.succ (d - 1)) with d by lia. exact H.
Qed.

Lemma digits2_pos_le p d : 0 <= d -> Z.pos p < 2 ^ d -> Z.pos (digits2_pos p) <= d.
Proof.
  intros Hd H. pose proof (digits2_pos_bounds p) as [Hlo _].
  destruct (Z.le_gt_cases (Z.pos (digits2_pos p)) d) as [|Hgt]; [assumption | exfalso].
  assert (2 ^ d <= 2 ^ (Z.pos (digits2_pos p) - 1)) by (apply Z.pow_le_mono_r; lia).
  lia.
Qed.

Lemma testbit_63 (s : bool) x :
  0 <= x < 2 ^ 63 -> Z.testbit ((if s then 2 ^ 63 else 0) + x) 63 = s.
Proof.
  intros Hx. destruct s.
  - apply Z.testbit_true; [lia |]. change (2 ^ 63) with 9223372036854775808 in *.
    Z.div_mod_to_equations. lia.
  - apply Z.testbit_false; [lia |]. change (2 ^ 63) with 9223372036854775808 in *.
    Z.div_mod_to_equations. lia.
Qed.

Lemma double_to_SF_valid bits : valid_binary 53 1024 (double_to_SF bits) = true.
Proof.
  unfold double_to_SF.
  assert (Hm : 0 <= bits mod 2 ^ 52 < 2 ^ 52) by (apply Z.mod_pos_bound; lia).
  assert (He : 0 <= (bits / 2 ^ 52) mod 2 ^ 11 < 2 ^ 11) by (apply Z.mod_pos_bound; lia).
  set (m := bits mod 2 ^ 52) in *. set (e := (bits / 2 ^ 52) mod 2 ^ 11) in *.
  destruct (Z.eqb_spec e 0) as [E0|E0].
  - destruct (Z.eqb_spec m 0) as [M0|M0]; [reflexivity |].
    simpl. unfold bounded, canonical_mantissa, fexp, emin.
    assert (Hd : Z.pos (digits2_pos (Z.to_pos m)) <= 52).
    { apply digits2_pos_le; [lia |]. rewrite Z2Pos.id by lia. lia. }
    pose proof (Pos2Z.is_pos (digits2_pos (Z.to_pos m))).
    apply andb_true_iff. split; [apply Z.eqb_eq | apply Z.leb_le]; lia.
  - destruct (Z.eqb_spec e 2047) as [E1|E1]; [destruct (m =? 0); reflexivity |].
    simpl. unfold bounded, canonical_mantissa, fexp, emin.
    assert (Hd : Z.pos (digits2_pos (Z.to_pos (m + 2 ^ 52))) = 53).
    { apply digits2_pos_unique; [lia |]. rewrite Z2Pos.id by lia.
      change (2 ^ (53 - 1)) with (2 ^ 52). change (2 ^ 53) with (2 ^ 52 + 2 ^ 52). lia. }
    rewrite Hd. change (2 ^ 11) with 2048 in He.
    apply andb_true_iff. split; [apply Z.eqb_eq | apply Z.leb_le]; lia.
Qed.

(** What [valid_binary] says of a finite number. *)
Lemma valid_finite s m e :
  valid_binary 53 1024 (S754_finite s m e) = true ->
  (Z.pos m < 2 ^ 52 /\ e = -1074)
  \/ (2 ^ 52 <= Z.pos m < 2 ^ 53 /\ -1074 <= e <= 971).
Proof.
  simpl. unfold bounded, canonical_mantissa, fexp, emin. intros H.
  apply andb_true_iff in H as [Hc He]. apply Z.eqb_eq in Hc. apply Z.leb_le in He.
  pose proof (digits2_pos_bounds m) as [Hlo Hhi].
  set (d := Z.pos (digits2_pos m)) in *.
  assert (Hd : 0 < d) by (unfold d; lia).
  destruct (Z.lt_ge_cases (Z.pos m) (2 ^ 52)) as [Hlt|Hge].
  - left. split; [exact Hlt |].
    assert (d <= 52).
    { destruct (Z.le_gt_cases d 52) as [|Hgt]; [assumption | exfalso].
      assert (2 ^ 52 <= 2 ^ (d - 1)) by (apply Z.pow_le_mono_r; lia). lia. }
    lia.
  - right.
    assert (53 <= d).
    { destruct (Z.le_gt_cases 53 d) as [|Hgt]; [assumption | exfalso].
      assert (2 ^ d <= 2 ^ 52) by (apply Z.pow_le_mono_r; lia). lia. }
    assert (d = 53) by lia.
    replace d with 53 in Hhi by lia. lia.
Qed.

Lemma SF_to_double_range f :
  valid_binary 53 1024 f = true -> 0 <= SF_to_double f < 2 ^ 64.
Proof.
  destruct f as [s|s| |s m e]; intros Hv.
  - destruct s; vm_compute; split; congruence.
  - destruct s; vm_compute; split; congruence.
  - vm_compute; split; congruence.
  - apply valid_finite in Hv. unfold SF_to_double.
    change (2 ^ 64) with 18446744073709551616.
    change (2 ^ 63) with 9223372036854775808.
    change (2 ^ 52) with 4503599627370496 in *.
    change (2 ^ 53) with 9007199254740992 in *.
    destruct (Z.ltb_spec (Z.pos m) 4503599627370496); destruct s; lia.
Qed.

Lemma double_to_SF_to_double f :
  valid_binary 53 1024 f = true -> double_to_SF (SF_to_double f) = f.
Proof.
  destruct f as [s|s| |s m e]; intros Hv.
  - destruct s; reflexivity.
  - destruct s; reflexivity.
  - reflexivity.
  - apply valid_finite in Hv. unfold SF_to_double.
    destruct (Z.ltb_spec (Z.pos m) (2 ^ 52)) as [Hlt|Hge].
    + destruct Hv as [[_ ->]|[Hm _]]; [| lia].
      unfold double_to_SF. rewrite testbit_63 by lia.
      assert (E : ((if s then 2 ^ 63 else 0) + Z.pos m) / 2 ^ 52 mod 2 ^ 11 = 0).
      { change (2 ^ 63) with (2048 * 2 ^ 52). change (2 ^ 11) with 2048.
        change (2 ^ 52) with 4503599627370496 in *.
        destruct s; Z.div_mod_to_equations; lia. }
      assert (M : ((if s then 2 ^ 63 else 0) + Z.pos m) mod 2 ^ 52 = Z.pos m).
      { change (2 ^ 63) with (2048 * 2 ^ 52).
        change (2 ^ 52) with 4503599627370496 in *.
        destruct s; Z.div_mod_to_equations; lia. }
      rewrite E, M. simpl. reflexivity.
    + destruct Hv as [[Hm _]|[Hm He]]; [lia |].
      unfold double_to_SF.
      replace ((if s then 2 ^ 63 else 0) + (e + 1075) * 2 ^ 52 + (Z.pos m - 2 ^ 52))
        with ((if s then 2 ^ 63 else 0) + ((e + 1075) * 2 ^ 52 + (Z.pos m - 2 ^ 52))) by lia.
      rewrite testbit_63.
      2:{ change (2 ^ 63) with 9223372036854775808.
          change (2 ^ 52) with 4503599627370496 in *.
          change (2 ^ 53) with 9007199254740992 in *. lia. }
      assert (E : ((if s then 2 ^ 63 else 0) + ((e + 1075) * 2 ^ 52 + (Z.pos m - 2 ^ 52)))
                  / 2 ^ 52 mod 2 ^ 11 = e + 1075).
      { change (2 ^ 63) with (2048 * 2 ^ 52). change (2 ^ 11) with 2048.
        change (2 ^ 52) with 4503599627370496 in *.
        change (2 ^ 53) with 9007199254740992 in *.
        destruct s; Z.div_mod_to_equations; lia. }
      assert (M : ((if s then 2 ^ 63 else 0) + ((e + 1075) * 2 ^ 52 + (Z.pos m - 2 ^ 52)))
                  mod 2 ^ 52 = Z.pos m - 2 ^ 52).
      { change (2 ^ 63) with (2048 * 2 ^ 52).
        change (2 ^ 52) with 4503599627370496 in *.
        change (2 ^ 53) with 9007199254740992 in *.
        destruct s; Z.div_mod_to_equations; lia. }
      rewrite E, M.
      destruct (Z.eqb_spec (e + 1075) 0); [lia |].
      destruct (Z.eqb_spec (e + 1075) 2047); [lia |].
      f_equal; [| lia].
      replace (Z.pos m - 2 ^ 52 + 2 ^ 52) with (Z.pos m) by lia. apply Pos2Z.id.
Qed.

(** [d != 0] fails on the two zeros only. *)
Lemma double_nonzero_false d :
  0 <= d < 2 ^ 64 -> (double_nonzero d = false <-> d = 0 \/ d = 2 ^ 63).
Proof.
  intros Hd. split.
  - unfold double_nonzero, double_to_SF.
    destruct (Z.eqb_spec ((d / 2 ^ 52) mod 2 ^ 11) 0) as [E0|E0].
    + destruct (Z.eqb_spec (d mod 2 ^ 52) 0) as [M0|M0].
      * intros _. change (2 ^ 63) with 9223372036854775808.
        change (2 ^ 64) with 18446744073709551616 in Hd.
        change (2 ^ 52) with 4503599627370496 in *. change (2 ^ 11) with 2048 in *.
        Z.div_mod_to_equations. lia.
      * destruct (Z.testbit d 63); discriminate.
    + destruct (Z.eqb_spec ((d / 2 ^ 52) mod 2 ^ 11) 2047) as [E1|E1].
      * destruct (d mod 2 ^ 52 =? 0); destruct (Z.testbit d 63); discriminate.
      * destruct (Z.testbit d 63); discriminate.
  - intros [->| ->]; reflexivity.
Qed.

(** ** Rounding an integer to binary64 *)

Lemma shr_m_shr_1 mrs : 0 <= shr_m mrs -> shr_m (shr_1 mrs) = shr_m mrs / 2.
Proof.
  destruct mrs as [m r s]. cbn [shr_m]. intros Hm.
  destruct m as [|[p|p|]|p]; cbn [shr_1 shr_m]; try lia.
  - reflexivity.
  - rewrite (Pos2Z.inj_xI p). Z.div_mod_to_equations. lia.
  - rewrite (Pos2Z.inj_xO p). Z.div_mod_to_equations. lia.
  - reflexivity.
Qed.

Lemma div_div_pos a b c : 0 < b -> 0 < c -> a / b / c = a / (b * c).
Proof. intros Hb Hc. apply Z.div_div; lia. Qed.

Lemma shr_m_iter_pos q : forall mrs,
  0 <= shr_m mrs -> shr_m (SpecFloat.iter_pos shr_1 q mrs) = shr_m mrs / 2 ^ Z.pos q.
Proof.
  assert (Hpow : forall n : positive, 0 < 2 ^ Z.pos n) by (intros n; apply Z.pow_pos_nonneg; lia).
  induction q as [q IH|q IH|]; intros mrs Hm; cbn [SpecFloat.iter_pos].
  - assert (H1 : 0 <= shr_m (shr_1 mrs)).
    { rewrite shr_m_shr_1 by exact Hm. apply Z.div_pos; lia. }
    assert (H2 : 0 <= shr_m (SpecFloat.iter_pos shr_1 q (shr_1 mrs))).
    { rewrite IH by exact H1. apply Z.div_pos; [exact H1 | apply Hpow]. }
    rewrite IH by exact H2. rewrite IH by exact H1. rewrite shr_m_shr_1 by exact Hm.
    rewrite (Pos2Z.inj_xI q).
    replace (2 * Z.pos q + 1) with (1 + Z.pos q + Z.pos q) by lia.
    rewrite !Z.pow_add_r by lia. rewrite Z.pow_1_r.
    pose proof (Hpow q).
    rewrite (div_div_pos _ 2) by lia.
    rewrite div_div_pos by nia. reflexivity.
  - assert (H2 : 0 <= shr_m (SpecFloat.iter_pos shr_1 q mrs)).
    { rewrite IH by exact Hm. apply Z.div_pos; [exact Hm | apply Hpow]. }
    rewrite IH by exact H2. rewrite IH by exact Hm.
    rewrite (Pos2Z.inj_xO q).
    replace (2 * Z.pos q) with (Z.pos q + Z.pos q) by lia.
    rewrite !Z.pow_add_r by lia.
    pose proof (Hpow q).
    rewrite div_div_pos by lia. reflexivity.
  - rewrite shr_m_shr_1 by exact Hm. reflexivity.
Qed.

Lemma round_nearest_even_bounds m l :
  m <= round_nearest_even m l <= m + 1.
Proof.
  destruct l as [|[| |]]; simpl; try lia. destruct (Z.even m); lia.
Qed.

Lemma iter_xO p k : Z.pos (Pos.iter xO p k) = Z.pos p * 2 ^ Z.pos k.
Proof.
  induction k as [|k IH] using Pos.peano_ind.
  - cbn [Pos.iter]. rewrite (Pos2Z.inj_xO p). lia.
  - rewrite Pos.iter_succ, (Pos2Z.inj_xO (Pos.iter xO p k)), IH, Pos2Z.inj_succ,
      Z.pow_succ_r by lia. lia.
Qed.

Lemma shr_record_of_loc_m m l : shr_m (shr_record_of_loc m l) = m.
Proof. destruct l as [|[| |]]; reflexivity. Qed.

(** The shift [shr_fexp] applies to a mantissa of 53 bits or more. *)
Lemma shr_fexp_pos p ex l :
  53 <= Z.pos (digits2_pos p) -> -1074 <= ex ->
  exists mrs,
    shr_fexp 53 1024 (Z.pos p) ex l = (mrs, ex + (Z.pos (digits2_pos p) - 53))
    /\ shr_m mrs = Z.pos p / 2 ^ (Z.pos (digits2_pos p) - 53).
Proof.
  intros Hd Hex. unfold shr_fexp. cbn [Zdigits2].
  set (d := Z.pos (digits2_pos p)) in *.
  replace (fexp 53 1024 (d + ex) - ex) with (d - 53) by (unfold fexp, emin; lia).
  unfold shr. destruct (d - 53) as [|q|q] eqn:En.
  - eexists. split; [f_equal; lia |]. rewrite shr_record_of_loc_m.
    change (2 ^ 0) with 1. now rewrite Z.div_1_r.
  - eexists. split; [reflexivity |].
    rewrite shr_m_iter_pos by (rewrite shr_record_of_loc_m; lia).
    now rewrite shr_record_of_loc_m.
  - lia.
Qed.

(** A mantissa of 53 bits or more, rounded: the result is a normal number,
    or an infinity if its exponent is out of range. *)
Lemma binary_round_aux_normal sx p ex l :
  53 <= Z.pos (digits2_pos p) -> -1074 <= ex ->
  exists m e,
    2 ^ 52 <= Z.pos m < 2 ^ 53
    /\ ex + (Z.pos (digits2_pos p) - 53) <= e <= ex + (Z.pos (digits2_pos p) - 53) + 1
    /\ binary_round_aux 53 1024 sx (Z.pos p) ex l
       = if e <=? 971 then S754_finite sx m e else S754_infinity sx.
Proof.
  intros Hd Hex. unfold binary_round_aux.
  destruct (shr_fexp_pos p ex l Hd Hex) as (mrs1 & -> & Hm1).
  pose proof (digits2_pos_bounds p) as [Hlo Hhi].
  set (d := Z.pos (digits2_pos p)) in *.
  assert (Hq : 0 < 2 ^ (d - 53)) by (apply Z.pow_pos_nonneg; lia).
  assert (Hsplit : 2 ^ d = 2 ^ 53 * 2 ^ (d - 53)).
  { rewrite <- Z.pow_add_r by lia. f_equal. lia. }
  assert (Hsplit' : 2 ^ (d - 1) = 2 ^ 52 * 2 ^ (d - 53)).
  { rewrite <- Z.pow_add_r by lia. f_equal. lia. }
  assert (Hm1b : 2 ^ 52 <= shr_m mrs1 < 2 ^ 53).
  { rewrite Hm1. split.
    - apply Z.div_le_lower_bound; [exact Hq |]. rewrite Z.mul_comm, <- Hsplit'. exact Hlo.
    - apply Z.div_lt_upper_bound; [exact Hq |]. rewrite Z.mul_comm, <- Hsplit. exact Hhi. }
  pose proof (round_nearest_even_bounds (shr_m mrs1) (loc_of_shr_record mrs1)) as Hr.
  set (m1 := round_nearest_even (shr_m mrs1) (loc_of_shr_record mrs1)) in *.
  change (2 ^ 52) with 4503599627370496 in *. change (2 ^ 53) with 9007199254740992 in *.
  destruct m1 as [|p1|p1] eqn:Em1; [lia | | lia].
  destruct (Z.eq_dec (Z.pos p1) 9007199254740992) as [Etop|Etop].
  - injection Etop as ->.
    destruct (shr_fexp_pos 9007199254740992 (ex + (d - 53)) loc_Exact) as (mrs2 & -> & Hm2).
    { vm_compute. discriminate. }
    { lia. }
    rewrite Hm2.
    change (Z.pos 9007199254740992 / 2 ^ (Z.pos (digits2_pos 9007199254740992) - 53))
      with (Z.pos 4503599627370496).
    change (Z.pos (digits2_pos 9007199254740992) - 53) with 1.
    cbv beta iota. change (1024 - 53) with 971.
    exists 4503599627370496%positive, (ex + (d - 53) + 1).
    split; [lia |]. split; [lia | reflexivity].
  - assert (Hd1 : Z.pos (digits2_pos p1) = 53).
    { apply digits2_pos_unique; [lia |].
      change (2 ^ (53 - 1)) with 4503599627370496.
      change (2 ^ 53) with 9007199254740992. lia. }
    destruct (shr_fexp_pos p1 (ex + (d - 53)) loc_Exact) as (mrs2 & -> & Hm2); [lia | lia |].
    rewrite Hm2, Hd1. change (2 ^ (53 - 53)) with 1. rewrite Z.div_1_r.
    cbv beta iota. change (1024 - 53) with 971. change (53 - 53) with 0.
    rewrite Z.add_0_r.
    exists p1, (ex + (d - 53)). split; [lia |]. split; [lia | reflexivity].
Qed.

(** A normal number is valid and differs from zero. *)
Lemma normal_valid s m e :
  2 ^ 52 <= Z.pos m < 2 ^ 53 -> -1074 <= e <= 971 ->
  valid_binary 53 1024 (S754_finite s m e) = true.
Proof.
  intros Hm He. simpl. unfold bounded, canonical_mantissa, fexp, emin.
  rewrite (digits2_pos_unique m 53) by (change (2 ^ (53 - 1)) with (2 ^ 52); lia).
  apply andb_true_iff. split; [apply Z.eqb_eq | apply Z.leb_le]; lia.
Qed.

Lemma binary_round_aux_normal_valid sx p ex l :
  53 <= Z.pos (digits2_pos p) -> -1074 <= ex ->
  valid_binary 53 1024 (binary_round_aux 53 1024 sx (Z.pos p) ex l) = true.
Proof.
  intros Hd Hex.
  destruct (binary_round_aux_normal sx p ex l Hd Hex) as (m & e & Hm & He & ->).
  destruct (Z.leb_spec e 971); [apply normal_valid; lia | reflexivity].
Qed.

(** A mantissa of at most 53 bits at the least exponent is kept as it is. *)
Lemma binary_round_aux_subnormal sx p :
  Z.pos (digits2_pos p) <= 53 ->
  binary_round_aux 53 1024 sx (Z.pos p) (-1074) loc_Exact = S754_finite sx p (-1074)
  /\ valid_binary 53 1024 (S754_finite sx p (-1074)) = true.
Proof.
  intros Hd. pose proof (Pos2Z.is_pos (digits2_pos p)) as Hpos. split.
  - unfold binary_round_aux, shr_fexp. cbn [Zdigits2 shr_record_of_loc].
    replace (fexp 53 1024 (Z.pos (digits2_pos p) + -1074) - -1074) with 0
      by (unfold fexp, emin; lia).
    cbn [shr shr_m loc_of_shr_record round_nearest_even Zdigits2 shr_record_of_loc].
    replace (fexp 53 1024 (Z.pos (digits2_pos p) + -1074) - -1074) with 0
      by (unfold fexp, emin; lia).
    reflexivity.
  - simpl. unfold bounded, canonical_mantissa, fexp, emin.
    apply andb_true_iff. split; [apply Z.eqb_eq | apply Z.leb_le]; lia.
Qed.

Lemma digits2_pos_shift p k :
  Z.pos (digits2_pos (Pos.iter xO p k)) = Z.pos (digits2_pos p) + Z.pos k.
Proof.
  pose proof (digits2_pos_bounds p) as [Hlo Hhi].
  pose proof (Pos2Z.is_pos (digits2_pos p)) as Hpos.
  assert (Hk : 0 < 2 ^ Z.pos k) by (apply Z.pow_pos_nonneg; lia).
  apply digits2_pos_unique; [lia |]. rewrite iter_xO.
  replace (Z.pos (digits2_pos p) + Z.pos k - 1) with (Z.pos (digits2_pos p) - 1 + Z.pos k)
    by lia.
  rewrite !Z.pow_add_r by lia. split.
  - apply Z.mul_le_mono_nonneg_r; lia.
  - apply Z.mul_lt_mono_pos_r; lia.
Qed.

(** Rounding gives a binary64 number. *)
Lemma binary_round_valid sx mx ex :
  -1074 <= ex -> valid_binary 53 1024 (binary_round 53 1024 sx mx ex) = true.
Proof.
  intros Hex. unfold binary_round, shl_align.
  pose proof (Pos2Z.is_pos (digits2_pos mx)) as Hpos.
  set (d := Z.pos (digits2_pos mx)) in *.
  assert (Hf : fexp 53 1024 (d + ex) = Z.max (d + ex - 53) (-1074))
    by (unfold fexp, emin; reflexivity).
  rewrite Hf.
  destruct (Z.max (d + ex - 53) (-1074) - ex) as [|k|k] eqn:Ek.
  - destruct (Z.le_gt_cases 53 d) as [Hge|Hlt].
    + apply binary_round_aux_normal_valid; fold d; lia.
    + assert (ex = -1074) by lia. subst ex.
      destruct (binary_round_aux_subnormal sx mx) as [-> Hv]; [fold d; lia | exact Hv].
  - destruct (Z.le_gt_cases 53 d) as [Hge|Hlt].
    + apply binary_round_aux_normal_valid; fold d; lia.
    + assert (ex = -1074) by lia. subst ex.
      destruct (binary_round_aux_subnormal sx mx) as [-> Hv]; [fold d; lia | exact Hv].
  - pose proof (digits2_pos_shift mx k) as Hdz. fold d in Hdz.
    destruct (Z.le_gt_cases (d + ex - 53) (-1074)) as [Hsub|Hnorm].
    + replace (Z.max (d + ex - 53) (-1074)) with (-1074) in * by lia.
      destruct (binary_round_aux_subnormal sx (Pos.iter xO mx k)) as [-> Hv];
        [lia | exact Hv].
    + apply binary_round_aux_normal_valid; lia.
Qed.

Lemma binary_normalize_valid m e szero :
  -1074 <= e -> valid_binary 53 1024 (binary_normalize 53 1024 m e szero) = true.
Proof.
  intros He. destruct m; cbn [binary_normalize];
    [reflexivity | now apply binary_round_valid ..].
Qed.

(** The conversion of an integer that fits 64 bits gives a normal number. *)
Lemma binary_round_int sx p :
  Z.pos p < 2 ^ 64 ->
  exists m e,
    binary_round 53 1024 sx p 0 = S754_finite sx m e
    /\ 2 ^ 52 <= Z.pos m < 2 ^ 53 /\ -1074 <= e <= 971.
Proof.
  intros Hp. unfold binary_round, shl_align.
  pose proof (digits2_pos_bounds p) as [Hlo Hhi].
  assert (Hd64 : Z.pos (digits2_pos p) <= 64) by (apply digits2_pos_le; lia).
  set (d := Z.pos (digits2_pos p)) in *.
  assert (Hd0 : 0 < d) by (unfold d; lia).
  replace (fexp 53 1024 (d + 0) - 0) with (d - 53) by (unfold fexp, emin; lia).
  replace (fexp 53 1024 (d + 0)) with (d - 53) by (unfold fexp, emin; lia).
  destruct (d - 53) as [|q|q] eqn:En.
  - destruct (binary_round_aux_normal sx p 0 loc_Exact) as (m & e & Hm & He & ->);
      [fold d; lia | lia |]. fold d in He.
    destruct (Z.leb_spec e 971); [| lia]. exists m, e. repeat split; lia.
  - destruct (binary_round_aux_normal sx p 0 loc_Exact) as (m & e & Hm & He & ->);
      [fold d; lia | lia |]. fold d in He.
    destruct (Z.leb_spec e 971); [| lia]. exists m, e. repeat split; lia.
  - pose proof (digits2_pos_shift p q) as Hdz. fold d in Hdz.
    destruct (binary_round_aux_normal sx (Pos.iter xO p q) (Z.neg q) loc_Exact)
      as (m & e & Hm & He & ->); [lia | lia |].
    destruct (Z.leb_spec e 971); [| lia]. exists m, e. repeat split; lia.
Qed.

(** The sum of two binary64 numbers is a binary64 number. *)
Lemma SFadd_valid x y :
  valid_binary 53 1024 x = true -> valid_binary 53 1024 y = true ->
  valid_binary 53 1024 (SFadd 53 1024 x y) = true.
Proof.
  intros Hx Hy.
  destruct x as [sx|sx| |sx mx ex], y as [sy|sy| |sy my ey]; cbn [SFadd];
    try reflexivity; try assumption;
    try (destruct sx, sy; reflexivity).
  apply binary_normalize_valid.
  apply valid_finite in Hx, Hy. lia.
Qed.

Lemma double_is_nan_spec d : double_is_nan d = true -> double_to_SF d = S754_nan.
Proof. unfold double_is_nan. destruct (double_to_SF d); congruence. Qed.

(** [nleft + nright] is the IEEE-754 sum, and a pattern of 64 bits. *)
Lemma double_add_spec fpu a b :
  FPU_wf fpu ->
  0 <= double_add fpu a b < 2 ^ 64
  /\ double_to_SF (double_add fpu a b) = SFadd 53 1024 (double_to_SF a) (double_to_SF b).
Proof.
  intros Hfpu. unfold double_add, double_prec, double_emax.
  pose proof (SFadd_valid _ _ (double_to_SF_valid a) (double_to_SF_valid b)) as Hv.
  destruct (Hfpu a b) as [Hr Hn]. apply double_is_nan_spec in Hn.
  destruct (SFadd 53 1024 (double_to_SF a) (double_to_SF b)) as [s|s| |s m e] eqn:E;
    try (split; [now apply SF_to_double_range | now apply double_to_SF_to_double]).
  split; assumption.
Qed.

(** The conversion of an integer of 64 bits is the rounding of the integer,
    a pattern of 64 bits, and zero for the integer 0 only. *)
Lemma double_of_int64_spec i :
  - 2 ^ 63 <= i < 2 ^ 63 ->
  0 <= double_of_int64 i < 2 ^ 64
  /\ double_to_SF (double_of_int64 i) = binary_normalize 53 1024 i 0 false
  /\ (double_nonzero (double_of_int64 i) = false <-> i = 0).
Proof.
  intros Hi. unfold double_of_int64, double_prec, double_emax.
  destruct i as [|p|p].
  - repeat split; try reflexivity; vm_compute; congruence.
  - cbn [binary_normalize].
    destruct (binary_round_int false p) as (m & e & -> & Hm & He); [lia |].
    pose proof (normal_valid false m e Hm He) as Hv.
    split; [now apply SF_to_double_range |]. split; [now apply double_to_SF_to_double |].
    unfold double_nonzero. rewrite (double_to_SF_to_double _ Hv). split; discriminate.
  - cbn [binary_normalize].
    destruct (binary_round_int true p) as (m & e & -> & Hm & He); [lia |].
    pose proof (normal_valid true m e Hm He) as Hv.
    split; [now apply SF_to_double_range |]. split; [now apply double_to_SF_to_double |].
    unfold double_nonzero. rewrite (double_to_SF_to_double _ Hv). split; discriminate.
Qed.

(** Setting the quiet bit of a pattern. *)
Lemma lor_quiet_bit x :
  0 <= x -> Z.lor x (2 ^ 51) = if Z.testbit x 51 then x else x + 2 ^ 51.
Proof.
  intros Hx. destruct (Z.testbit x 51) eqn:Hb.
  - apply Z.bits_inj'. intros n Hn. rewrite Z.lor_spec, Z.pow2_bits_eqb by lia.
    destruct (Z.eqb_spec 51 n) as [<-|]; [now rewrite Hb | apply orb_false_r].
  - symmetry. apply Z.add_nocarry_lor. apply Z.bits_inj'. intros n Hn.
    rewrite Z.land_spec, Z.bits_0, Z.pow2_bits_eqb by lia.
    destruct (Z.eqb_spec 51 n) as [<-|]; [now rewrite Hb | apply andb_false_r].
Qed.

Lemma double_is_nan_iff d :
  double_is_nan d = true <-> (d / 2 ^ 52) mod 2 ^ 11 = 2047 /\ d mod 2 ^ 52 <> 0.
Proof.
  unfold double_is_nan, double_to_SF.
  destruct (Z.eqb_spec ((d / 2 ^ 52) mod 2 ^ 11) 0) as [E0|E0].
  - destruct (d mod 2 ^ 52 =? 0); (split; [discriminate | lia]).
  - destruct (Z.eqb_spec ((d / 2 ^ 52) mod 2 ^ 11) 2047) as [E1|E1].
    + destruct (Z.eqb_spec (d mod 2 ^ 52) 0) as [M0|M0].
      * split; [discriminate | tauto].
      * split; auto.
    + split; [discriminate | tauto].
Qed.

Lemma quiet_nan a :
  double_is_nan a = true ->
  0 <= Z.lor (wrap64 a) (2 ^ 51) < 2 ^ 64
  /\ double_is_nan (Z.lor (wrap64 a) (2 ^ 51)) = true.
Proof.
  intros Hn. apply double_is_nan_iff in Hn as [He Hm].
  assert (Hx : 0 <= wrap64 a < 2 ^ 64) by (apply Z.mod_pos_bound; lia).
  assert (Hxe : (wrap64 a / 2 ^ 52) mod 2 ^ 11 = 2047).
  { unfold wrap64 in *. change (2 ^ 64) with 18446744073709551616 in *.
    change (2 ^ 52) with 4503599627370496 in *. change (2 ^ 11) with 2048 in *.
    Z.div_mod_to_equations. lia. }
  assert (Hxm : wrap64 a mod 2 ^ 52 <> 0).
  { unfold wrap64 in *. change (2 ^ 64) with 18446744073709551616 in *.
    change (2 ^ 52) with 4503599627370496 in *.
    Z.div_mod_to_equations. lia. }
  set (x := wrap64 a) in *. clearbody x. clear He Hm a.
  rewrite lor_quiet_bit by lia. rewrite double_is_nan_iff.
  destruct (Z.testbit x 51) eqn:Hb; [auto |].
  apply Z.testbit_false in Hb; [| lia].
  change (2 ^ 64) with 18446744073709551616 in *.
  change (2 ^ 52) with 4503599627370496 in *. change (2 ^ 51) with 2251799813685248 in *.
  change (2 ^ 11) with 2048 in *.
  repeat split; Z.div_mod_to_equations; lia.
Qed.

Lemma sse2_fpu_wf : FPU_wf sse2_fpu.
Proof.
  intros a b. unfold sse2_fpu. cbn [add_nan].
  destruct (double_is_nan a) eqn:Ha; [now apply quiet_nan |].
  destruct (double_is_nan b) eqn:Hb; [now apply quiet_nan |].
  vm_compute. repeat split; congruence.
Qed.

(** ** The tags of the operands *)

Lemma pointer_not_immediate v :
  is_pointer v = true -> is_integer v = false /\ is_ifloat v = false.
Proof.
  intros Hp. pose proof (kind_count_le_1 v) as H. unfold kind_count in H.
  rewrite Hp in H. destruct (is_integer v), (is_ifloat v); simpl in H; auto; lia.
Qed.

Lemma ifloat_roundtrip d :
  ifloat_representable d = true ->
  is_ifloat (VALUE_ENCODE_FLOAT d) = true
  /\ is_integer (VALUE_ENCODE_FLOAT d) = false
  /\ VALUE_DECODE_FLOAT (VALUE_ENCODE_FLOAT d) = d.
Proof.
  unfold ifloat_representable, VALUE_ENCODE_FLOAT, VALUE_DECODE_FLOAT, is_ifloat, is_integer,
    kFloatMask, kFloatFlag, kIntegerMask, kIntegerFlag.
  rewrite land_mask_3. intros Hd. apply Z.eqb_eq in Hd.
  assert (Hk : d = 4 * (d / 4)) by (Z.div_mod_to_equations; lia).
  assert (Hlor : Z.lor d 2 = d + 2).
  { symmetry. apply Z.add_nocarry_lor. apply Z.bits_inj'. intros n Hn.
    rewrite Z.land_spec, Z.bits_0. change 2 with (2 ^ 1). rewrite Z.pow2_bits_eqb by lia.
    destruct (Z.eqb_spec 1 n) as [<-|]; [| apply andb_false_r].
    rewrite andb_true_r. rewrite Hk.
    change 4 with (2 ^ 2). rewrite Z.mul_comm, Z.mul_pow2_bits_low by lia. reflexivity. }
  rewrite Hlor, land_mask_3, land_mask_1. repeat split.
  - apply Z.eqb_eq. Z.div_mod_to_equations. lia.
  - apply Z.eqb_neq. Z.div_mod_to_equations. lia.
  - change 3 with (Z.ones 2). rewrite <- Z.ldiff_land, Z.ldiff_ones_r by lia.
    rewrite Z.shiftr_div_pow2, Z.shiftl_mul_pow2 by lia. change (2 ^ 2) with 4.
    Z.div_mod_to_equations. lia.
Qed.

Lemma allocate_cell cfg vm mm :
  gc_wf cfg vm mm -> free_cell mm <> 0 ->
  exists mmA,
    allocate cfg vm mm = Ok (free_cell mm, mmA)
    /\ is_pointer (free_cell mm) = true
    /\ forall a, is_Some (memory mm !! a) -> is_Some (memory mmA !! a).
Proof.
  intros Hwf Hp.
  destruct (allocate_head cfg vm mm Hwf Hp) as (c & next & Hc & Has & Hptr & _).
  destruct (Z.eq_dec next 0) as [->|Hnext].
  - destruct (allocate_last cfg vm mm c Hwf Hp Hc Has)
      as (mmc & _ & _ & _ & Hdom & Halloc).
    eexists. split; [exact Halloc |]. split; [exact Hptr |].
    intros a Ha. apply Hdom in Ha.
    destruct (free_cell mmc =? 0); [| exact Ha].
    destruct (free_cell (grow_heap cfg mmc) =? 0); simpl; now apply grow_heap_dom.
  - exists (mm_set_free_cell mm next).
    split; [now apply (allocate_pop cfg vm mm c) |]. split; [exact Hptr |]. auto.
Qed.

Lemma is_integer_iff v : is_integer v = true <-> v mod 2 = 1.
Proof.
  unfold is_integer, kIntegerMask, kIntegerFlag. rewrite land_mask_1. apply Z.eqb_eq.
Qed.

Lemma is_ifloat_iff v : is_ifloat v = true <-> v mod 4 = 2.
Proof.
  unfold is_ifloat, kFloatMask, kFloatFlag. rewrite land_mask_3. apply Z.eqb_eq.
Qed.

(** The integer an odd word carries. *)
Lemma integer_payload v :
  0 <= v < 2 ^ 64 -> v mod 2 = 1 ->
  - 2 ^ 62 <= VALUE_DECODE_INTEGER v < 2 ^ 62
  /\ v = (2 * VALUE_DECODE_INTEGER v + 1) mod 2 ^ 64.
Proof.
  intros Hv Hodd. unfold VALUE_DECODE_INTEGER, to_int64.
  rewrite Z.shiftr_div_pow2 by lia. change (2 ^ 1) with 2.
  change (2 ^ 64) with 18446744073709551616 in *.
  change (2 ^ 63) with 9223372036854775808 in *.
  change (2 ^ 62) with 4611686018427387904 in *.
  destruct (Z.ltb_spec v 9223372036854775808); Z.div_mod_to_equations; lia.
Qed.

Lemma integer_payload_unique v i :
  - 2 ^ 62 <= i < 2 ^ 62 -> v = (2 * i + 1) mod 2 ^ 64 ->
  0 <= v < 2 ^ 64 /\ v mod 2 = 1 /\ VALUE_DECODE_INTEGER v = i.
Proof.
  intros Hi ->. unfold VALUE_DECODE_INTEGER, to_int64.
  rewrite Z.shiftr_div_pow2 by lia. change (2 ^ 1) with 2.
  change (2 ^ 64) with 18446744073709551616 in *.
  change (2 ^ 63) with 9223372036854775808 in *.
  change (2 ^ 62) with 4611686018427387904 in *.
  destruct (Z.ltb_spec ((2 * i + 1) mod 18446744073709551616) 9223372036854775808);
    Z.div_mod_to_equations; lia.
Qed.

(** The pattern an immediate float carries. *)
Lemma decode_float_tag v : 0 <= v -> v mod 4 = 2 -> VALUE_DECODE_FLOAT v = v - 2.
Proof.
  intros Hv Hm. unfold VALUE_DECODE_FLOAT, kFloatMask.
  change 3 with (Z.ones 2). rewrite <- Z.ldiff_land, Z.ldiff_ones_r by lia.
  rewrite Z.shiftr_div_pow2, Z.shiftl_mul_pow2 by lia. change (2 ^ 2) with 4.
  Z.div_mod_to_equations. lia.
Qed.

Lemma encode_float_tag d :
  0 <= d < 2 ^ 64 -> ifloat_representable d = true ->
  0 <= VALUE_ENCODE_FLOAT d < 2 ^ 64 /\ VALUE_ENCODE_FLOAT d mod 4 = 2
  /\ d = VALUE_ENCODE_FLOAT d - 2.
Proof.
  intros Hd Hrep. destruct (ifloat_roundtrip d Hrep) as (Hf & _ & Hdec).
  apply is_ifloat_iff in Hf.
  assert (Hnn : 0 <= VALUE_ENCODE_FLOAT d).
  { unfold VALUE_ENCODE_FLOAT, kFloatFlag. apply Z.lor_nonneg. lia. }
  rewrite (decode_float_tag _ Hnn Hf) in Hdec.
  unfold ifloat_representable, kFloatMask in Hrep. rewrite land_mask_3 in Hrep.
  apply Z.eqb_eq in Hrep.
  change (2 ^ 64) with 18446744073709551616 in *.
  repeat split; try assumption; try lia.
  Z.div_mod_to_equations. lia.
Qed.

(** ** The helpers of [VM] on the operands of the spec *)

(** A valid word is a numeric operand, and then the helpers agree with the
    spec on the double it stands for, or it is none. *)
Lemma numeric_operand_dec m v :
  0 <= v < 2 ^ 64 -> value_valid m v ->
  (exists d,
     VM_type m v = Ok kTypeNumeric /\ is_numeric m v = Ok true
     /\ numeric_value m v = Ok d /\ numeric_operand m v d
     /\ forall d', numeric_operand m v d' -> double_to_SF d' = double_to_SF d)
  \/ (exists ty,
        VM_type m v = Ok ty /\ ty <> kTypeNumeric /\ is_numeric m v = Ok false
        /\ ~ exists d, numeric_operand m v d).
Proof.
  intros Hv Hval. unfold VM_type, is_numeric, numeric_value, is_special.
  destruct (is_integer v) eqn:Hi.
  { left. apply is_integer_iff in Hi.
    destruct (integer_payload v Hv Hi) as [Hr Hw].
    destruct (double_of_int64_spec (VALUE_DECODE_INTEGER v)) as (Hd & Hsf & _); [lia |].
    exists (double_of_int64 (VALUE_DECODE_INTEGER v)). repeat (split; [reflexivity |]).
    split; [eapply operand_integer; eauto |].
    intros d' [i Hir Hiw Hd' Hsf'|_ Hm _|c Hm _ _ _ _ _].
    - destruct (integer_payload_unique v i Hir Hiw) as (_ & _ & <-). congruence.
    - exfalso. Z.div_mod_to_equations. lia.
    - exfalso. Z.div_mod_to_equations. lia. }
  assert (Hni : v mod 2 <> 1) by (rewrite <- is_integer_iff; congruence).
  destruct (is_ifloat v) eqn:Hf.
  { left. apply is_ifloat_iff in Hf. exists (VALUE_DECODE_FLOAT v).
    repeat (split; [reflexivity |]).
    rewrite decode_float_tag by lia.
    split; [now apply operand_ifloat |].
    intros d' [i Hir Hiw _ _|_ _ ->|c Hm _ _ _ _ _].
    - exfalso. destruct (integer_payload_unique v i Hir Hiw) as (_ & Hodd & _). lia.
    - reflexivity.
    - exfalso. Z.div_mod_to_equations. lia. }
  assert (Hnf : v mod 4 <> 2) by (rewrite <- is_ifloat_iff; congruence).
  destruct (is_pointer v) eqn:Hp; cbn [negb].
  - destruct (Hval Hp) as (c & Hc & Hnn & Hfl). rewrite Hc.
    destruct (Z.eqb_spec (Basic_type (basic c)) kTypeFloat) as [E|E].
    + left. destruct (Hfl E) as ([d] & Has & Hd). cbn [Float.float_value] in Hd.
      rewrite Has. exists d. repeat (split; [reflexivity |]).
      apply is_pointer_iff in Hp as (Hm8 & Hn0 & Hn8).
      split; [eapply operand_boxed; eauto |].
      intros d' [i Hir Hiw _ _|_ Hm _|c' _ _ _ Hc' _ Has'].
      * exfalso. destruct (integer_payload_unique v i Hir Hiw) as (_ & Hodd & _). lia.
      * contradiction.
      * rewrite Hc in Hc'. injection Hc' as <-. rewrite Has in Has'. now injection Has' as <-.
    + right. exists (Basic_type (basic c)). repeat (split; [auto |]).
      intros (d' & [i Hir Hiw _ _|_ Hm _|c' _ _ _ Hc' Hty' _]).
      * destruct (integer_payload_unique v i Hir Hiw) as (_ & Hodd & _). lia.
      * contradiction.
      * rewrite Hc in Hc'. injection Hc' as <-. contradiction.
  - right.
    assert (Hnone : ~ exists d, numeric_operand m v d).
    { intros (d' & [i Hir Hiw _ _|_ Hm _|c' Hm8 Hn0 Hn8 _ _ _]).
      - destruct (integer_payload_unique v i Hir Hiw) as (_ & Hodd & _). lia.
      - contradiction.
      - assert (is_pointer v = true) by (apply is_pointer_iff; auto). congruence. }
    destruct (is_boolean v); [exists kTypeBoolean; repeat split; auto; discriminate |].
    destruct (is_null v); [exists kTypeNull; repeat split; auto; discriminate |].
    destruct (is_symbol v); [exists kTypeSymbol; repeat split; auto; discriminate |].
    exists kTypeDead. repeat split; auto; discriminate.
Qed.

(** ** [truthyness] *)

(** C5: for every valid word [v], [truthyness] returns, and it returns false
    exactly when [v] is the false value, the null value or a numeric value
    equal to zero: the integer 0, the immediate floats 0.0 and -0.0, or a
    boxed float that holds 0.0 or -0.0.  Every other value, a NaN among
    them, is truthy. *)
Theorem truthyness_spec (m : Memory) (v : VALUE) :
  0 <= v < 2 ^ 64 -> value_valid m v ->
  exists b,
    Operators.truthyness m v = Ok b
    /\ (b = false <-> v = kFalse \/ v = kNull \/ numeric_zero m v)
    /\ (b = true <-> ~ (v = kFalse \/ v = kNull \/ numeric_zero m v)).
Proof.
  intros Hv Hval.
  assert (Hiff : forall b : bool, forall P : Prop,
            (b = false <-> P) -> (b = false <-> P) /\ (b = true <-> ~ P)).
  { intros b P H. split; [exact H |]. split.
    - intros Hb HP. apply H in HP. congruence.
    - intros HnP. destruct b; [reflexivity |]. exfalso. apply HnP. now apply H. }
  unfold Operators.truthyness.
  destruct (numeric_operand_dec m v Hv Hval)
    as [(d & _ & Hnum & Hval_d & Hop & _)|(ty & _ & _ & Hnum & Hnone)];
    rewrite Hnum; cbn [mbind Result_bind].
  - rewrite Hval_d. cbn [mbind Result_bind]. exists (double_nonzero d).
    split; [reflexivity |]. apply Hiff.
    destruct Hop as [i Hir Hiw Hd Hsf|Hr Hm ->|c Hm8 Hn0 Hn8 Hc Hty Has].
    + (* an immediate integer *)
      destruct (integer_payload_unique v i Hir Hiw) as (_ & Hodd & Hdec).
      destruct (double_of_int64_spec i) as (_ & Hsf_i & Hz); [lia |].
      assert (Hnz : double_nonzero d = double_nonzero (double_of_int64 i)).
      { unfold double_nonzero. now rewrite Hsf, Hsf_i. }
      rewrite Hnz, Hz. unfold numeric_zero, kFalse, kNull.
      change (2 ^ 64) with 18446744073709551616 in *.
      change (2 ^ 63) with 9223372036854775808 in *.
      change (2 ^ 62) with 4611686018427387904 in *.
      split.
      * intros ->. right. right. left. rewrite Hiw. reflexivity.
      * intros [->|[->|[->|[->|[->|(Hm8 & _)]]]]];
          try (exfalso; Z.div_mod_to_equations; lia).
        rewrite <- Hdec. reflexivity.
    + (* an immediate float *)
      assert (Hrange : 0 <= v - 2 < 2 ^ 64).
      { change (2 ^ 64) with 18446744073709551616 in *. Z.div_mod_to_equations. lia. }
      rewrite (double_nonzero_false _ Hrange).
      unfold numeric_zero, kFalse, kNull.
      change (2 ^ 63) with 9223372036854775808 in *.
      split.
      * intros [E|E]; right; right; right; [left | right; left]; lia.
      * intros [->|[->|[->|[->|[->|(Hm8 & _)]]]]];
          try (exfalso; Z.div_mod_to_equations; lia); lia.
    + (* a boxed float *)
      assert (Hp : is_pointer v = true) by (apply is_pointer_iff; auto).
      destruct (Hval Hp) as (c' & Hc' & _ & Hfl). rewrite Hc in Hc'. injection Hc' as <-.
      destruct (Hfl Hty) as (f & Has' & Hrange). rewrite Has in Has'. injection Has' as <-.
      cbn [Float.float_value] in Hrange.
      rewrite (double_nonzero_false d Hrange). unfold numeric_zero.
      split.
      * intros Hd. right. right. right. right. right.
        repeat (split; [assumption |]). exists c. repeat (split; [assumption |]).
        rewrite Has. destruct Hd as [->| ->]; auto.
      * intros [->|[->|[->|[->|[->|(_ & _ & _ & c' & Hc' & _ & Hz)]]]]];
          try (exfalso; revert Hm8; unfold kFalse, kNull in *;
               change (2 ^ 63) with 9223372036854775808;
               try congruence; intros Hm8; Z.div_mod_to_equations; lia).
        rewrite Hc in Hc'. injection Hc' as <-. rewrite Has in Hz.
        destruct Hz as [[= ->]|[= ->]]; auto.
  - (* not a numeric value *)
    assert (Hnz : ~ numeric_zero m v).
    { intros Hz. apply Hnone. unfold numeric_zero in Hz.
      change (2 ^ 63) with 9223372036854775808 in Hz.
      destruct Hz as [->|[->|[->|(Hm8 & Hn0 & Hn8 & c & Hc & Hty & Hz)]]].
      - exists (double_of_int64 0). apply (operand_integer _ _ _ 0); try reflexivity.
        + change (2 ^ 62) with 4611686018427387904. lia.
        + vm_compute. split; congruence.
      - exists 0. apply operand_ifloat; try reflexivity. lia.
      - exists 9223372036854775808. apply operand_ifloat; try reflexivity.
        change (2 ^ 64) with 18446744073709551616. lia.
      - destruct Hz as [Hz|Hz]; eexists; eapply operand_boxed; eauto. }
    unfold is_null, is_false.
    destruct (Z.eqb_spec v kNull) as [E8|E8];
      [exists false; split; [reflexivity |]; apply Hiff; tauto |].
    destruct (Z.eqb_spec v kFalse) as [E0|E0];
      [exists false; split; [reflexivity |]; apply Hiff; tauto |].
    exists true. split; [reflexivity |]. apply Hiff. split; [discriminate | tauto].
Qed.

Lemma truthyness_spec_witness :
  Operators.truthyness ∅ 1 = Ok false
  /\ Operators.truthyness ∅ (2 ^ 63 + 2) = Ok false
  /\ Operators.truthyness ∅ (VALUE_ENCODE_INTEGER 7) = Ok true
  /\ Operators.truthyness ∅ kTrue = Ok true.
Proof.
  assert (Hvalid : forall v, is_pointer v = false -> value_valid ∅ v).
  { intros v Hp Hp'. congruence. }
  split; [| split; [| split]].
  - destruct (truthyness_spec ∅ 1) as (b & -> & [_ Hb] & _);
      [lia | now apply Hvalid |].
    rewrite Hb; [reflexivity |]. right. right. left. reflexivity.
  - destruct (truthyness_spec ∅ (2 ^ 63 + 2)) as (b & -> & [_ Hb] & _);
      [vm_compute; split; congruence | now apply Hvalid |].
    rewrite Hb; [reflexivity |]. right. right. right. right. left. reflexivity.
  - destruct (truthyness_spec ∅ (VALUE_ENCODE_INTEGER 7)) as (b & -> & _ & [_ Hb]);
      [vm_compute; split; congruence | now apply Hvalid |].
    rewrite Hb; [reflexivity |]. change (VALUE_ENCODE_INTEGER 7) with 15.
    unfold numeric_zero, kFalse, kNull. change (2 ^ 63 + 2) with 9223372036854775810.
    intros [?|[?|[?|[?|[?|(Hm & _)]]]]]; try discriminate.
  - destruct (truthyness_spec ∅ kTrue) as (b & -> & _ & [_ Hb]);
      [vm_compute; split; congruence | now apply Hvalid |].
    rewrite Hb; [reflexivity |].
    unfold numeric_zero, kTrue, kFalse, kNull. change (2 ^ 63 + 2) with 9223372036854775810.
    intros [?|[?|[?|[?|[?|(Hm & _)]]]]]; try discriminate.
Defined.

(** ** [add] *)

(** Modelled from the spec: what [create_float] returns is a float value that
    holds the double it was given. *)
Lemma create_float_spec cfg vm mm d :
  gc_wf cfg vm mm -> free_cell mm <> 0 -> 0 <= d < 2 ^ 64 ->
  exists v mm',
    create_float cfg vm mm d = Ok (v, mm') /\ float_result (memory mm') v d.
Proof.
  intros Hwf Hp Hd. unfold create_float.
  destruct (ifloat_representable d) eqn:Hrep.
  - destruct (encode_float_tag d Hd Hrep) as (Hr & Hm & E).
    exists (VALUE_ENCODE_FLOAT d), mm. split; [reflexivity |]. now apply result_ifloat.
  - destruct (allocate_cell cfg vm mm Hwf Hp) as (mmA & Halloc & Hptr & Hdom).
    rewrite Halloc. cbn [mbind Result_bind].
    pose proof Hwf as [_ _ _ _ _ _ _ _ (l & Hfl & _)].
    inversion Hfl as [E|p c next l' Hp' Hc Has Hfl' E1 E2]; [congruence |]. subst p.
    destruct (Hdom (free_cell mm) (mk_is_Some _ _ Hc)) as [cA HcA]. rewrite HcA.
    eexists _, _. split; [reflexivity |].
    apply is_pointer_iff in Hptr as (Hm8 & Hn0 & Hn8).
    eapply result_boxed; eauto.
    + cbn [memory mm_set_memory]. apply lookup_insert_eq.
    + cbn [basic]. apply Basic_type_set_type. unfold kTypeFloat. lia.
    + reflexivity.
Qed.

Lemma allocate_never_aborts cfg vm mm : allocate cfg vm mm <> Abort.
Proof.
  unfold allocate.
  destruct (free_cell mm =? 0); [discriminate |].
  destruct (memory mm !! free_cell mm) as [c|]; [| discriminate].
  destruct (as_ c); try discriminate.
  cbv zeta.
  destruct (free_cell (mm_set_free_cell mm next) =? 0); [| discriminate].
  pose proof (collect_never_aborts cfg vm (mm_set_free_cell mm next)) as H.
  destruct (collect cfg vm (mm_set_free_cell mm next)) as [mmc| | |]; simpl; try congruence.
  destruct (free_cell mmc =? 0); [| discriminate].
  destruct (free_cell (grow_heap cfg mmc) =? 0); discriminate.
Qed.

Lemma create_float_never_aborts cfg vm mm d : create_float cfg vm mm d <> Abort.
Proof.
  unfold create_float. destruct (ifloat_representable d); [discriminate |].
  pose proof (allocate_never_aborts cfg vm mm) as H.
  destruct (allocate cfg vm mm) as [[cell mmA]| | |]; cbn [mbind Result_bind]; try congruence.
  destruct (memory mmA !! cell); discriminate.
Qed.

Lemma VM_type_never_aborts m v : VM_type m v <> Abort.
Proof.
  unfold VM_type.
  repeat match goal with
         | |- context [if ?b then _ else _] => destruct b; try discriminate
         | |- context [match ?x with _ => _ end] => destruct x; try discriminate
         end.
Qed.

Lemma numeric_value_never_aborts m v : numeric_value m v <> Abort.
Proof.
  unfold numeric_value.
  destruct (is_integer v); [discriminate |]. destruct (is_ifloat v); [discriminate |].
  destruct (m !! v) as [c|]; [| discriminate]. destruct (as_ c); discriminate.
Qed.

(** [add] contains no assertion and calls none that fails. *)
Lemma add_never_aborts fpu cfg vm mm left right :
  Operators.add fpu cfg vm mm left right <> Abort.
Proof.
  unfold Operators.add.
  pose proof (VM_type_never_aborts (memory mm) left) as Hl.
  destruct (VM_type (memory mm) left) as [tl| | |]; cbn [mbind Result_bind]; try congruence.
  destruct (tl =? kTypeNumeric); cbn [mbind Result_bind].
  - pose proof (VM_type_never_aborts (memory mm) right) as Hr.
    destruct (VM_type (memory mm) right) as [tr| | |]; cbn [mbind Result_bind]; try congruence.
    destruct (tr =? kTypeNumeric).
    + pose proof (numeric_value_never_aborts (memory mm) left) as Hnl.
      destruct (numeric_value (memory mm) left) as [nl| | |]; cbn [mbind Result_bind];
        try congruence.
      pose proof (numeric_value_never_aborts (memory mm) right) as Hnr.
      destruct (numeric_value (memory mm) right) as [nr| | |]; cbn [mbind Result_bind];
        try congruence.
      apply create_float_never_aborts.
    + apply create_float_never_aborts.
  - apply create_float_never_aborts.
Qed.

(** C3: [add] throws in no case.  From a well-formed heap that holds a free
    cell, for every pair of valid operands [add] returns a float value, an
    immediate or a boxed float.  When both operands are numeric (an
    immediate integer, an immediate float or a boxed float) the double the
    result holds is the IEEE-754 binary64 sum, rounded to nearest even, of the
    doubles the operands stand for; when one of them is not numeric it is a
    NaN. *)
Theorem add_spec (fpu : FPU) (cfg : GCConfig) (vm : VM) (mm : MemoryManager)
    (left right : VALUE) :
  FPU_wf fpu ->
  Operators.add fpu cfg vm mm left right <> Abort
  /\ (gc_wf cfg vm mm -> free_cell mm <> 0 ->
      0 <= left < 2 ^ 64 -> 0 <= right < 2 ^ 64 ->
      value_valid (memory mm) left -> value_valid (memory mm) right ->
      exists v mm' d,
        Operators.add fpu cfg vm mm left right = Ok (v, mm')
        /\ float_result (memory mm') v d
        /\ (forall nleft nright,
              numeric_operand (memory mm) left nleft ->
              numeric_operand (memory mm) right nright ->
              double_to_SF d = SFadd 53 1024 (double_to_SF nleft) (double_to_SF nright))
        /\ ((~ exists nleft, numeric_operand (memory mm) left nleft)
            \/ (~ exists nright, numeric_operand (memory mm) right nright) ->
            double_to_SF d = S754_nan)).
Proof.
  intros Hfpu. split; [apply add_never_aborts |].
  intros Hwf Hp Hl Hr Hvl Hvr. unfold Operators.add.
  assert (Hnan : 0 <= NAN < 2 ^ 64) by (vm_compute; split; congruence).
  destruct (numeric_operand_dec _ _ Hl Hvl)
    as [(nl & Htl & _ & Hnl & Hol & Hul)|(tl & Htl & Hntl & _ & Hnone)];
    rewrite Htl; cbn [mbind Result_bind].
  - change (kTypeNumeric =? kTypeNumeric) with true. cbn iota.
    destruct (numeric_operand_dec _ _ Hr Hvr)
      as [(nr & Htr & _ & Hnr & Hor & Hur)|(tr & Htr & Hntr & _ & Hnone)];
      rewrite Htr; cbn [mbind Result_bind].
    + change (kTypeNumeric =? kTypeNumeric) with true. cbn iota.
      rewrite Hnl, Hnr. cbn [mbind Result_bind].
      destruct (double_add_spec fpu nl nr Hfpu) as [Hrange Hsum].
      destruct (create_float_spec cfg vm mm _ Hwf Hp Hrange) as (v & mm' & Hcf & Hres).
      exists v, mm', (double_add fpu nl nr). split; [exact Hcf |]. split; [exact Hres |].
      split.
      * intros nl' nr' Hl' Hr'. rewrite (Hul nl' Hl'), (Hur nr' Hr'). exact Hsum.
      * intros [Hn|Hn]; exfalso; apply Hn; eauto.
    + apply Z.eqb_neq in Hntr. rewrite Hntr. cbn iota.
      destruct (create_float_spec cfg vm mm NAN Hwf Hp Hnan) as (v & mm' & Hcf & Hres).
      exists v, mm', NAN. split; [exact Hcf |]. split; [exact Hres |]. split.
      * intros nl' nr' _ Hr'. exfalso. apply Hnone. eauto.
      * intros _. reflexivity.
  - apply Z.eqb_neq in Hntl. rewrite Hntl. cbn [mbind Result_bind]. cbn iota.
    destruct (create_float_spec cfg vm mm NAN Hwf Hp Hnan) as (v & mm' & Hcf & Hres).
    exists v, mm', NAN. split; [exact Hcf |]. split; [exact Hres |]. split.
    + intros nl' nr' Hl' _. exfalso. apply Hnone. eauto.
    + intros _. reflexivity.
Qed.

Lemma canonical_fpu_wf : FPU_wf canonical_fpu.
Proof. intros a b. vm_compute. repeat split; congruence. Qed.

Lemma add_spec_witness :
  exists v mm' d,
    Operators.add canonical_fpu small_config scheduler_vm scheduler_mm
      (VALUE_ENCODE_INTEGER (2 ^ 53 - 1)) (VALUE_ENCODE_FLOAT 0x3FF8000000000000)
    = Ok (v, mm')
    /\ float_result (memory mm') v d
    /\ double_to_SF d
       = SFadd 53 1024 (binary_normalize 53 1024 (2 ^ 53 - 1) 0 false)
           (double_to_SF 0x3FF8000000000000).
Proof.
  destruct (add_spec canonical_fpu small_config scheduler_vm scheduler_mm
              (VALUE_ENCODE_INTEGER (2 ^ 53 - 1)) (VALUE_ENCODE_FLOAT 0x3FF8000000000000)
              canonical_fpu_wf) as [_ H].
  destruct H as (v & mm' & d & Hadd & Hres & Hsum & _).
  - apply gc_wfb_spec. vm_compute. reflexivity.
  - vm_compute. discriminate.
  - vm_compute. split; congruence.
  - vm_compute. split; congruence.
  - intros Hptr. vm_compute in Hptr. discriminate.
  - intros Hptr. vm_compute in Hptr. discriminate.
  - exists v, mm', d. split; [exact Hadd |]. split; [exact Hres |].
    rewrite (Hsum (double_of_int64 (2 ^ 53 - 1)) 0x3FF8000000000000).
    + vm_compute. reflexivity.
    + apply (operand_integer _ _ _ (2 ^ 53 - 1)); vm_compute; try reflexivity;
        split; congruence.
    + apply operand_ifloat; vm_compute; try reflexivity. split; congruence.
Defined.

(** The sum of [2^53 - 1] and [0] needs all 53 bits of the mantissa: [add]
    boxes it in the cell at the head of the free list; the cell being the
    last one, the allocation collects before [add] returns.  The sum of the
    two infinities is a NaN whose pattern is the one the unit chooses; it
    has low bits clear and comes back as an immediate float. *)
Example add_samples :
  match Operators.add sse2_fpu small_config scheduler_vm scheduler_mm
          (VALUE_ENCODE_INTEGER (2 ^ 53 - 1)) (VALUE_ENCODE_INTEGER 0) with
  | Ok (v, mm') =>
      v = 4096 /\ free_cell mm' = 4416
      /\ out mm' = [GCPause; GCFreed 3; GCFinished]
      /\ memory mm' !! v
         = Some (mkCell (mkBasic kTypeFloat) (AsFloat (Float.mk 0x433FFFFFFFFFFFFF)))
  | _ => False
  end
  /\ Operators.add sse2_fpu small_config scheduler_vm scheduler_mm
       (VALUE_ENCODE_FLOAT 0x7FF0000000000000) (VALUE_ENCODE_FLOAT 0xFFF0000000000000)
     = Ok (VALUE_ENCODE_FLOAT 0xFFF8000000000000, scheduler_mm)
  /\ Operators.add sse2_fpu small_config scheduler_vm scheduler_mm
       kTrue (VALUE_ENCODE_INTEGER 1)
     = Ok (VALUE_ENCODE_FLOAT NAN, scheduler_mm).
Proof. vm_compute. repeat split. Qed.
